(** * SVGInjector (src/index.js): a shallow embedding and its properties

    The module keeps five variables ([svgCache], [injectCount],
    [injectedElements], [requestQueue], [ranScripts]) and talks to the
    browser through the DOM, [XMLHttpRequest] and [setTimeout].  The
    embedding threads one [State] record through every function; a
    JavaScript exception is a [Throw] result that keeps the state reached
    so far. *)

From Stdlib Require Import Ascii String NArith.
From stdpp Require Import base option list gmap strings pretty.

Local Open Scope string_scope.
Local Open Scope list_scope.
Local Open Scope stdpp_scope.

(** ** Strings *)

(** The double quote, as a one-character string. *)
Definition dquote : string := String (ascii_of_nat 34) EmptyString.

Fixpoint is_prefix (p s : string) : bool :=
  match p, s with
  | EmptyString, _ => true
  | String a p', String b s' => if Ascii.eqb a b then is_prefix p' s' else false
  | String _ _, EmptyString => false
  end.

(** [contains needle hay]: [needle] occurs somewhere in [hay]. *)
Fixpoint contains (needle hay : string) : bool :=
  is_prefix needle hay ||
  match hay with
  | EmptyString => false
  | String _ hay' => contains needle hay'
  end.

(** ASCII lower-casing of one code unit: what [/i] does to a pattern made of
    ASCII letters (a code unit above 127 never folds onto an ASCII one). *)
Definition ascii_lower (c : ascii) : ascii :=
  let n := nat_of_ascii c in
  if (65 <=? n)%nat && (n <=? 90)%nat then ascii_of_nat (n + 32) else c.

Fixpoint lower (s : string) : string :=
  match s with
  | EmptyString => EmptyString
  | String c s' => String (ascii_lower c) (lower s')
  end.

(** [(/\.svg/i).test(s)]: the pattern is not anchored. *)
Definition test_svg (s : string) : bool := contains ".svg" (lower s).

(** Number to string, for a non-negative integer.  The counter and the
    status are JavaScript numbers; as naturals they are exact below 2^53,
    far beyond what either reaches. *)
Definition number_to_string (n : N) : string := pretty n.

(** ** The DOM

    A node object is identified by a reference; two nodes are the same
    object exactly when their references are equal.  Trees are kept as
    values: the children of an element are the nodes below it. *)

Definition ref := nat.

#[warnings="-register-all"]
Inductive node : Type :=
| Element (r : ref) (tag : string) (attrs : gmap string string) (children : list node)
| Text (r : ref) (data : string).

Definition node_ref (n : node) : ref :=
  match n with Element r _ _ _ => r | Text r _ => r end.

Fixpoint size (n : node) : nat :=
  match n with
  | Element _ _ _ ch => S (list_sum (map size ch))
  | Text _ _ => 1
  end.

(** Every reference of the tree, in document order. *)
Fixpoint refs (n : node) : list ref :=
  match n with
  | Element r _ _ ch => r :: flat_map refs ch
  | Text r _ => [r]
  end.

(** [textContent]: the text of all text nodes below, in document order. *)
Fixpoint textContent (n : node) : string :=
  match n with
  | Element _ _ _ ch => fold_right (fun c acc => textContent c +:+ acc) "" ch
  | Text _ d => d
  end.

(** The children of a copy: each child is copied at the first reference
    after those of its elder siblings. *)
Fixpoint copy_children (copy : ref -> node -> node) (base : ref) (l : list node)
    : list node :=
  match l with
  | [] => []
  | c :: l' => copy base c :: copy_children copy (base + size c)%nat l'
  end.

(** A deep copy whose nodes are the objects [base], [base+1], ... in
    document order. *)
Fixpoint copy_at (base : ref) (n : node) : node :=
  match n with
  | Element _ tag attrs ch => Element base tag attrs (copy_children copy_at (S base) ch)
  | Text _ d => Text base d
  end.

(** An element of a tree together with its ancestors (nearest first), each
    given by reference and tag. *)
Record entry := mkEntry {
  e_anc : list (ref * string);
  e_ref : ref;
  e_tag : string;
  e_attrs : gmap string string;
  e_node : node
}.

(** The elements of a tree in document order, the root first. *)
Fixpoint entries (anc : list (ref * string)) (n : node) : list entry :=
  match n with
  | Element r tag attrs ch =>
      mkEntry anc r tag attrs n :: flat_map (entries ((r, tag) :: anc)) ch
  | Text _ _ => []
  end.

(** The selectors the module builds. *)
Inductive selector :=
| SelTag (tag : string)
| SelDefsId (tag : string)
| SelAttrContains (attr value : string).

Definition matches (sel : selector) (e : entry) : bool :=
  match sel with
  | SelTag t => bool_decide (e_tag e = t)
  | SelDefsId t =>
      bool_decide (e_tag e = t) && bool_decide (is_Some (e_attrs e !! "id"))
      && bool_decide ("defs" ∈ map snd (e_anc e))
  | SelAttrContains a v =>
      match e_attrs e !! a with
      | Some x => negb (bool_decide (v = "")) && contains v x
      | None => false
      end
  end.

(** [root.querySelectorAll(sel)]: the matching descendants of [root] (never
    [root] itself), in document order, as a static list. *)
Definition querySelectorAll (sel : selector) (root : node) : list entry :=
  filter (fun e => matches sel e = true) (tail (entries [] root)).

(** Apply [f] to the attributes of every element; [f] sees the element's
    reference. *)
Fixpoint map_attrs (f : ref -> gmap string string -> gmap string string)
    (n : node) : node :=
  match n with
  | Element r tag attrs ch => Element r tag (f r attrs) (map (map_attrs f) ch)
  | Text r d => Text r d
  end.

(** [target.setAttribute(name, value)] and [target.removeAttribute(name)]
    for an element [target] of the tree. *)
Definition setAttribute (target : ref) (name value : string) : node -> node :=
  map_attrs (fun r a => if decide (r = target) then <[name := value]> a else a).

Definition removeAttribute (target : ref) (name : string) : node -> node :=
  map_attrs (fun r a => if decide (r = target) then delete name a else a).

Definition find_entry (r : ref) (es : list entry) : option entry :=
  List.find (fun e => bool_decide (e_ref e = r)) es.

(** [target.getAttribute(name)], [None] for [null]. *)
Definition attr_at (target : ref) (name : string) (root : node) : option string :=
  e ← find_entry target (entries [] root); e_attrs e !! name.

(** The [id] property: the attribute, or the empty string. *)
Definition id_at (target : ref) (root : node) : string :=
  default "" (attr_at target "id" root).

(** Replace the child [old] of whichever element holds it by [new]. *)
Fixpoint replace_node (old : ref) (new : node) (n : node) : node :=
  match n with
  | Element r tag attrs ch =>
      Element r tag attrs
        (map (fun c => if decide (node_ref c = old) then new
                       else replace_node old new c) ch)
  | Text r d => Text r d
  end.

(** [n instanceof SVGSVGElement]: tags are local names, and an element named
    [svg] is taken to be the SVG one. *)
Definition isSVGSVGElement (n : node) : bool :=
  match n with
  | Element _ tag _ _ => bool_decide (tag = "svg")
  | Text _ _ => false
  end.

(** ** The browser around the module *)

(** What the page the module runs in provides.  [domParser] is [None] when
    [DOMParser] is not a usable constructor; the parser answers [None] when
    it throws.  A script payload is an opaque program: the model knows only
    whether running it raises.  [other_selector] stands for
    [querySelectorAll] on a selector text that is not one of the three
    shapes of [selector] (it answers [None] for a [SyntaxError]). *)
Record Env := mkEnv {
  isLocal : bool;
  hasSvgSupport : bool;
  hasXMLHttpRequest : bool;
  domParser : option (string -> option node);
  script_raises : string -> bool;
  other_selector : string -> node -> option (list ref)
}.

Inductive responseXML :=
| XmlNull
| XmlDocument (documentElement : node)
| XmlOther.

Record Response := mkResponse {
  status : N;
  statusText : string;
  xml : responseXML;
  responseText : string
}.

(** The closure passed to [loadSvg] by [SVGInjector]: the variables of the
    enclosing call that it reads. *)
Record Continuation := mkContinuation {
  k_el : ref;
  k_evalScripts : string;
  k_callback : option nat;
  k_imgUrl : string
}.

(** Arguments seen by the callbacks. *)
Inductive value :=
| VUndefined
| VNull
| VString (s : string)
| VNode (r : ref).

Inductive loadArg :=
| LNone
| LString (s : string)
| LNode (svg : node).

Inductive cacheEntry :=
| Loading
| Cached (root : node).

Inductive exn :=
| TypeError
| NotFoundError
| SyntaxError
| ScriptError (payload : string).

(** ** State

    The first five fields are the module's variables.  The three objects
    used as maps are only ever indexed by locators that contain [.svg], so
    no inherited property is ever read: they are finite maps.  [page] holds the
    trees the host page owns (the document and any detached tree), [nextRef]
    is the next unused node reference, [timers] the pending
    [setTimeout(.., 0)] tasks in firing order and [xhrs] the requests in
    flight with the callback their handler closes over.  The last four
    fields record what happened: requests sent, calls of [loadSvg]'s
    callback, calls of the caller's callback, payloads run. *)
Record State := mkState {
  svgCache : gmap string cacheEntry;
  injectCount : N;
  injectedElements : list (option ref);
  requestQueue : gmap string (list Continuation);
  ranScripts : gmap string bool;
  page : list node;
  nextRef : ref;
  timers : list (string * nat);
  xhrs : list (string * Continuation);
  fetched : list string;
  delivered : list (Continuation * loadArg);
  reported : list (option nat * list value);
  evaluated : list string
}.

Definition initial (p : list node) (next : ref) : State :=
  mkState ∅ 0 [] ∅ ∅ p next [] [] [] [] [] [].

Definition set_svgCache v s :=
  mkState v (injectCount s) (injectedElements s) (requestQueue s) (ranScripts s)
    (page s) (nextRef s) (timers s) (xhrs s) (fetched s) (delivered s)
    (reported s) (evaluated s).
Definition set_injectCount v s :=
  mkState (svgCache s) v (injectedElements s) (requestQueue s) (ranScripts s)
    (page s) (nextRef s) (timers s) (xhrs s) (fetched s) (delivered s)
    (reported s) (evaluated s).
Definition set_injectedElements v s :=
  mkState (svgCache s) (injectCount s) v (requestQueue s) (ranScripts s)
    (page s) (nextRef s) (timers s) (xhrs s) (fetched s) (delivered s)
    (reported s) (evaluated s).
Definition set_requestQueue v s :=
  mkState (svgCache s) (injectCount s) (injectedElements s) v (ranScripts s)
    (page s) (nextRef s) (timers s) (xhrs s) (fetched s) (delivered s)
    (reported s) (evaluated s).
Definition set_ranScripts v s :=
  mkState (svgCache s) (injectCount s) (injectedElements s) (requestQueue s) v
    (page s) (nextRef s) (timers s) (xhrs s) (fetched s) (delivered s)
    (reported s) (evaluated s).
Definition set_page v s :=
  mkState (svgCache s) (injectCount s) (injectedElements s) (requestQueue s)
    (ranScripts s) v (nextRef s) (timers s) (xhrs s) (fetched s) (delivered s)
    (reported s) (evaluated s).
Definition set_nextRef v s :=
  mkState (svgCache s) (injectCount s) (injectedElements s) (requestQueue s)
    (ranScripts s) (page s) v (timers s) (xhrs s) (fetched s) (delivered s)
    (reported s) (evaluated s).
Definition set_timers v s :=
  mkState (svgCache s) (injectCount s) (injectedElements s) (requestQueue s)
    (ranScripts s) (page s) (nextRef s) v (xhrs s) (fetched s) (delivered s)
    (reported s) (evaluated s).
Definition set_xhrs v s :=
  mkState (svgCache s) (injectCount s) (injectedElements s) (requestQueue s)
    (ranScripts s) (page s) (nextRef s) (timers s) v (fetched s) (delivered s)
    (reported s) (evaluated s).
Definition set_fetched v s :=
  mkState (svgCache s) (injectCount s) (injectedElements s) (requestQueue s)
    (ranScripts s) (page s) (nextRef s) (timers s) (xhrs s) v (delivered s)
    (reported s) (evaluated s).
Definition set_delivered v s :=
  mkState (svgCache s) (injectCount s) (injectedElements s) (requestQueue s)
    (ranScripts s) (page s) (nextRef s) (timers s) (xhrs s) (fetched s) v
    (reported s) (evaluated s).
Definition set_reported v s :=
  mkState (svgCache s) (injectCount s) (injectedElements s) (requestQueue s)
    (ranScripts s) (page s) (nextRef s) (timers s) (xhrs s) (fetched s)
    (delivered s) v (evaluated s).
Definition set_evaluated v s :=
  mkState (svgCache s) (injectCount s) (injectedElements s) (requestQueue s)
    (ranScripts s) (page s) (nextRef s) (timers s) (xhrs s) (fetched s)
    (delivered s) (reported s) v.

(** ** Computations: state passing with exceptions *)

Inductive result (A : Type) :=
| Ok (a : A)
| Throw (e : exn).
Arguments Ok {A} a.
Arguments Throw {A} e.

Definition M (A : Type) : Type := State -> result A * State.

Definition ret {A} (a : A) : M A := fun s => (Ok a, s).
Definition throw {A} (e : exn) : M A := fun s => (Throw e, s).
Definition bind {A B} (m : M A) (f : A -> M B) : M B :=
  fun s => match m s with
           | (Ok a, s') => f a s'
           | (Throw e, s') => (Throw e, s')
           end.
Definition gets {A} (f : State -> A) : M A := fun s => (Ok (f s), s).
Definition modify (f : State -> State) : M unit := fun s => (Ok tt, f s).

Notation "'let*' x := m 'in' k" := (bind m (fun x => k))
  (at level 10, x name, m at level 100, k at level 200).
Notation "m ;; k" := (bind m (fun _ => k))
  (at level 100, k at level 200, right associativity).

(** A [for] loop over a list, stopping at the first exception. *)
Fixpoint for_each {A} (l : list A) (body : A -> M unit) : M unit :=
  match l with
  | [] => ret tt
  | a :: l' => body a ;; for_each l' body
  end.

(** The same for a computation on a local value that can only fail. *)
Fixpoint fold_result {A B} (f : B -> A -> result B) (l : list A) (b : B)
    : result B :=
  match l with
  | [] => Ok b
  | a :: l' =>
      match f b a with
      | Ok b' => fold_result f l' b'
      | Throw e => Throw e
      end
  end.

(** ** The identifier rewriting (lines 143-166 and 231-253) *)

Definition iriElementsAndProperties : list (string * list string) :=
  [ ("clipPath", ["clip-path"]);
    ("color-profile", ["color-profile"]);
    ("cursor", ["cursor"]);
    ("filter", ["filter"]);
    ("linearGradient", ["fill"; "stroke"]);
    ("marker", ["marker"; "marker-start"; "marker-mid"; "marker-end"]);
    ("mask", ["mask"]);
    ("pattern", ["fill"; "stroke"]);
    ("radialGradient", ["fill"; "stroke"]) ].

Fixpoint string_forallb (p : ascii -> bool) (s : string) : bool :=
  match s with
  | EmptyString => true
  | String c s' => p c && string_forallb p s'
  end.

(** An identifier that the style-sheet tokenizer reads back unchanged from
    between double quotes: no quote, no backslash, no line break, no NUL. *)
Definition selector_safe (s : string) : bool :=
  string_forallb
    (fun c => negb (bool_decide (nat_of_ascii c ∈ [0; 10; 12; 13; 34; 92]%nat))) s.

Definition attr_selector_text (property currentId : string) : string :=
  "[" +:+ property +:+ "*=" +:+ dquote +:+ currentId +:+ dquote +:+ "]".

(** [svg.querySelectorAll('[' + property + '*="' + currentId + '"]')].  For
    a safe identifier the text is the substring selector; any other text is
    left to the browser. *)
Definition query_referencing (E : Env) (property currentId : string) (svg : node)
    : result (list ref) :=
  if selector_safe currentId then
    Ok (map e_ref (querySelectorAll (SelAttrContains property currentId) svg))
  else
    match other_selector E (attr_selector_text property currentId) svg with
    | Some l =>
        Ok (filter (fun r => r ∈ map e_ref (tail (entries [] svg))) l)
    | None => Throw SyntaxError
    end.

Definition url_reference (newId : string) : string := "url(#" +:+ newId +:+ ")".

(** The body of [properties.forEach] (lines 243-249). *)
Definition rewrite_property (E : Env) (currentId newId : string) (svg : node)
    (property : string) : result node :=
  match query_referencing E property currentId svg with
  | Ok referencingElements =>
      Ok (fold_left (fun t r => setAttribute r property (url_reference newId) t)
            referencingElements svg)
  | Throw e => Throw e
  end.

(** The body of the loop over [elementDefs] (lines 237-252). *)
Definition rewrite_definition (E : Env) (count : N) (properties : list string)
    (svg : node) (def : ref) : result node :=
  let currentId := id_at def svg in
  let newId := currentId +:+ "-" +:+ number_to_string count in
  match fold_result (rewrite_property E currentId newId) properties svg with
  | Ok svg' => Ok (setAttribute def "id" newId svg')
  | Throw e => Throw e
  end.

(** The body of [Object.keys(iriElementsAndProperties).forEach]. *)
Definition rewrite_category (E : Env) (count : N) (svg : node)
    (cat : string * list string) : result node :=
  let elementDefs := map e_ref (querySelectorAll (SelDefsId (fst cat)) svg) in
  fold_result (rewrite_definition E count (snd cat)) elementDefs svg.

Definition makeIdsUnique (E : Env) (count : N) (svg : node) : result node :=
  fold_result (rewrite_category E count) iriElementsAndProperties svg.

(** ** Script pruning (lines 261-282) *)

Definition executable_type (scriptType : option string) : bool :=
  match scriptType with
  | None => true
  | Some t =>
      bool_decide (t = "") || bool_decide (t = "application/ecmascript")
      || bool_decide (t = "application/javascript")
  end.

(** [root.removeChild(child)]: [NotFoundError] unless [child] is one of the
    children of [root] itself. *)
Definition removeChild (child : ref) (root : node) : result node :=
  match root with
  | Element r tag attrs ch =>
      if bool_decide (child ∈ map node_ref ch)
      then Ok (Element r tag attrs (filter (fun c => node_ref c ≠ child) ch))
      else Throw NotFoundError
  | Text _ _ => Throw TypeError
  end.

(** The body of the loop over [scripts] (lines 266-282).  On a script
    element [innerText], where it exists, is the [textContent]. *)
Definition prune_script (acc : list string * node) (script : entry)
    : result (list string * node) :=
  let '(scriptsToEval, svg) := acc in
  if executable_type (e_attrs script !! "type") then
    match removeChild (e_ref script) svg with
    | Ok svg' => Ok (scriptsToEval ++ [textContent (e_node script)], svg')
    | Throw e => Throw e
    end
  else Ok acc.

Definition prune_scripts (svg : node) : result (list string * node) :=
  fold_result prune_script (querySelectorAll (SelTag "script") svg) ([], svg).

(** ** Style refresh (lines 301-309) *)

Fixpoint set_children (target : ref) (new : list node) (n : node) : node :=
  match n with
  | Element r tag attrs ch =>
      if decide (r = target) then Element r tag attrs new
      else Element r tag attrs (map (set_children target new) ch)
  | Text r d => Text r d
  end.

(** [styleTag.textContent += '']: the children are replaced by one new text
    node, or by nothing when the text is empty. *)
Definition refresh_style (acc : node * ref) (styleTag : entry) : node * ref :=
  let '(svg, next) := acc in
  let text := textContent (e_node styleTag) in
  if bool_decide (text = "") then (set_children (e_ref styleTag) [] svg, next)
  else (set_children (e_ref styleTag) [Text next text] svg, S next).

Definition refresh_styles (svg : node) (next : ref) : node * ref :=
  fold_left refresh_style (querySelectorAll (SelTag "style") svg) (svg, next).

(** ** The module's functions *)

(** A result on a local value, inside a stateful computation. *)
Definition lift {A} (r : result A) : M A :=
  match r with
  | Ok a => ret a
  | Throw e => throw e
  end.

(** Calling the caller's callback ([None] is [Function.prototype], which
    does nothing).  The caller's function is outside the module: the model
    records the call and goes on. *)
Definition call (callback : option nat) (args : list value) : M unit :=
  modify (fun s => set_reported (reported s ++ [(callback, args)]) s).

(** [cloneSvg] (lines 26-28): [cloneNode(true)] makes new objects. *)
Definition cloneSvg (sourceSvg : node) : M node :=
  fun s => (Ok (copy_at (nextRef s) sourceSvg),
            set_nextRef (nextRef s + size sourceSvg)%nat s).

(** [queueRequest] (lines 30-33). *)
Definition queueRequest (url : string) (callback : Continuation) : M unit :=
  modify (fun s =>
    set_requestQueue
      (<[url := default [] (requestQueue s !! url) ++ [callback]]> (requestQueue s)) s).

Definition setTimeout (task : string * nat) : M unit :=
  modify (fun s => set_timers (timers s ++ [task]) s).

(** [processRequestQueue] (lines 35-46): one deferred task per queued
    callback; the queue itself is left as it is. *)
Definition processRequestQueue (url : string) : M unit :=
  let* q := gets (fun s => requestQueue s !! url) in
  match q with
  | Some q => for_each (seq 0 (length q)) (fun index => setTimeout (url, index))
  | None => throw TypeError
  end.

(** [new Function(script)(window)] (line 294). *)
Definition run_script (E : Env) (script : string) : M unit :=
  modify (fun s => set_evaluated (evaluated s ++ [script]) s) ;;
  if script_raises E script then throw (ScriptError script) else ret tt.

(** [injectedElements.indexOf(el)]: holes are skipped. *)
Fixpoint indexOf (el : ref) (l : list (option ref)) : option nat :=
  match l with
  | [] => None
  | x :: l' => if decide (x = Some el) then Some 0%nat else S <$> indexOf el l'
  end.

(** [delete injectedElements[injectedElements.indexOf(el)]]: the slot
    becomes a hole; with index -1 nothing changes. *)
Definition delete_injected (el : ref) (l : list (option ref)) : list (option ref) :=
  match indexOf el l with
  | Some i => <[i := None]> l
  | None => l
  end.

Definition page_entries (p : list node) : list entry := flat_map (entries []) p.

(** [el.parentNode.replaceChild(svg, el)] (line 312): a [TypeError] when
    [el] has no parent; the replaced element stays with the page as a
    detached tree. *)
Definition replaceChild (svg : node) (el : ref) : M unit :=
  let* p := gets page in
  match find_entry el (page_entries p) with
  | Some e =>
      match e_anc e with
      | _ :: _ => modify (set_page (map (replace_node el svg) p ++ [e_node e]))
      | [] => throw TypeError
      end
  | None => throw TypeError
  end.

(** Lines 226-229: the root is made to fill its container. *)
Definition stretch (svg : node) : node :=
  let root := node_ref svg in
  let svg := setAttribute root "width" "100%" svg in
  let svg := setAttribute root "height" "100%" svg in
  setAttribute root "preserveAspectRatio" "none" svg.

(** Lines 306-309, with the text nodes they create. *)
Definition styleRefresh (svg : node) : M node :=
  fun s => let '(svg', next) := refresh_styles svg (nextRef s) in
           (Ok svg', set_nextRef next s).

(** Lines 284-299: the payloads are run when the policy asks for it, and
    the run is recorded. *)
Definition evalScriptsIfNeeded (E : Env) (k : Continuation)
    (scriptsToEval : list string) : M unit :=
  let* ran := gets (fun s => ranScripts s !! k_imgUrl k) in
  if bool_decide (scriptsToEval ≠ [])
     && (bool_decide (k_evalScripts k = "always")
         || (bool_decide (k_evalScripts k = "once")
             && negb (bool_decide (ran = Some true))))
  then
    for_each scriptsToEval (run_script E) ;;
    modify (fun s => set_ranScripts (<[k_imgUrl k := true]> (ranScripts s)) s)
  else ret tt.

(** Lines 301-322: style refresh, replacement, tracker, counter, callback.
    ([el = null] only drops the closure's own reference; the success path of
    a continuation runs at most once.) *)
Definition finish (k : Continuation) (root : ref) (svg : node) : M unit :=
  let* svg := styleRefresh svg in
  replaceChild svg (k_el k) ;;
  modify (fun s => set_injectedElements
                     (delete_injected (k_el k) (injectedElements s)) s) ;;
  modify (fun s => set_injectCount (injectCount s + 1)%N s) ;;
  call (k_callback k) [VNull; VNode root].

(** The function passed to [loadSvg] (lines 219-323).  Its argument is
    [undefined], a message, or the clone; a clone is always an element. *)
Definition continuation (E : Env) (k : Continuation) (arg : loadArg) : M unit :=
  match arg with
  | LNone => call (k_callback k) [VUndefined]
  | LString msg => call (k_callback k) [VString msg]
  | LNode (Text _ _) => throw TypeError
  | LNode (Element root _ _ _ as svg) =>
      let svg := stretch svg in
      let* count := gets injectCount in
      let* svg := lift (makeIdsUnique E count svg) in
      let svg := removeAttribute root "xmlns:a" svg in
      let* pruned := lift (prune_scripts svg) in
      let '(scriptsToEval, svg) := pruned in
      evalScriptsIfNeeded E k scriptsToEval ;;
      finish k root svg
  end.

(** A call of the callback given to [loadSvg]. *)
Definition invoke (E : Env) (callback : Continuation) (arg : loadArg) : M unit :=
  modify (fun s => set_delivered (delivered s ++ [(callback, arg)]) s) ;;
  continuation E callback arg.

(** The deferred function of [processRequestQueue] (lines 40-42). *)
Definition fire_timer (E : Env) (task : string * nat) : M unit :=
  let '(url, index) := task in
  let* q := gets (fun s => requestQueue s !! url) in
  match q with
  | Some q =>
      let* c := gets (fun s => svgCache s !! url) in
      match c with
      | Some (Cached root) =>
          let* clone := cloneSvg root in
          match q !! index with
          | Some callback => invoke E callback (LNode clone)
          | None => throw TypeError
          end
      | _ => throw TypeError
      end
  | None => throw TypeError
  end.

Definition cache_document (url : string) (documentElement : node) : M unit :=
  let* root := cloneSvg documentElement in
  modify (fun s => set_svgCache (<[url := Cached root]> (svgCache s)) s).

Definition has_parsererror (doc : node) : bool :=
  bool_decide (Exists (fun e => e_tag e = "parsererror") (entries [] doc)).

Definition local_note : string :=
  "Note: SVG injection ajax calls do not work locally without adjusting security setting in your browser. Or consider using a local webserver.".

(** [httpRequest.onreadystatechange] at [readyState] 4 (lines 72-131).  The
    document the browser built arrives as a tree; its nodes are new
    objects. *)
Definition onreadystatechange (E : Env) (url : string) (callback : Continuation)
    (httpRequest : Response) : M unit :=
  if (status httpRequest =? 404)%N
     || match xml httpRequest with XmlNull => true | _ => false end
  then
    invoke E callback (LString ("Unable to load SVG file: " +:+ url)) ;;
    (if isLocal E then invoke E callback (LString local_note) else ret tt) ;;
    invoke E callback LNone
  else if (status httpRequest =? 200)%N
          || (isLocal E && (status httpRequest =? 0)%N)
  then
    let* go_on :=
      match xml httpRequest with
      | XmlDocument documentElement =>
          cache_document url documentElement ;; ret true
      | _ =>
          match domParser E with
          | Some parseFromString =>
              match parseFromString (responseText httpRequest) with
              | Some xmlDoc =>
                  if has_parsererror xmlDoc then
                    invoke E callback (LString ("Unable to parse SVG file: " +:+ url)) ;;
                    ret false
                  else cache_document url xmlDoc ;; ret true
              | None =>
                  invoke E callback (LString ("Unable to parse SVG file: " +:+ url)) ;;
                  ret false
              end
          | None => ret true
          end
      end in
    if go_on then processRequestQueue url else ret tt
  else
    invoke E callback
      (LString ("There was a problem injecting the SVG: "
                +:+ number_to_string (status httpRequest) +:+ " "
                +:+ statusText httpRequest)).

(** [loadSvg] (lines 48-141). *)
Definition loadSvg (E : Env) (url : string) (callback : Continuation) : M unit :=
  let* c := gets (fun s => svgCache s !! url) in
  match c with
  | Some (Cached root) =>
      if isSVGSVGElement root then
        let* clone := cloneSvg root in
        invoke E callback (LNode clone)
      else queueRequest url callback
  | Some Loading => queueRequest url callback
  | None =>
      if negb (hasXMLHttpRequest E) then
        invoke E callback (LString "Browser does not support XMLHttpRequest")
      else
        modify (fun s => set_svgCache (<[url := Loading]> (svgCache s)) s) ;;
        queueRequest url callback ;;
        modify (fun s => set_xhrs (xhrs s ++ [(url, callback)]) s) ;;
        modify (fun s => set_fetched (fetched s ++ [url]) s)
  end.

(** [String(x)] for an attribute value that may be [null]. *)
Definition to_string (x : option string) : string := default "null" x.

(** [el.getAttribute(name)] on an element of the page; an [el] that is no
    element of the page has no such method. *)
Definition getAttribute (el : ref) (name : string) : M (option string) :=
  let* p := gets page in
  match find_entry el (page_entries p) with
  | Some e => ret (e_attrs e !! name)
  | None => throw TypeError
  end.

Definition set_page_attribute (el : ref) (name val : string) : M unit :=
  modify (fun s => set_page (map (setAttribute el name val) (page s)) s).

(** [SVGInjector] (lines 174-324). *)
Definition SVGInjector (E : Env) (el : ref) (evalScripts : option string)
    (callback : option nat) : M unit :=
  let evalScripts :=
    match evalScripts with
    | Some s => if bool_decide (s = "") then "always" else s
    | None => "always"
    end in
  let* imgUrl := getAttribute el "data-src" in
  if negb (test_svg (to_string imgUrl)) then
    call callback
      [VString ("Attempted to inject a file with a non-svg extension: "
                +:+ to_string imgUrl)]
  else if negb (hasSvgSupport E) then
    let* pngFallback := getAttribute el "data-png" in
    match pngFallback with
    | Some png =>
        if bool_decide (png = "") then
          call callback
            [VString "This browser does not support SVG and no PNG fallback was defined."]
        else
          set_page_attribute el "style" "width: 100%; height: 100%;" ;;
          set_page_attribute el "src" png ;;
          call callback [VNull; VNode el]
    | None =>
        call callback
          [VString "This browser does not support SVG and no PNG fallback was defined."]
    end
  else
    let* injected := gets injectedElements in
    match indexOf el injected with
    | Some _ => ret tt
    | None =>
        modify (fun s => set_injectedElements (injectedElements s ++ [Some el]) s) ;;
        set_page_attribute el "src" "" ;;
        loadSvg E (to_string imgUrl)
          (mkContinuation el evalScripts callback (to_string imgUrl))
    end.

(** ** The event loop

    The page calls [SVGInjector], a request completes, or the oldest
    deferred task runs.  Each is one task: an exception ends the task and
    leaves the state it reached. *)
Inductive event :=
| Inject (el : ref) (evalScripts : option string) (callback : option nat)
| XhrDone (url : string) (httpRequest : Response)
| TimerFires.

Fixpoint take_xhr (url : string) (l : list (string * Continuation))
    : option (Continuation * list (string * Continuation)) :=
  match l with
  | [] => None
  | (u, k) :: l' =>
      if decide (u = url) then Some (k, l')
      else '(k', rest) ← take_xhr url l'; Some (k', (u, k) :: rest)
  end.

Definition step (E : Env) (ev : event) : M unit :=
  match ev with
  | Inject el evalScripts callback => SVGInjector E el evalScripts callback
  | XhrDone url httpRequest =>
      let* pending := gets xhrs in
      match take_xhr url pending with
      | Some (callback, rest) =>
          modify (set_xhrs rest) ;;
          onreadystatechange E url callback httpRequest
      | None => ret tt
      end
  | TimerFires =>
      let* pending := gets timers in
      match pending with
      | task :: rest => modify (set_timers rest) ;; fire_timer E task
      | [] => ret tt
      end
  end.

Fixpoint run (E : Env) (evs : list event) (s : State) : State :=
  match evs with
  | [] => s
  | ev :: evs' => run E evs' (snd (step E ev s))
  end.

(** ** Vocabulary of the statements *)

(** The identifiers in category scope: for each category in table order, the
    [id] of every element of that category below a [defs]. *)
Definition scoped_ids (t : node) : list string :=
  flat_map
    (fun cat => map (fun e => default "" (e_attrs e !! "id"))
                  (querySelectorAll (SelDefsId (fst cat)) t))
    iriElementsAndProperties.

(** Attribute [p] of the descendant [r] of [t] mentions an identifier in
    category scope whose category lists [p] among its referencing
    attributes. *)
Definition mentions_scoped_id (t : node) (r : ref) (p : string) : Prop :=
  exists cat d v,
    cat ∈ iriElementsAndProperties /\ p ∈ snd cat /\
    d ∈ map e_ref (querySelectorAll (SelDefsId (fst cat)) t) /\
    id_at d t <> "" /\ selector_safe (id_at d t) = true /\
    r ∈ map e_ref (tail (entries [] t)) /\
    attr_at r p t = Some v /\ contains (id_at d t) v = true.

Fixpoint ends_with (suffix s : string) : bool :=
  bool_decide (s = suffix) ||
  match s with
  | EmptyString => false
  | String _ s' => ends_with suffix s'
  end.

(** The response caches a document: a success status together with a
    document, or with a text the parser accepts. *)
Definition resolves (E : Env) (httpRequest : Response) : option node :=
  if negb ((status httpRequest =? 200)%N
           || (isLocal E && (status httpRequest =? 0)%N))
  then None
  else
    match xml httpRequest with
    | XmlNull => None
    | XmlDocument documentElement => Some documentElement
    | XmlOther =>
        match domParser E with
        | Some parseFromString =>
            match parseFromString (responseText httpRequest) with
            | Some xmlDoc => if has_parsererror xmlDoc then None else Some xmlDoc
            | None => None
            end
        | None => None
        end
    end.

(** ** Sample pages and documents *)

Module Sample.

(** Svg support, requests available, no [DOMParser]; a payload raises
    exactly when it begins with [throw]. *)
Definition env : Env :=
  mkEnv false true true None (is_prefix "throw") (fun _ _ => None).

Definition img (r : ref) (src : string) : node :=
  Element r "img" {[ "data-src" := src ]} [].

Definition body (children : list node) : node := Element 0 "body" ∅ children.

Definition clip : node :=
  Element 0 "svg" ∅
    [ Element 0 "defs" ∅ [Element 0 "clipPath" {[ "id" := "c1" ]} []];
      Element 0 "rect" {[ "clip-path" := "url(#c1)" ]} [] ].

Definition with_scripts (payloads : list string) : node :=
  Element 0 "svg" ∅ (map (fun p => Element 0 "script" ∅ [Text 0 p]) payloads).

Definition nested_script : node :=
  Element 0 "svg" ∅ [Element 0 "g" ∅ [Element 0 "script" ∅ [Text 0 "go()"]]].

(** Two identifiers of which one is a prefix of the other, referenced from
    the root and from a descendant. *)
Definition overlapping : node :=
  Element 0 "svg" {[ "clip-path" := "url(#ab)" ]}
    [ Element 0 "defs" ∅
        [ Element 0 "clipPath" {[ "id" := "a" ]} [];
          Element 0 "clipPath" {[ "id" := "ab" ]} [] ];
      Element 0 "rect" {[ "clip-path" := "url(#ab)" ]} [] ].

(** Two identifiers of which none occurs in the other, each referenced
    from a descendant. *)
Definition two_clips : node :=
  Element 0 "svg" ∅
    [ Element 0 "defs" ∅
        [ Element 0 "clipPath" {[ "id" := "c1" ]} [];
          Element 0 "clipPath" {[ "id" := "k2" ]} [] ];
      Element 0 "rect" {[ "clip-path" := "url(#k2)" ]} [];
      Element 0 "circle" {[ "clip-path" := "url(#c1)" ]} [] ].

Definition ok (doc : node) : Response := mkResponse 200 "OK" (XmlDocument doc) "".

Definition not_found : Response := mkResponse 404 "Not Found" XmlNull "".

End Sample.

(** What the continuation has in hand when it reaches the script loop
    (lines 226-282): the payloads to run and the pruned tree. *)
Definition collected (E : Env) (count : N) (svg : node)
    : result (list string * node) :=
  match makeIdsUnique E count (stretch svg) with
  | Ok svg' => prune_scripts (removeAttribute (node_ref svg) "xmlns:a" svg')
  | Throw e => Throw e
  end.

Module Scenario.
Import Sample.

Definition two_placeholders : State :=
  initial [body [img 1 "a.svg"; img 2 "a.svg"]] 3.

Definition one_placeholder : State := initial [body [img 1 "a.svg"]] 2.

(** The first placeholder has been injected: the key is cached. *)
Definition ready : State :=
  run env [Inject 1 None (Some 7%nat); XhrDone "a.svg" (ok clip); TimerFires]
    two_placeholders.

(** Two consumers are waiting and the request fails. *)
Definition failed : State :=
  run env [Inject 1 None (Some 7%nat); Inject 2 None (Some 8%nat);
           XhrDone "a.svg" not_found]
    two_placeholders.

(** The document has arrived and the delivery is pending. *)
Definition arrived (doc : node) : State :=
  run env [Inject 1 None (Some 7%nat); XhrDone "a.svg" (ok doc)] one_placeholder.

(** The same, after the page took the placeholder out of its parent. *)
Definition detached : State :=
  set_page [body []; Element 1 "img" {[ "data-src" := "a.svg"; "src" := "" ]} []]
    (arrived clip).

Definition three_scripts : node :=
  with_scripts ["go()"; "throw 1"; "stop()"].

(** The children of its copy at reference 5. *)
Definition three_scripts_clone : list node :=
  [ Element 6 "script" ∅ [Text 7 "go()"];
    Element 8 "script" ∅ [Text 9 "throw 1"];
    Element 10 "script" ∅ [Text 11 "stop()"] ].

Definition one_script : node := with_scripts ["go()"].

(** Two copies of it. *)
Definition one_script_clone (base : ref) : node :=
  Element base "svg" ∅ [Element (S base) "script" ∅ [Text (S (S base)) "go()"]].

(** The attributes the continuation gives to the root. *)
Definition stretched : gmap string string :=
  {[ "width" := "100%"; "height" := "100%"; "preserveAspectRatio" := "none" ]}.

(** The copy of [clip] at [base], after the rewriting with the counter
    text [count]. *)
Definition rewritten_clip (base : ref) (count : string) : node :=
  Element base "svg" stretched
    [ Element (1 + base) "defs" ∅
        [Element (2 + base) "clipPath" {[ "id" := "c1-" +:+ count ]} []];
      Element (3 + base) "rect"
        {[ "clip-path" := "url(#c1-" +:+ count +:+ ")" ]} [] ].


End Scenario.

(** ** Vocabulary of the proofs *)

(** [m] moves every state to an [R]-related one, on every exit. *)
Definition preserves (R : State -> State -> Prop) {A} (m : M A) : Prop :=
  forall s, R s (snd (m s)).

(** What the continuation leaves alone: the cache, the queues, the pending
    tasks and requests and the record of deliveries; references are only
    ever added. *)
Definition cache_frame (s s' : State) : Prop :=
  svgCache s' = svgCache s /\ requestQueue s' = requestQueue s /\
  timers s' = timers s /\ xhrs s' = xhrs s /\ fetched s' = fetched s /\
  delivered s' = delivered s /\ (nextRef s <= nextRef s')%nat.

(** What no function of the module undoes: the counter and the references
    only grow, and a recorded script run stays recorded. *)
Definition advances (s s' : State) : Prop :=
  (injectCount s <= injectCount s')%N /\ (nextRef s <= nextRef s')%nat /\
  forall u, ranScripts s !! u = Some true -> ranScripts s' !! u = Some true.

(** What everything after the script loop leaves alone. *)
Definition scripts_frame (s s' : State) : Prop :=
  evaluated s' = evaluated s /\ ranScripts s' = ranScripts s.

(** What a deferred task leaves alone, whatever its callback does. *)
Definition task_frame (s s' : State) : Prop :=
  svgCache s' = svgCache s /\ requestQueue s' = requestQueue s /\
  timers s' = timers s /\ fetched s' = fetched s /\
  (nextRef s <= nextRef s')%nat.

(** What the module never does to a key: once it has a cache entry it keeps
    one; while it has none, its queue is not touched and no request for it
    is put in flight. *)
Definition cache_grows (s s' : State) : Prop :=
  forall u, svgCache s' !! u = None ->
    svgCache s !! u = None /\ requestQueue s' !! u = requestQueue s !! u /\
    (take_xhr u (xhrs s) = None -> take_xhr u (xhrs s') = None).

(** A key without cache entry has no queue and no request in flight. *)
Definition absent_keys_idle (s : State) : Prop :=
  forall u, svgCache s !! u = None ->
    requestQueue s !! u = None /\ take_xhr u (xhrs s) = None.

(** The states the module can be in: the page is loaded, then events
    happen. *)
Definition reachable (E : Env) (s : State) : Prop :=
  exists p next evs, s = run E evs (initial p next).


Definition is_digit (c : ascii) : bool :=
  let n := nat_of_ascii c in (48 <=? n)%nat && (n <=? 57)%nat.

(** An entry after [map_attrs f]. *)
Definition upd (f : ref -> gmap string string -> gmap string string) (e : entry)
    : entry :=
  mkEntry (e_anc e) (e_ref e) (e_tag e) (f (e_ref e) (e_attrs e))
    (map_attrs f (e_node e)).

(** ** The invariant of the identifier rewriting

    The tree being rewritten is always [map_attrs F t0] for the tree [t0]
    the rewriting started from.  [dr] lists the definitions whose [id] has
    been rewritten and [dcp] the pairs (old identifier, property) whose
    references have been rewritten; [sfx] is the dash and the counter. *)
Definition rewriting_inv (t0 : node) (sfx : string) (dr : list ref)
    (dcp : list (string * string))
    (F : ref -> gmap string string -> gmap string string) : Prop :=
  forall e0, e0 ∈ entries [] t0 ->
    let a0 := e_attrs e0 in
    let a := F (e_ref e0) a0 in
    (a !! "id" = if decide (e_ref e0 ∈ dr)
                 then (fun c => c +:+ sfx) <$> (a0 !! "id") else a0 !! "id")
    /\ (forall p, p <> "id" ->
          a !! p = a0 !! p
          \/ exists c, (c, p) ∈ dcp /\ a !! p = Some (url_reference (c +:+ sfx)))
    /\ (forall p v c,
          p <> "id" -> e_anc e0 <> [] -> a0 !! p = Some v -> (c, p) ∈ dcp ->
          c <> "" -> selector_safe c = true -> contains c v = true ->
          exists c', (c', p) ∈ dcp /\ a !! p = Some (url_reference (c' +:+ sfx))).

(** The definition elements of a category, as the rewriting finds them. *)
Definition defs_of (t : node) (tag : string) : list ref :=
  map e_ref (querySelectorAll (SelDefsId tag) t).

(** The definitions and the (identifier, property) pairs of the whole
    table. *)
Definition all_defs (t : node) : list ref :=
  flat_map (fun cat => defs_of t (fst cat)) iriElementsAndProperties.

Definition all_pairs (t : node) : list (string * string) :=
  flat_map
    (fun cat : string * list string =>
       flat_map (fun d => map (pair (id_at d t)) (snd cat)) (defs_of t (fst cat)))
    iriElementsAndProperties.

Definition entry_id (e : entry) : string := default "" (e_attrs e !! "id").

(** What the category selector and the identifier of an entry depend on. *)
Definition view (e : entry) : list string * string * option string :=
  (map snd (e_anc e), e_tag e, e_attrs e !! "id").

(** ** Vocabulary of the further properties *)

(** The module has not started anything: no request, no cache entry, no
    queue, no deferred task, no injection, no script run. *)
Definition untouched (s : State) : Prop :=
  fetched s = [] /\ svgCache s = ∅ /\ requestQueue s = ∅ /\ timers s = [] /\
  xhrs s = [] /\ injectCount s = 0%N /\ evaluated s = [] /\ ranScripts s = ∅.

(** [P], once true, stays true. *)
Definition keeps (P : State -> Prop) (s s' : State) : Prop := P s -> P s'.

(** What a callback leaves alone, apart from the record of deliveries. *)
Definition fetch_frame (s s' : State) : Prop :=
  svgCache s' = svgCache s /\ requestQueue s' = requestQueue s /\
  timers s' = timers s /\ xhrs s' = xhrs s /\ fetched s' = fetched s.

(** The requests and the cache agree: a locator is requested at most once
    and has a cache entry from then on; a locator has at most one request in
    flight, and is marked as loading while it has one. *)
Definition consistent (s : State) : Prop :=
  NoDup (fetched s) /\
  (forall u, u ∈ fetched s -> is_Some (svgCache s !! u)) /\
  NoDup (map fst (xhrs s)) /\
  (forall u, u ∈ map fst (xhrs s) -> svgCache s !! u = Some Loading).

(** A cache entry with no request in flight is not written again. *)
Definition slot_frame (url : string) (s s' : State) : Prop :=
  is_Some (svgCache s !! url) -> url ∉ map fst (xhrs s) ->
  svgCache s' !! url = svgCache s !! url /\ url ∉ map fst (xhrs s').

(** Every deferred task has what it will read: a cached node and a callback
    at its index. *)
Definition deliverable (s : State) : Prop :=
  forall u i, (u, i) ∈ timers s ->
    exists c q k, svgCache s !! u = Some (Cached c) /\
                  requestQueue s !! u = Some q /\ q !! i = Some k.

(** The elements that [injectedElements] holds, holes left out. *)
Definition tracked (l : list (option ref)) : list ref := omap id l.

Definition tracked_once (s : State) : Prop := NoDup (tracked (injectedElements s)).

(** The test of line 285: there is a payload, and the policy asks for a
    run. *)
Definition runs_scripts (k : Continuation) (scriptsToEval : list string) (s : State)
    : bool :=
  bool_decide (scriptsToEval ≠ [])
  && (bool_decide (k_evalScripts k = "always")
      || (bool_decide (k_evalScripts k = "once")
          && negb (bool_decide (ranScripts s !! k_imgUrl k = Some true)))).

(** The attributes of the root element. *)
Definition root_attrs (n : node) : gmap string string :=
  match n with
  | Element _ _ attrs _ => attrs
  | Text _ _ => ∅
  end.

(** Every referencing attribute of the table. *)
Definition referencing_properties : list string :=
  flat_map snd iriElementsAndProperties.

(** [t'] has the root of [t], attributes included, and the elements of
    [t]. *)
Definition same_root (t t' : node) : Prop :=
  node_ref t' = node_ref t /\ root_attrs t' = root_attrs t /\
  map e_ref (entries [] t') = map e_ref (entries [] t).

(** Where an element stands, and what it is: all but its attributes. *)
Definition place (e : entry) : list (ref * string) * ref * string :=
  (e_anc e, e_ref e, e_tag e).

(** The script elements whose [type] the loop of lines 266-282 accepts, in
    document order. *)
Definition executable_scripts (svg : node) : list entry :=
  filter (fun e => executable_type (e_attrs e !! "type") = true)
    (querySelectorAll (SelTag "script") svg).

(** The default of line 177: [undefined] and the empty string (both falsy)
    stand for [always]. *)
Definition policy_of (evalScripts : option string) : string :=
  match evalScripts with
  | Some s => if bool_decide (s = "") then "always" else s
  | None => "always"
  end.

(** What the script loop reads of an element: its depth, its tag, its
    [type] and its text. *)
Definition script_view (e : entry) : nat * string * option string * string :=
  (length (e_anc e), e_tag e, e_attrs e !! "type", textContent (e_node e)).

(** The text of a list of children. *)
Definition text_of (l : list node) : string :=
  fold_right (fun c acc => textContent c +:+ acc) "" l.

(** What the style refresh keeps of an element: the object, its tag, its
    attributes and its text. *)
Definition kept_view (e : entry) : ref * string * gmap string string * string :=
  (e_ref e, e_tag e, e_attrs e, textContent (e_node e)).

(** [t] has the text of [t0], and its elements are elements of [t0],
    unchanged in all but their children. *)
Definition refreshed_from (t0 t : node) : Prop :=
  textContent t = textContent t0
  /\ forall e', e' ∈ entries [] t ->
       exists e, e ∈ entries [] t0 /\ kept_view e = kept_view e'.

(** Queues only grow at their end. *)
Definition queue_grows (s s' : State) : Prop :=
  forall u q, requestQueue s !! u = Some q ->
    exists q', requestQueue s' !! u = Some (q ++ q').

(** ** Vocabulary of coalescing and of the rewritten references *)





(** The test of the substring selector of line 246 on the value of an
    attribute: the identifier is not empty and occurs in the value. *)
Definition mentions (c v : string) : bool :=
  negb (bool_decide (c = "")) && contains c v.

(** What the loops of lines 232-253 make of the value [v] of attribute [p]
    of a descendant: the pairs (identifier, property) come in the order of
    the loops, and a pair for [p] whose identifier the value mentions at
    that time replaces the value by the reference to the identifier with
    its suffix. *)
Definition rewritten_value (sfx p : string) (pairs : list (string * string))
    (v : string) : string :=
  fold_left
    (fun cur cp =>
       if decide (snd cp = p) then
         if mentions (fst cp) cur then url_reference (fst cp +:+ sfx) else cur
       else cur)
    pairs v.

(** Attribute [p] of the descendant [r] of [t] mentions the identifier [c]
    in category scope, of a category that lists [p], and no other: every
    identifier in the scope of a category that lists [p] reads back
    unchanged from a selector, and is [c] or occurs neither in the value of
    the attribute nor in the reference to [c] with the suffix [sfx]. *)
Definition mentions_only (t : node) (sfx : string) (r : ref) (p c : string) : Prop :=
  exists v,
    r ∈ map e_ref (tail (entries [] t)) /\
    attr_at r p t = Some v /\
    (c, p) ∈ all_pairs t /\
    mentions c v = true /\
    forall c', (c', p) ∈ all_pairs t ->
      selector_safe c' = true /\
      (c' = c \/
       (mentions c' v = false /\ mentions c' (url_reference (c +:+ sfx)) = false)).


(** * Properties *)

(** ** Reasoning about computations *)

Section Preservation.
Variable R : State -> State -> Prop.
Hypothesis R_refl : forall s, R s s.
Hypothesis R_trans : forall s1 s2 s3, R s1 s2 -> R s2 s3 -> R s1 s3.

Lemma preserves_ret {A} (a : A) : preserves R (ret a).
Proof using R_refl. intros s. apply R_refl. Qed.

Lemma preserves_throw {A} e : preserves R (@throw A e).
Proof using R_refl. intros s. apply R_refl. Qed.

Lemma preserves_gets {A} (f : State -> A) : preserves R (gets f).
Proof using R_refl. intros s. apply R_refl. Qed.

Lemma preserves_lift {A} (r : result A) : preserves R (lift r).
Proof using R_refl. destruct r; intros s; apply R_refl. Qed.

Lemma preserves_bind {A B} (m : M A) (f : A -> M B) :
  preserves R m -> (forall a, preserves R (f a)) -> preserves R (bind m f).
Proof using R_trans.
  intros Hm Hf s. unfold bind. specialize (Hm s).
  destruct (m s) as [[a|e] s']; simpl in *; [|done].
  eapply R_trans; [exact Hm|apply Hf].
Qed.

Lemma preserves_modify (f : State -> State) :
  (forall s, R s (f s)) -> preserves R (modify f).
Proof. intros H s. apply H. Qed.

Lemma preserves_for_each {A} (l : list A) (body : A -> M unit) :
  (forall a, preserves R (body a)) -> preserves R (for_each l body).
Proof using R_refl R_trans.
  intros Hb. induction l as [|a l IH]; simpl.
  - apply preserves_ret.
  - apply preserves_bind; [apply Hb|intros _; exact IH].
Qed.
End Preservation.

(** Breaks a computation into its primitive steps. *)
Ltac preserve_step :=
  lazymatch goal with
  | |- preserves _ (ret _) => apply preserves_ret; solve [eauto 3]
  | |- preserves _ (throw _) => apply preserves_throw; solve [eauto 3]
  | |- preserves _ (gets _) => apply preserves_gets; solve [eauto 3]
  | |- preserves _ (lift _) => apply preserves_lift; solve [eauto 3]
  | |- preserves _ (bind _ _) => apply preserves_bind; [solve [eauto 3] | | intros ?]
  | |- preserves _ (for_each _ _) =>
      apply preserves_for_each; [solve [eauto 3] | solve [eauto 3] | intros ?]
  | |- preserves _ (modify _) => apply preserves_modify; intros ?
  | |- preserves _ (match ?x with _ => _ end) => destruct x
  | |- preserves _ _ => solve [eauto 3]
  end.

Lemma cache_frame_refl s : cache_frame s s.
Proof. repeat split; lia. Qed.

Lemma cache_frame_trans s1 s2 s3 :
  cache_frame s1 s2 -> cache_frame s2 s3 -> cache_frame s1 s3.
Proof.
  intros (?&?&?&?&?&?&?) (?&?&?&?&?&?&?).
  repeat split; try congruence; lia.
Qed.

Lemma advances_refl s : advances s s.
Proof. repeat split; auto; lia. Qed.

Lemma advances_trans s1 s2 s3 : advances s1 s2 -> advances s2 s3 -> advances s1 s3.
Proof. intros (?&?&?) (?&?&?). repeat split; auto; lia. Qed.

#[local] Hint Resolve cache_frame_refl cache_frame_trans advances_refl advances_trans : core.

Lemma refresh_styles_next svg next : (next <= snd (refresh_styles svg next))%nat.
Proof.
  unfold refresh_styles.
  generalize (querySelectorAll (SelTag "style") svg). intros l. revert svg next.
  induction l as [|e l IH]; intros svg next; simpl; [lia|].
  destruct (bool_decide (textContent (e_node e) = "")); simpl.
  - apply IH.
  - etrans; [|apply IH]. lia.
Qed.

Lemma styleRefresh_next svg s : (nextRef s <= nextRef (snd (styleRefresh svg s)))%nat.
Proof.
  unfold styleRefresh. pose proof (refresh_styles_next svg (nextRef s)) as H.
  destruct (refresh_styles svg (nextRef s)); simpl in *. lia.
Qed.

Lemma styleRefresh_same {A} svg s (f : State -> A) :
  (forall v s0, f (set_nextRef v s0) = f s0) ->
  f (snd (styleRefresh svg s)) = f s.
Proof.
  intros Hf. unfold styleRefresh.
  destruct (refresh_styles svg (nextRef s)); simpl. apply Hf.
Qed.

Lemma styleRefresh_cache_frame svg : preserves cache_frame (styleRefresh svg).
Proof.
  intros s. pose proof (styleRefresh_next svg s).
  repeat split; try (apply styleRefresh_same; done); done.
Qed.

Lemma styleRefresh_advances svg : preserves advances (styleRefresh svg).
Proof.
  intros s. pose proof (styleRefresh_next svg s).
  repeat split; [|done|].
  - rewrite (styleRefresh_same _ _ injectCount); [lia|done].
  - intros u. by rewrite (styleRefresh_same _ _ ranScripts).
Qed.

Lemma cloneSvg_advances src : preserves advances (cloneSvg src).
Proof. intros s. repeat split; simpl; auto; lia. Qed.

#[local] Hint Resolve styleRefresh_cache_frame styleRefresh_advances
  cloneSvg_advances : core.

Lemma continuation_cache_frame E k arg : preserves cache_frame (continuation E k arg).
Proof.
  unfold continuation, evalScriptsIfNeeded, finish, call, run_script, replaceChild.
  destruct arg as [|msg|[root tag attrs ch|r d]].
  all: repeat preserve_step.
  all: repeat split; simpl; lia.
Qed.

Lemma continuation_advances E k arg : preserves advances (continuation E k arg).
Proof.
  unfold continuation, evalScriptsIfNeeded, finish, call, run_script, replaceChild.
  destruct arg as [|msg|[root tag attrs ch|r d]].
  all: repeat preserve_step.
  all: repeat split; simpl; auto; try lia.
  intros u Hu. destruct (decide (k_imgUrl k = u)) as [->|].
  - apply lookup_insert_eq.
  - by rewrite lookup_insert_ne.
Qed.

#[local] Hint Resolve continuation_advances : core.

Lemma invoke_advances E k arg : preserves advances (invoke E k arg).
Proof. unfold invoke. repeat preserve_step. repeat split; simpl; auto; lia. Qed.

#[local] Hint Resolve invoke_advances : core.

Lemma fire_timer_advances E task : preserves advances (fire_timer E task).
Proof. unfold fire_timer. destruct task. repeat preserve_step. Qed.

Lemma onreadystatechange_advances E url k resp :
  preserves advances (onreadystatechange E url k resp).
Proof.
  unfold onreadystatechange, cache_document, processRequestQueue, setTimeout.
  repeat preserve_step.
  all: repeat split; simpl; auto; lia.
Qed.

Lemma loadSvg_advances E url k : preserves advances (loadSvg E url k).
Proof.
  unfold loadSvg, queueRequest. repeat preserve_step.
  all: repeat split; simpl; auto; lia.
Qed.

#[local] Hint Resolve fire_timer_advances onreadystatechange_advances
  loadSvg_advances : core.

Lemma SVGInjector_advances E el evalScripts callback :
  preserves advances (SVGInjector E el evalScripts callback).
Proof.
  unfold SVGInjector, getAttribute, set_page_attribute, call.
  repeat preserve_step.
  all: repeat split; simpl; auto; lia.
Qed.

#[local] Hint Resolve SVGInjector_advances : core.

Lemma step_advances E ev : preserves advances (step E ev).
Proof.
  unfold step. repeat preserve_step.
  all: repeat split; simpl; auto; lia.
Qed.

Lemma run_advances E evs s : advances s (run E evs s).
Proof.
  revert s. induction evs as [|ev evs IH]; intros s; simpl; [auto|].
  eapply advances_trans; [apply step_advances|apply IH].
Qed.

(** ** The extension test (lines 180-187) *)

(** C7, as stated, fails: [icon.svg.png] does not end in [.svg], yet the
    unanchored test lets it through; nothing is reported, the element enters
    [injectedElements], its [src] is cleared and a request is sent. *)
Lemma unanchored_test_admits_svg_png :
  let s := initial [Sample.body [Sample.img 1 "icon.svg.png"]] 2 in
  let s' := snd (SVGInjector Sample.env 1 None (Some 0%nat) s) in
  ends_with ".svg" "icon.svg.png" = false /\
  reported s' = [] /\
  injectedElements s' = [Some 1%nat] /\
  fetched s' = ["icon.svg.png"] /\
  fst (getAttribute 1 "src" s) = Ok None /\
  fst (getAttribute 1 "src" s') = Ok (Some "").
Proof. vm_compute. repeat split; reflexivity. Qed.

(** C7, amended: a placeholder whose locator contains no [.svg] in any
    letter case gets the failure string, once, and nothing else changes: the
    page, the cache, the queues and the tracker are those of before. *)
Theorem locator_without_svg_is_rejected E s el evalScripts callback e :
  find_entry el (page_entries (page s)) = Some e ->
  test_svg (to_string (e_attrs e !! "data-src")) = false ->
  SVGInjector E el evalScripts callback s =
    (Ok tt,
     set_reported
       (reported s ++
        [(callback,
          [VString ("Attempted to inject a file with a non-svg extension: "
                    +:+ to_string (e_attrs e !! "data-src"))])]) s).
Proof.
  intros He Htest.
  unfold SVGInjector, getAttribute, bind, gets. rewrite He. simpl.
  rewrite Htest. reflexivity.
Qed.

Lemma locator_without_svg_is_rejected_witness :
  let s := initial [Sample.body [Sample.img 1 "icon.png"]] 2 in
  SVGInjector Sample.env 1 None (Some 0%nat) s =
    (Ok tt,
     set_reported
       [(Some 0%nat,
         [VString "Attempted to inject a file with a non-svg extension: icon.png"])] s).
Proof.
  exact (locator_without_svg_is_rejected Sample.env
           (initial [Sample.body [Sample.img 1 "icon.png"]] 2) 1 None (Some 0%nat)
           (mkEntry [(0%nat, "body")] 1 "img" {[ "data-src" := "icon.png" ]}
              (Sample.img 1 "icon.png"))
           eq_refl eq_refl).
Defined.

(** ** Delivery from the cache (lines 48-58) *)

(** C4: for a key that is already cached, [loadSvg] is a direct call of the
    callback on a new clone: the delivery is made before [loadSvg] returns
    and no deferred task is created. *)
Theorem ready_key_is_delivered_synchronously E s url root k :
  svgCache s !! url = Some (Cached root) ->
  isSVGSVGElement root = true ->
  let clone := copy_at (nextRef s) root in
  loadSvg E url k s
    = invoke E k (LNode clone) (set_nextRef (nextRef s + size root)%nat s)
  /\ delivered (snd (loadSvg E url k s)) = delivered s ++ [(k, LNode clone)]
  /\ timers (snd (loadSvg E url k s)) = timers s.
Proof.
  intros Hc Hsvg clone.
  assert (loadSvg E url k s
          = invoke E k (LNode clone) (set_nextRef (nextRef s + size root)%nat s)) as Heq.
  { unfold loadSvg, bind, gets, cloneSvg. rewrite Hc, Hsvg. reflexivity. }
  split; [exact Heq|]. rewrite Heq. unfold invoke, bind, modify.
  match goal with |- context [continuation E k ?a ?s0] =>
    destruct (continuation_cache_frame E k a s0) as (_&_&Ht&_&_&Hd&_) end.
  match goal with |- context [continuation E k ?a ?s0] =>
    destruct (continuation E k a s0) as [[[]|?] s'] end; simpl in *; auto.
Qed.

Lemma ready_key_is_delivered_synchronously_witness :
  let s := Scenario.ready in
  let k := mkContinuation 2 "always" (Some 8%nat) "a.svg" in
  exists root,
    svgCache s !! "a.svg" = Some (Cached root) /\
    timers s = [] /\
    timers (snd (loadSvg Sample.env "a.svg" k s)) = [] /\
    delivered (snd (loadSvg Sample.env "a.svg" k s))
      = delivered s ++ [(k, LNode (copy_at (nextRef s) root))].
Proof.
  eexists. split; [vm_compute; reflexivity|]. split; [reflexivity|].
  pose proof (ready_key_is_delivered_synchronously Sample.env Scenario.ready "a.svg" _
                (mkContinuation 2 "always" (Some 8%nat) "a.svg")
                ltac:(vm_compute; reflexivity) ltac:(vm_compute; reflexivity))
    as (_ & Hd & Ht).
  split; [exact Ht | exact Hd].
Defined.

(** ** A failed request (lines 72-131) *)

(** C3: two consumers wait for [a.svg] and the request ends with 404.  The
    handler calls the callback of the call that started the request, with
    the message and then with nothing; the second consumer is still in the
    queue, no task and no request is left that could ever call it, and the
    caller's second callback has not been called. *)
Theorem failed_fetch_reaches_only_the_first_consumer :
  let k1 := mkContinuation 1 "always" (Some 7%nat) "a.svg" in
  let k2 := mkContinuation 2 "always" (Some 8%nat) "a.svg" in
  let s := Scenario.failed in
  requestQueue s !! "a.svg" = Some [k1; k2] /\
  delivered s = [(k1, LString "Unable to load SVG file: a.svg"); (k1, LNone)] /\
  reported s = [(Some 7%nat, [VString "Unable to load SVG file: a.svg"]);
                (Some 7%nat, [VUndefined])] /\
  timers s = [] /\ xhrs s = [] /\
  svgCache s !! "a.svg" = Some Loading.
Proof. vm_compute. repeat split; reflexivity. Qed.

(** ** The tracker (lines 203-224 and 311-317) *)

(** C6: after the failure above both placeholders are still in
    [injectedElements], and a new attempt on the first one returns at the
    membership test without any effect. *)
Theorem failed_attempt_stays_in_injectedElements :
  let s := Scenario.failed in
  injectedElements s = [Some 1%nat; Some 2%nat] /\
  SVGInjector Sample.env 1 None (Some 7%nat) s = (Ok tt, s).
Proof. vm_compute. split; reflexivity. Qed.

(** ** Script pruning on a nested script (lines 262-282) *)

(** C8: the document [<svg><g><script>go()</script></g></svg>].  The script
    is found, but it is not a child of the root, so [removeChild] raises
    [NotFoundError]: the task ends there, the placeholder is still in the
    page, nothing has been run or reported and the element stays in
    [injectedElements]. *)
Theorem nested_script_aborts_the_injection :
  let s := Scenario.arrived Sample.nested_script in
  let r := step Sample.env TimerFires s in
  map e_ref (querySelectorAll (SelTag "script") Sample.nested_script) <> [] /\
  fst r = Throw NotFoundError /\
  page (snd r) = page s /\
  evaluated (snd r) = [] /\
  reported (snd r) = [] /\
  injectedElements (snd r) = [Some 1%nat].
Proof. vm_compute. repeat split; try reflexivity. discriminate. Qed.

(** ** Replacing a detached placeholder (lines 311-312) *)

(** C9: the placeholder was taken out of its parent while the request was
    in flight.  When the delivery runs, [el.parentNode] is [null] and the
    call on it raises [TypeError]; the counter is not incremented, the
    element stays in [injectedElements] and the callback is not called. *)
Theorem detached_placeholder_raises_TypeError :
  let s := Scenario.detached in
  let r := step Sample.env TimerFires s in
  fst r = Throw TypeError /\
  page (snd r) = page s /\
  injectCount (snd r) = 0%N /\
  injectedElements (snd r) = [Some 1%nat] /\
  reported (snd r) = [].
Proof. vm_compute. repeat split; reflexivity. Qed.

(** ** A payload that raises (lines 284-299) *)

Lemma for_each_cons {A} (a : A) l (body : A -> M unit) s :
  for_each (a :: l) body s =
    match body a s with
    | (Ok _, s') => for_each l body s'
    | (Throw e, s') => (Throw e, s')
    end.
Proof. reflexivity. Qed.

Lemma run_script_eq E q s :
  run_script E q s =
    (if script_raises E q then Throw (ScriptError q) else Ok tt,
     set_evaluated (evaluated s ++ [q]) s).
Proof. unfold run_script, bind, modify. by destruct (script_raises E q). Qed.

Lemma run_scripts_quiet E (pre : list string) s :
  Forall (fun q => script_raises E q = false) pre ->
  for_each pre (run_script E) s = (Ok tt, set_evaluated (evaluated s ++ pre) s).
Proof.
  intros Hpre. revert s. induction Hpre as [|q pre Hq _ IH]; intros s.
  - simpl. rewrite app_nil_r. by destruct s.
  - rewrite for_each_cons, run_script_eq, Hq, IH. simpl.
    by rewrite <- app_assoc.
Qed.

Lemma run_scripts_raise E (pre post : list string) p s :
  Forall (fun q => script_raises E q = false) pre ->
  script_raises E p = true ->
  for_each (pre ++ p :: post) (run_script E) s
    = (Throw (ScriptError p), set_evaluated (evaluated s ++ pre ++ [p]) s).
Proof.
  intros Hpre Hp. revert s. induction Hpre as [|q pre Hq _ IH]; intros s.
  - simpl app. by rewrite for_each_cons, run_script_eq, Hp.
  - simpl app. rewrite for_each_cons, run_script_eq, Hq, IH. simpl.
    by rewrite <- app_assoc.
Qed.

(** The continuation on an element, in three phases. *)
Lemma continuation_element E k root tag attrs ch s :
  let svg := Element root tag attrs ch in
  continuation E k (LNode svg) s =
    match collected E (injectCount s) svg with
    | Ok (scriptsToEval, svg') =>
        (evalScriptsIfNeeded E k scriptsToEval ;; finish k root svg') s
    | Throw e => (Throw e, s)
    end.
Proof.
  intros svg. subst svg. unfold continuation, collected.
  unfold bind at 1. unfold gets at 1. unfold bind at 1. simpl node_ref.
  destruct (makeIdsUnique E (injectCount s) _) as [svg1|e]; simpl; [|done].
  unfold bind at 1.
  destruct (prune_scripts _) as [[scripts svg2]|e]; simpl; done.
Qed.

(** C5, as stated, fails: with the payloads [throw 1] and [go()], the first
    one raises and the exception leaves the continuation; [go()] is never
    run, the placeholder is not replaced and the callback is not called. *)
Lemma raising_payload_aborts_the_injection :
  let s := Scenario.arrived (Sample.with_scripts ["throw 1"; "go()"]) in
  let r := step Sample.env TimerFires s in
  fst r = Throw (ScriptError "throw 1") /\
  evaluated (snd r) = ["throw 1"] /\
  page (snd r) = page s /\
  reported (snd r) = [].
Proof. vm_compute. repeat split; reflexivity. Qed.

(** C5, amended: when a payload raises, the exception is not caught.  It
    ends the continuation at that payload: the payloads after it are not
    run, and the state is the one before the call except for the record of
    the payloads run so far; so the tree is not replaced, the element stays
    in [injectedElements], the counter and [ranScripts] are unchanged and
    the callback is not called. *)
Theorem payload_exception_propagates E k s root tag attrs ch pre p post svg' :
  let svg := Element root tag attrs ch in
  collected E (injectCount s) svg = Ok (pre ++ p :: post, svg') ->
  k_evalScripts k = "always"
    \/ (k_evalScripts k = "once" /\ ranScripts s !! k_imgUrl k <> Some true) ->
  Forall (fun q => script_raises E q = false) pre ->
  script_raises E p = true ->
  continuation E k (LNode svg) s
    = (Throw (ScriptError p), set_evaluated (evaluated s ++ pre ++ [p]) s).
Proof.
  intros svg Hc Hpol Hpre Hp. subst svg. unfold collected in Hc.
  simpl node_ref in Hc.
  destruct (makeIdsUnique E (injectCount s) (stretch _)) as [svg1|] eqn:H1; [|done].
  rewrite continuation_element. unfold collected. simpl node_ref.
  rewrite H1, Hc. unfold bind, evalScriptsIfNeeded, bind, gets.
  assert ((bool_decide (pre ++ p :: post <> [])
           && (bool_decide (k_evalScripts k = "always")
               || bool_decide (k_evalScripts k = "once")
                  && negb (bool_decide (ranScripts s !! k_imgUrl k = Some true))))
          = true) as ->.
  { rewrite bool_decide_true by (by destruct pre). simpl.
    destruct Hpol as [->|[-> Hran]]; [done|].
    rewrite (bool_decide_false _ Hran). done. }
  rewrite (run_scripts_raise E pre post p s Hpre Hp). reflexivity.
Qed.

Lemma payload_exception_propagates_witness :
  let s := Scenario.arrived Scenario.three_scripts in
  let k := mkContinuation 1 "always" (Some 7%nat) "a.svg" in
  continuation Sample.env k
    (LNode (Element 5 "svg" ∅ Scenario.three_scripts_clone)) s
  = (Throw (ScriptError "throw 1"),
     set_evaluated (evaluated s ++ ["go()"] ++ ["throw 1"]) s).
Proof.
  apply (payload_exception_propagates Sample.env
           (mkContinuation 1 "always" (Some 7%nat) "a.svg")
           (Scenario.arrived Scenario.three_scripts)
           5%nat "svg" ∅ Scenario.three_scripts_clone
           ["go()"] "throw 1" ["stop()"] (Element 5 "svg" Scenario.stretched [])).
  - vm_compute. reflexivity.
  - left. reflexivity.
  - repeat constructor.
  - reflexivity.
Defined.

(** ** The record of script runs (lines 284-299) *)

Lemma scripts_frame_refl s : scripts_frame s s.
Proof. by split. Qed.

Lemma scripts_frame_trans s1 s2 s3 :
  scripts_frame s1 s2 -> scripts_frame s2 s3 -> scripts_frame s1 s3.
Proof. intros [??] [??]. split; congruence. Qed.

#[local] Hint Resolve scripts_frame_refl scripts_frame_trans : core.

Lemma styleRefresh_scripts_frame svg : preserves scripts_frame (styleRefresh svg).
Proof. intros s. split; by apply styleRefresh_same. Qed.

#[local] Hint Resolve styleRefresh_scripts_frame : core.

Lemma finish_scripts_frame k root svg : preserves scripts_frame (finish k root svg).
Proof.
  unfold finish, replaceChild, call. repeat preserve_step.
  all: by split.
Qed.

Lemma run_scripts_result E (l : list string) s :
  fst (for_each l (run_script E) s) = Ok tt
  \/ exists p, fst (for_each l (run_script E) s) = Throw (ScriptError p).
Proof.
  revert s. induction l as [|q l IH]; intros s; [by left|].
  rewrite for_each_cons, run_script_eq.
  destruct (script_raises E q); [right; by eexists|]. apply IH.
Qed.

Lemma run_scripts_ranScripts E (l : list string) s :
  ranScripts (snd (for_each l (run_script E) s)) = ranScripts s.
Proof.
  revert s. induction l as [|q l IH]; intros s; [done|].
  rewrite for_each_cons, run_script_eq.
  destruct (script_raises E q); [done|]. by rewrite IH.
Qed.

(** The script phase either runs nothing, or ends on a payload's exception,
    or completes and records the key. *)
Lemma evalScriptsIfNeeded_cases E k scripts s :
  let r := evalScriptsIfNeeded E k scripts s in
  (r = (Ok tt, s))
  \/ (exists p, fst r = Throw (ScriptError p))
  \/ (fst r = Ok tt /\ ranScripts (snd r) !! k_imgUrl k = Some true).
Proof.
  unfold evalScriptsIfNeeded, bind, gets.
  destruct (_ && _); [|by left]. right.
  pose proof (run_scripts_result E scripts s) as Hr.
  destruct (for_each scripts (run_script E) s) as [[[]|e] s1]; simpl in *.
  - right. split; [done|]. apply lookup_insert_eq.
  - left. destruct Hr as [?|[p ?]]; [done|]. by exists p.
Qed.

Lemma evalScriptsIfNeeded_once_ran E k scripts s :
  k_evalScripts k = "once" ->
  ranScripts s !! k_imgUrl k = Some true ->
  evalScriptsIfNeeded E k scripts s = (Ok tt, s).
Proof.
  intros Hk Hran. unfold evalScriptsIfNeeded, bind, gets.
  rewrite Hk, Hran. rewrite (bool_decide_true (Some true = Some true)) by done.
  simpl. by rewrite andb_false_r.
Qed.

(** C10, as stated, fails: the resource has the payloads [go()],
    [throw 1] and [stop()].  The first placeholder is injected under
    [always]: the task that delivers the clone runs [go()], then [throw 1],
    which raises, so the loop is left before line 298 and the key is not
    recorded in [ranScripts].  The second placeholder is then injected
    under [once], the first injection under that policy: the key is cached,
    the continuation runs at once and executes the payloads again. *)
Lemma raising_always_run_is_not_recorded :
  let s := run Sample.env [Inject 1 (Some "always") (Some 7%nat);
                           XhrDone "a.svg" (Sample.ok Scenario.three_scripts)]
             Scenario.two_placeholders in
  let r := step Sample.env TimerFires s in
  let r2 := step Sample.env (Inject 2 (Some "once") (Some 8%nat)) (snd r) in
  timers s = [("a.svg", 0%nat)] /\
  requestQueue s !! "a.svg"
    = Some [mkContinuation 1 "always" (Some 7%nat) "a.svg"] /\
  evaluated s = [] /\
  fst r = Throw (ScriptError "throw 1") /\
  evaluated (snd r) = ["go()"; "throw 1"] /\
  ranScripts (snd r) !! "a.svg" = None /\
  evaluated (snd r2) = ["go()"; "throw 1"; "go()"; "throw 1"] /\
  (* the same, at the continuation *)
  let k := mkContinuation 1 "always" (Some 7%nat) "a.svg" in
  let k2 := mkContinuation 2 "once" (Some 8%nat) "a.svg" in
  let c := continuation Sample.env k (LNode (copy_at 10 Scenario.three_scripts))
             (set_timers [] s) in
  k_evalScripts k = "always" /\
  evaluated (snd c) <> evaluated (set_timers [] s) /\
  ranScripts (snd c) !! k_imgUrl k = None /\
  evaluated (snd (continuation Sample.env k2
                    (LNode (copy_at 17 Scenario.three_scripts)) (snd c)))
    <> evaluated (snd c).
Proof. vm_compute. by repeat split. Qed.

(** C10, amended: an injection under [always] that runs at least one
    payload, none of which raises, records its key in [ranScripts]
    (whatever happens to the rest of the injection); the record survives
    every later event, so a later continuation for the same key under
    [once] runs no payload. *)
Theorem always_run_blocks_later_once E k svg s :
  let r := continuation E k (LNode svg) s in
  k_evalScripts k = "always" ->
  evaluated (snd r) <> evaluated s ->
  (forall p, fst r <> Throw (ScriptError p)) ->
  ranScripts (snd r) !! k_imgUrl k = Some true /\
  forall evs k2 svg2,
    k_imgUrl k2 = k_imgUrl k ->
    k_evalScripts k2 = "once" ->
    let s2 := run E evs (snd r) in
    evaluated (snd (continuation E k2 (LNode svg2) s2)) = evaluated s2.
Proof.
  intros r Hk Hev Hno.
  assert (ranScripts (snd r) !! k_imgUrl k = Some true) as Hrec.
  { subst r. destruct svg as [root tag attrs ch|r0 d]; [|done].
    rewrite continuation_element in *.
    destruct (collected E (injectCount s) _) as [[scripts svg']|e]; [|done].
    unfold bind in *.
    destruct (evalScriptsIfNeeded_cases E k scripts s) as [Hs|[[p Hp]|[Hok Hran]]].
    - rewrite Hs in *. destruct (finish_scripts_frame k root svg' s) as [He _].
      by rewrite He in Hev.
    - destruct (evalScriptsIfNeeded E k scripts s) as [[[]|e] s1]; simpl in *;
        [done|]. injection Hp as ->. by destruct (Hno p).
    - destruct (evalScriptsIfNeeded E k scripts s) as [[[]|e] s1]; simpl in *;
        [|done].
      destruct (finish_scripts_frame k root svg' s1) as [_ Hr]. by rewrite Hr. }
  split; [exact Hrec|].
  intros evs k2 svg2 Hurl Honce s2.
  assert (ranScripts s2 !! k_imgUrl k2 = Some true) as Hran.
  { rewrite Hurl. by apply (run_advances E evs (snd r)). }
  destruct svg2 as [root tag attrs ch|r0 d]; [|done].
  rewrite continuation_element.
  destruct (collected E (injectCount s2) _) as [[scripts svg']|e]; [|done].
  unfold bind. rewrite (evalScriptsIfNeeded_once_ran E k2 scripts s2 Honce Hran).
  apply finish_scripts_frame.
Qed.

Lemma always_run_blocks_later_once_witness :
  let s := Scenario.arrived Scenario.one_script in
  let k := mkContinuation 1 "always" (Some 7%nat) "a.svg" in
  let k2 := mkContinuation 2 "once" (Some 8%nat) "a.svg" in
  let r := continuation Sample.env k (LNode (Scenario.one_script_clone 5)) s in
  evaluated (snd r) <> evaluated s /\
  ranScripts (snd r) !! "a.svg" = Some true /\
  evaluated (snd (continuation Sample.env k2 (LNode (Scenario.one_script_clone 8))
                    (run Sample.env [] (snd r))))
    = evaluated (run Sample.env [] (snd r)).
Proof.
  intros s k k2 r.
  assert (evaluated (snd r) <> evaluated s) as Hev by (vm_compute; discriminate).
  assert (forall p, fst r <> Throw (ScriptError p)) as Hno
    by (intros p; vm_compute; discriminate).
  destruct (always_run_blocks_later_once Sample.env k (Scenario.one_script_clone 5) s
              eq_refl Hev Hno) as [Hrec Hlater].
  split; [exact Hev|]. split; [exact Hrec|].
  exact (Hlater [] k2 (Scenario.one_script_clone 8) eq_refl eq_refl).
Defined.

(** ** Trees *)

Lemma node_ind_nested (P : node -> Prop) :
  (forall r tag attrs ch, Forall P ch -> P (Element r tag attrs ch)) ->
  (forall r d, P (Text r d)) ->
  forall n, P n.
Proof.
  intros He Ht. fix IH 1. intros [r tag attrs ch|r d]; [|apply Ht].
  apply He. induction ch as [|c ch IHch]; constructor; [apply IH|exact IHch].
Qed.

Lemma size_copy_at base n : size (copy_at base n) = size n.
Proof.
  revert base. induction n as [r tag attrs ch IH|r d] using node_ind_nested;
    intros base; simpl; [|done].
  f_equal. generalize (S base). induction IH as [|c ch Hc _ IHch]; intros b; simpl.
  - done.
  - by rewrite Hc, IHch.
Qed.

Lemma refs_copy_at base n : refs (copy_at base n) = seq base (size n).
Proof.
  revert base. induction n as [r tag attrs ch IH|r d] using node_ind_nested;
    intros base; simpl; [|done].
  f_equal. generalize (S base). induction IH as [|c ch Hc _ IHch]; intros b; simpl.
  - done.
  - by rewrite Hc, IHch, seq_app.
Qed.



(** ** Coalescing (lines 30-141) *)

Lemma loadSvg_absent E url k s :
  hasXMLHttpRequest E = true ->
  svgCache s !! url = None ->
  loadSvg E url k s =
    (Ok tt,
     set_fetched (fetched s ++ [url])
       (set_xhrs (xhrs s ++ [(url, k)])
          (set_requestQueue
             (<[url := default [] (requestQueue s !! url) ++ [k]]> (requestQueue s))
             (set_svgCache (<[url := Loading]> (svgCache s)) s)))).
Proof.
  intros HE Hc. unfold loadSvg, bind, gets. rewrite Hc, HE. reflexivity.
Qed.

Lemma loadSvg_loading E url k s :
  svgCache s !! url = Some Loading ->
  loadSvg E url k s =
    (Ok tt,
     set_requestQueue
       (<[url := default [] (requestQueue s !! url) ++ [k]]> (requestQueue s)) s).
Proof. intros Hc. unfold loadSvg, bind, gets. rewrite Hc. reflexivity. Qed.


Lemma take_xhr_last url k l :
  take_xhr url l = None -> take_xhr url (l ++ [(url, k)]) = Some (k, l).
Proof.
  induction l as [|[u k'] l IH]; simpl.
  - intros _. by rewrite decide_True.
  - destruct (decide (u = url)); [done|].
    destruct (take_xhr url l) as [[??]|]; [done|]. intros _. by rewrite IH.
Qed.

Lemma schedule_all url l s :
  for_each l (fun index => setTimeout (url, index)) s =
    (Ok tt, set_timers (timers s ++ map (pair url) l) s).
Proof.
  revert s. induction l as [|i l IH]; intros s.
  - simpl. rewrite app_nil_r. by destruct s.
  - rewrite for_each_cons. unfold setTimeout at 1, modify. rewrite IH. simpl.
    by rewrite <- app_assoc.
Qed.

Lemma processRequestQueue_eq url q s :
  requestQueue s !! url = Some q ->
  processRequestQueue url s =
    (Ok tt, set_timers (timers s ++ map (pair url) (seq 0 (length q))) s).
Proof.
  intros Hq. unfold processRequestQueue, bind, gets. rewrite Hq.
  apply schedule_all.
Qed.

Lemma cache_document_eq url doc s :
  cache_document url doc s =
    (Ok tt,
     set_svgCache (<[url := Cached (copy_at (nextRef s) doc)]> (svgCache s))
       (set_nextRef (nextRef s + size doc)%nat s)).
Proof. reflexivity. Qed.

(** A response that resolves is cached and the queue is processed. *)
Lemma onreadystatechange_resolves E url k resp doc s :
  resolves E resp = Some doc ->
  onreadystatechange E url k resp s
    = (cache_document url doc ;; processRequestQueue url) s.
Proof.
  unfold resolves, onreadystatechange. intros Hres.
  destruct ((status resp =? 200)%N || isLocal E && (status resp =? 0)%N) eqn:Hst;
    [|done]. simpl in Hres.
  assert ((status resp =? 404)%N = false) as ->.
  { apply N.eqb_neq. intros H404. rewrite H404 in Hst. simpl in Hst.
    by rewrite andb_false_r in Hst. }
  destruct (xml resp) as [|d|]; [done| |].
  - injection Hres as ->. simpl. unfold bind. by rewrite cache_document_eq.
  - simpl. destruct (domParser E) as [parse|]; [|done].
    destruct (parse (responseText resp)) as [xmlDoc|]; [|done].
    destruct (has_parsererror xmlDoc); [done|]. injection Hres as ->.
    unfold bind. by rewrite cache_document_eq.
Qed.

(** A deferred task calls the callback at its index, once, on a new clone
    of the cached node, and leaves the cache and the queue as they were. *)
Lemma fire_timer_delivers E url index c q k s :
  svgCache s !! url = Some (Cached c) ->
  requestQueue s !! url = Some q ->
  q !! index = Some k ->
  let s' := snd (fire_timer E (url, index) s) in
  delivered s' = delivered s ++ [(k, LNode (copy_at (nextRef s) c))] /\
  svgCache s' = svgCache s /\ requestQueue s' = requestQueue s /\
  timers s' = timers s /\ xhrs s' = xhrs s /\ fetched s' = fetched s /\
  (nextRef s + size c <= nextRef s')%nat.
Proof.
  intros Hc Hq Hk. unfold fire_timer, bind, gets, cloneSvg. rewrite Hq, Hc, Hk.
  unfold invoke, bind, modify.
  match goal with |- context [continuation E k ?a ?s0] =>
    destruct (continuation_cache_frame E k a s0) as (H1&H2&H3&H4&H5&H6&H7);
    destruct (continuation E k a s0) as [[[]|?] s'] end; simpl in *; done.
Qed.


Lemma task_frame_refl s : task_frame s s.
Proof. repeat split; lia. Qed.

Lemma task_frame_trans s1 s2 s3 :
  task_frame s1 s2 -> task_frame s2 s3 -> task_frame s1 s3.
Proof. intros (?&?&?&?&?) (?&?&?&?&?). repeat split; try congruence; lia. Qed.

#[local] Hint Resolve task_frame_refl task_frame_trans : core.

Lemma continuation_task_frame E k arg : preserves task_frame (continuation E k arg).
Proof.
  intros s. destruct (continuation_cache_frame E k arg s) as (?&?&?&?&?&?&?).
  by repeat split.
Qed.

#[local] Hint Resolve continuation_task_frame : core.


Lemma step_timer E task rest s :
  timers s = task :: rest ->
  step E TimerFires s = fire_timer E task (set_timers rest s).
Proof. intros Ht. unfold step, bind, gets, modify. by rewrite Ht. Qed.




Lemma step_xhr E url resp k rest s :
  take_xhr url (xhrs s) = Some (k, rest) ->
  step E (XhrDone url resp) s = onreadystatechange E url k resp (set_xhrs rest s).
Proof. intros Hx. unfold step, bind, gets, modify. by rewrite Hx. Qed.

(** ** Reachable states *)

Lemma cache_grows_refl s : cache_grows s s.
Proof. intros u Hu. by repeat split. Qed.

Lemma cache_grows_trans s1 s2 s3 :
  cache_grows s1 s2 -> cache_grows s2 s3 -> cache_grows s1 s3.
Proof.
  intros H12 H23 u Hu. destruct (H23 u Hu) as (H2&Hq2&Hx2).
  destruct (H12 u H2) as (H1&Hq1&Hx1). repeat split; [done|congruence|auto].
Qed.

#[local] Hint Resolve cache_grows_refl cache_grows_trans : core.

Lemma cache_frame_grows s s' : cache_frame s s' -> cache_grows s s'.
Proof.
  intros (Hc&Hq&_&Hx&_) u Hu. rewrite Hc in Hu. rewrite Hq, Hx. by repeat split.
Qed.

Lemma continuation_cache_grows E k arg : preserves cache_grows (continuation E k arg).
Proof. intros s. apply cache_frame_grows, continuation_cache_frame. Qed.

#[local] Hint Resolve continuation_cache_grows : core.

Lemma invoke_cache_grows E k arg : preserves cache_grows (invoke E k arg).
Proof. unfold invoke. repeat preserve_step. intros u Hu. by repeat split. Qed.

Lemma cloneSvg_cache_grows src : preserves cache_grows (cloneSvg src).
Proof. intros s u Hu. by repeat split. Qed.

#[local] Hint Resolve invoke_cache_grows cloneSvg_cache_grows : core.

Lemma fire_timer_cache_grows E task : preserves cache_grows (fire_timer E task).
Proof. unfold fire_timer. destruct task. repeat preserve_step. Qed.

Lemma onreadystatechange_cache_grows E url k resp :
  preserves cache_grows (onreadystatechange E url k resp).
Proof.
  unfold onreadystatechange, cache_document, processRequestQueue, setTimeout.
  repeat preserve_step.
  all: intros u Hu; simpl in *; try by repeat split.
  all: apply lookup_insert_None in Hu as [Hu _]; by repeat split.
Qed.

Lemma take_xhr_other u url k l :
  u <> url -> take_xhr u l = None -> take_xhr u (l ++ [(url, k)]) = None.
Proof.
  intros Hne. induction l as [|[u' k'] l IH]; simpl.
  - intros _. by rewrite decide_False.
  - destruct (decide (u' = u)); [done|].
    destruct (take_xhr u l) as [[??]|]; [done|]. intros _. by rewrite IH.
Qed.

Lemma take_xhr_rest u url k rest l :
  take_xhr url l = Some (k, rest) -> take_xhr u l = None -> take_xhr u rest = None.
Proof.
  revert rest. induction l as [|[u' k'] l IH]; intros rest; simpl; [done|].
  destruct (decide (u' = url)) as [->|Hne].
  - intros [= <- <-]. destruct (decide (url = u)); [done|].
    by destruct (take_xhr u l) as [[??]|].
  - destruct (take_xhr url l) as [[k1 rest1]|] eqn:Hl; [|done]. intros [= <- <-].
    simpl. destruct (decide (u' = u)); [done|].
    destruct (take_xhr u l) as [[??]|] eqn:Hu; [done|]. intros _.
    by rewrite (IH rest1).
Qed.

Lemma loadSvg_cache_grows E url k : preserves cache_grows (loadSvg E url k).
Proof.
  intros s. unfold loadSvg, bind, gets.
  destruct (svgCache s !! url) as [[|root]|] eqn:Hc.
  - intros u Hu. simpl in *. destruct (decide (u = url)) as [->|Hne]; [congruence|].
    by rewrite lookup_insert_ne.
  - destruct (isSVGSVGElement root).
    + destruct (cloneSvg root s) as [[clone|e] s1] eqn:H1; [|done].
      injection H1 as _ <-. eapply cache_grows_trans; [|apply invoke_cache_grows].
      intros u Hu. by repeat split.
    + intros u Hu. simpl in *. destruct (decide (u = url)) as [->|Hne]; [congruence|].
      by rewrite lookup_insert_ne.
  - destruct (hasXMLHttpRequest E); cbn [negb]; [|apply invoke_cache_grows].
    intros u Hu. simpl in *. apply lookup_insert_None in Hu as [Hu Hne].
    rewrite lookup_insert_ne by done. repeat split; [done|].
    by apply take_xhr_other.
Qed.

#[local] Hint Resolve fire_timer_cache_grows onreadystatechange_cache_grows
  loadSvg_cache_grows : core.

Lemma SVGInjector_cache_grows E el evalScripts callback :
  preserves cache_grows (SVGInjector E el evalScripts callback).
Proof.
  unfold SVGInjector, getAttribute, set_page_attribute, call.
  repeat preserve_step.
  all: intros u Hu; by repeat split.
Qed.

#[local] Hint Resolve SVGInjector_cache_grows : core.

Lemma step_cache_grows E ev : preserves cache_grows (step E ev).
Proof.
  intros s. destruct ev as [el evalScripts callback|url resp|]; simpl.
  - apply SVGInjector_cache_grows.
  - unfold bind, gets. destruct (take_xhr url (xhrs s)) as [[k rest]|] eqn:Hx;
      [|apply cache_grows_refl].
    unfold modify. eapply cache_grows_trans; [|apply onreadystatechange_cache_grows].
    intros u Hu. simpl in *. repeat split; [done|].
    by apply (take_xhr_rest u url k rest).
  - unfold bind, gets. destruct (timers s) as [|task rest]; [apply cache_grows_refl|].
    unfold modify. eapply cache_grows_trans; [|apply fire_timer_cache_grows].
    intros u Hu. by repeat split.
Qed.

Lemma reachable_idle E s : reachable E s -> absent_keys_idle s.
Proof.
  intros (p&next&evs&->).
  assert (absent_keys_idle (initial p next)) as H0 by (intros u _; by split).
  revert H0. generalize (initial p next). induction evs as [|ev evs IH]; intros s H0;
    [done|].
  simpl. apply IH. intros u Hu.
  destruct (step_cache_grows E ev s u Hu) as (H1&Hq&Hx).
  destruct (H0 u H1) as [Hq0 Hx0]. split; [congruence|auto].
Qed.


(** ** The suffix (line 239) *)

Lemma pretty_N_char_digit x : is_digit (pretty_N_char x) = true.
Proof. unfold pretty_N_char. by repeat case_match. Qed.

Lemma pretty_N_go_digits x s :
  string_forallb is_digit s = true ->
  string_forallb is_digit (pretty_N_go x s) = true.
Proof.
  revert s. induction (N.lt_wf_0 x) as [x _ IH]; intros s Hs.
  destruct (decide (x = 0%N)) as [->|Hx]; [by rewrite pretty_N_go_0|].
  rewrite pretty_N_go_step by lia. apply IH.
  - apply N.div_lt; lia.
  - simpl. by rewrite pretty_N_char_digit.
Qed.

Lemma number_to_string_digits k : string_forallb is_digit (number_to_string k) = true.
Proof.
  unfold number_to_string, pretty, pretty_N. case_decide; [done|].
  by apply pretty_N_go_digits.
Qed.

Lemma append_cons x a s : String x a +:+ s = String x (a +:+ s).
Proof. reflexivity. Qed.

Lemma digits_no_dash a d :
  string_forallb is_digit (a +:+ "-" +:+ d) = false.
Proof.
  induction a as [|x a IH]; [done|].
  rewrite append_cons. cbn [string_forallb]. rewrite IH. apply andb_false_r.
Qed.

(** The text after the last dash determines the counter. *)
Lemma dash_suffix_eq a b d1 d2 :
  string_forallb is_digit d1 = true ->
  string_forallb is_digit d2 = true ->
  a +:+ "-" +:+ d1 = b +:+ "-" +:+ d2 -> d1 = d2.
Proof.
  intros H1 H2. revert b. induction a as [|x a IH]; intros [|y b] Heq.
  - change (String "-" d1 = String "-" d2) in Heq. by injection Heq.
  - change (String "-" d1 = String y (b +:+ "-" +:+ d2)) in Heq.
    injection Heq as _ Heq. rewrite Heq in H1. by rewrite digits_no_dash in H1.
  - change (String x (a +:+ "-" +:+ d1) = String "-" d2) in Heq.
    injection Heq as _ Heq. rewrite <- Heq in H2. by rewrite digits_no_dash in H2.
  - change (String x (a +:+ "-" +:+ d1) = String y (b +:+ "-" +:+ d2)) in Heq.
    injection Heq as _ Heq. by apply (IH b).
Qed.

Lemma suffixed_ids_differ a b (k1 k2 : N) :
  k1 <> k2 ->
  a +:+ "-" +:+ number_to_string k1 <> b +:+ "-" +:+ number_to_string k2.
Proof.
  intros Hne Heq. apply Hne.
  apply dash_suffix_eq in Heq; try apply number_to_string_digits.
  by apply (inj pretty).
Qed.

(** ** Elements of a tree whose attributes are rewritten *)

Lemma entries_map_attrs f n : forall anc,
  entries anc (map_attrs f n) = map (upd f) (entries anc n).
Proof.
  induction n as [r tag attrs ch IH|r d] using node_ind_nested; intros anc;
    simpl; [|done].
  f_equal. generalize ((r, tag) :: anc). intros anc'.
  induction IH as [|c ch Hc _ IHch]; simpl; [done|].
  by rewrite map_app, Hc, IHch.
Qed.

Lemma tail_entries_map_attrs f n :
  tail (entries [] (map_attrs f n)) = map (upd f) (tail (entries [] n)).
Proof. rewrite entries_map_attrs. by destruct (entries [] n). Qed.

Lemma map_attrs_ext f g n :
  (forall r a, f r a = g r a) -> map_attrs f n = map_attrs g n.
Proof.
  intros Hfg. induction n as [r tag attrs ch IH|r d] using node_ind_nested;
    simpl; [|done].
  rewrite Hfg. f_equal. induction IH as [|c ch Hc _ IHch]; simpl; [done|].
  by rewrite Hc, IHch.
Qed.

Lemma map_attrs_compose f g n :
  map_attrs f (map_attrs g n) = map_attrs (fun r a => f r (g r a)) n.
Proof.
  induction n as [r tag attrs ch IH|r d] using node_ind_nested; simpl; [|done].
  f_equal. induction IH as [|c ch Hc _ IHch]; simpl; [done|].
  by rewrite Hc, IHch.
Qed.

Lemma map_attrs_id n : map_attrs (fun _ a => a) n = n.
Proof.
  induction n as [r tag attrs ch IH|r d] using node_ind_nested; simpl; [|done].
  f_equal. induction IH as [|c ch Hc _ IHch]; simpl; [done|].
  by rewrite Hc, IHch.
Qed.

Lemma refs_map_attrs f n : refs (map_attrs f n) = refs n.
Proof.
  induction n as [r tag attrs ch IH|r d] using node_ind_nested; simpl; [|done].
  f_equal. induction IH as [|c ch Hc _ IHch]; simpl; [done|].
  by rewrite Hc, IHch.
Qed.

(** The loop of [setAttribute] calls over the matched elements, at once. *)
Lemma fold_setAttribute p v matched : forall t,
  fold_left (fun t r => setAttribute r p v t) matched t
    = map_attrs (fun r a => if decide (r ∈ matched) then <[p := v]> a else a) t.
Proof.
  induction matched as [|m matched IH]; intros t; simpl.
  - rewrite <- (map_attrs_id t) at 1. apply map_attrs_ext. intros r a.
    destruct (decide (r ∈ [])) as [Hin|]; [|done]. by apply elem_of_nil in Hin.
  - rewrite IH. unfold setAttribute. rewrite map_attrs_compose.
    apply map_attrs_ext. intros r a.
    destruct (decide (r = m)) as [->|Hne].
    + rewrite (decide_True (P := m ∈ m :: matched)) by left.
      destruct (decide (m ∈ matched)); [|done]. apply insert_insert_eq.
    + destruct (decide (r ∈ matched)) as [Hin|Hin].
      * rewrite decide_True; [done|]. by right.
      * rewrite decide_False; [done|]. intros [?|?]%elem_of_cons; done.
Qed.

Lemma find_entry_upd f r l : find_entry r (map (upd f) l) = upd f <$> find_entry r l.
Proof.
  induction l as [|e l IH]; simpl; [done|].
  destruct (bool_decide (e_ref e = r)); [done|]. apply IH.
Qed.

Lemma find_entry_ref r l e : find_entry r l = Some e -> e_ref e = r /\ e ∈ l.
Proof.
  induction l as [|x l IH]; simpl; [done|].
  destruct (bool_decide (e_ref x = r)) eqn:Hx.
  - intros [= ->]. apply bool_decide_eq_true in Hx. split; [done|left].
  - intros He. destruct (IH He). split; [done|by right].
Qed.

(** With distinct references an entry is found by its reference. *)
Lemma find_entry_unique l e :
  NoDup (map e_ref l) -> e ∈ l -> find_entry (e_ref e) l = Some e.
Proof.
  induction l as [|x l IH]; simpl; intros Hnd Hin.
  - by apply elem_of_nil in Hin.
  - apply NoDup_cons in Hnd as [Hx Hnd].
    apply elem_of_cons in Hin as [->|Hin].
    + by rewrite bool_decide_true.
    + rewrite bool_decide_false; [by apply IH|].
      intros Heq. apply Hx. rewrite Heq. apply list_elem_of_fmap. by exists e.
Qed.

Lemma attr_at_map_attrs f r p t :
  attr_at r p (map_attrs f t)
    = (e ← find_entry r (entries [] t); f r (e_attrs e) !! p).
Proof.
  unfold attr_at. rewrite entries_map_attrs, find_entry_upd.
  destruct (find_entry r (entries [] t)) as [e|] eqn:He; [|done]. simpl.
  by destruct (find_entry_ref _ _ _ He) as [-> _].
Qed.

(** Below the root every entry has an ancestor. *)
Lemma entries_anc n : forall anc e, e ∈ entries anc n -> length anc <= length (e_anc e).
Proof.
  induction n as [r tag attrs ch IH|r d] using node_ind_nested; intros anc e;
    simpl; [|by intros ?%elem_of_nil].
  intros [->|Hin]%elem_of_cons; [done|].
  apply list_elem_of_In, in_flat_map in Hin as (c&Hc&Hin).
  rewrite Forall_forall in IH.
  apply list_elem_of_In in Hc, Hin. specialize (IH c Hc _ _ Hin). simpl in IH. lia.
Qed.

Lemma tail_entries_anc n e : e ∈ tail (entries [] n) -> e_anc e <> [].
Proof.
  destruct n as [r tag attrs ch|r d]; simpl; [|by intros ?%elem_of_nil].
  intros Hin. apply list_elem_of_In, in_flat_map in Hin as (c&Hc&Hin).
  apply list_elem_of_In, entries_anc in Hin.
  destruct (e_anc e); simpl in Hin; [lia|done].
Qed.

Lemma root_entry_anc n e :
  e ∈ entries [] n -> e_anc e <> [] -> e ∈ tail (entries [] n).
Proof.
  destruct n as [r tag attrs ch|r d]; simpl; [|done].
  intros [->|Hin]%elem_of_cons; [done|done].
Qed.

Section Rewriting.
Variable E : Env.
Variable count : N.
Variable t0 : node.
Hypothesis unique_refs : NoDup (map e_ref (entries [] t0)).

Local Notation "'sfx'" := ("-" +:+ number_to_string count).
Local Notation "'inv'" := (rewriting_inv t0 sfx).

Lemma inv_start : inv [] [] (fun _ a => a).
Proof.
  intros e0 _. simpl. split; [|split].
  - destruct (decide (e_ref e0 ∈ [])) as [Hin|]; [by apply elem_of_nil in Hin|done].
  - intros p _. by left.
  - intros p v c _ _ _ Hin. by apply elem_of_nil in Hin.
Qed.

(** A safe, non-empty identifier selects every descendant whose attribute
    mentions it. *)
Lemma query_referencing_safe F p c v e0 matched :
  selector_safe c = true -> c <> "" ->
  e0 ∈ entries [] t0 -> e_anc e0 <> [] ->
  F (e_ref e0) (e_attrs e0) !! p = Some v -> contains c v = true ->
  query_referencing E p c (map_attrs F t0) = Ok matched ->
  e_ref e0 ∈ matched.
Proof.
  intros Hsafe Hne He0 Hanc Hv Hcont. unfold query_referencing. rewrite Hsafe.
  intros [= <-]. apply list_elem_of_fmap. exists (upd F e0). split; [done|].
  unfold querySelectorAll. apply list_elem_of_filter. split.
  - simpl. rewrite Hv, Hcont. by rewrite bool_decide_false.
  - rewrite tail_entries_map_attrs. apply list_elem_of_fmap. exists e0.
    split; [done|]. by apply root_entry_anc.
Qed.

Lemma inv_property dr dcp F c p t' :
  inv dr dcp F -> p <> "id" ->
  rewrite_property E c (c +:+ sfx) (map_attrs F t0) p = Ok t' ->
  exists F', t' = map_attrs F' t0 /\ inv dr (dcp ++ [(c, p)]) F'.
Proof.
  intros Hinv Hp. unfold rewrite_property.
  destruct (query_referencing E p c (map_attrs F t0)) as [matched|] eqn:Hq; [|done].
  intros [= <-]. rewrite fold_setAttribute, map_attrs_compose.
  eexists. split; [reflexivity|]. intros e0 He0.
  destruct (Hinv e0 He0) as (P1&P2&P3). cbv zeta in *.
  set (a0 := e_attrs e0) in *. set (a := F (e_ref e0) a0) in *.
  split; [|split].
  - destruct (decide (e_ref e0 ∈ matched)); [|done].
    by rewrite lookup_insert_ne.
  - intros q Hq'. destruct (decide (e_ref e0 ∈ matched)) as [Hin|Hin].
    + destruct (decide (q = p)) as [->|Hqp].
      * right. exists c. split; [apply elem_of_app; right; left|].
        apply lookup_insert_eq.
      * rewrite lookup_insert_ne by done.
        destruct (P2 q Hq') as [?|(c'&?&?)]; [by left|right].
        exists c'. split; [apply elem_of_app; by left|done].
    + destruct (P2 q Hq') as [?|(c'&?&?)]; [by left|right].
      exists c'. split; [apply elem_of_app; by left|done].
  - intros q v c1 Hq' Hanc Hv Hin1 Hne Hsafe Hcont.
    assert (forall c', (c', q) ∈ dcp ++ [(c, p)] ->
              a !! q = Some (url_reference (c' +:+ sfx)) ->
              exists c'', (c'', q) ∈ dcp ++ [(c, p)] /\
                (if decide (e_ref e0 ∈ matched) then <[p := url_reference (c +:+ sfx)]> a
                 else a) !! q = Some (url_reference (c'' +:+ sfx))) as Hkeep.
    { intros c' Hc' Ha. destruct (decide (e_ref e0 ∈ matched)); [|by exists c'].
      destruct (decide (q = p)) as [->|Hqp].
      - exists c. split; [apply elem_of_app; right; left|apply lookup_insert_eq].
      - exists c'. by rewrite lookup_insert_ne. }
    apply elem_of_app in Hin1 as [Hold|Hnew].
    + destruct (P3 q v c1 Hq' Hanc Hv Hold Hne Hsafe Hcont) as (c'&Hc'&Ha).
      apply (Hkeep c'); [apply elem_of_app; by left|done].
    + apply list_elem_of_singleton in Hnew as [= -> ->].
      destruct (P2 p Hp) as [Hsame|(c'&Hc'&Ha)].
      * rewrite decide_True.
        { exists c. split; [apply elem_of_app; right; left|apply lookup_insert_eq]. }
        eapply (query_referencing_safe F p c v e0); eauto.
        fold a0 a. by rewrite Hsame.
      * apply (Hkeep c'); [apply elem_of_app; by left|done].
Qed.

Lemma inv_properties dr c ps : forall dcp F t',
  inv dr dcp F -> Forall (fun p => p <> "id") ps ->
  fold_result (rewrite_property E c (c +:+ sfx)) ps (map_attrs F t0) = Ok t' ->
  exists F', t' = map_attrs F' t0 /\ inv dr (dcp ++ map (pair c) ps) F'.
Proof.
  induction ps as [|p ps IH]; intros dcp F t' Hinv Hps; simpl.
  - intros [= <-]. exists F. by rewrite app_nil_r.
  - apply Forall_cons in Hps as [Hp Hps].
    destruct (rewrite_property E c (c +:+ sfx) (map_attrs F t0) p) as [t1|] eqn:H1;
      [|done].
    destruct (inv_property dr dcp F c p t1 Hinv Hp H1) as (F1&->&Hinv1).
    intros H2. destruct (IH _ _ _ Hinv1 Hps H2) as (F2&->&Hinv2).
    exists F2. split; [done|]. by rewrite <- app_assoc in Hinv2.
Qed.

Lemma defs_of_entry tag d :
  d ∈ defs_of t0 tag ->
  exists e, e ∈ entries [] t0 /\ e_ref e = d /\ e_tag e = tag
            /\ is_Some (e_attrs e !! "id").
Proof.
  unfold defs_of, querySelectorAll. intros (e&->&Hin)%list_elem_of_fmap.
  apply list_elem_of_filter in Hin as [Hm Hin]. exists e.
  simpl in Hm. apply andb_prop in Hm as [Hm _]. apply andb_prop in Hm as [Htag Hid].
  apply bool_decide_eq_true in Htag, Hid. repeat split; try done.
  destruct (entries [] t0); [by apply elem_of_nil in Hin|by right].
Qed.

(** The identifier read on the current tree is the original one as long as
    the definition has not been renamed. *)
Lemma id_at_current dr dcp F d :
  inv dr dcp F -> d ∉ dr -> id_at d (map_attrs F t0) = id_at d t0.
Proof.
  intros Hinv Hd. unfold id_at. rewrite attr_at_map_attrs. unfold attr_at.
  destruct (find_entry d (entries [] t0)) as [e|] eqn:He; [|done]. simpl.
  destruct (find_entry_ref _ _ _ He) as [<- Hin].
  destruct (Hinv e Hin) as (P1&_). cbv zeta in P1.
  by rewrite decide_False in P1 by done; rewrite P1.
Qed.

Lemma inv_definition dr dcp F ps d tag t' :
  inv dr dcp F -> Forall (fun p => p <> "id") ps ->
  d ∉ dr -> d ∈ defs_of t0 tag ->
  rewrite_definition E count ps (map_attrs F t0) d = Ok t' ->
  exists F', t' = map_attrs F' t0 /\
             inv (dr ++ [d]) (dcp ++ map (pair (id_at d t0)) ps) F'.
Proof.
  intros Hinv Hps Hd Hdef. unfold rewrite_definition.
  rewrite (id_at_current dr dcp F d Hinv Hd).
  set (c := id_at d t0).
  destruct (fold_result _ ps (map_attrs F t0)) as [t1|] eqn:H1; [|done].
  destruct (inv_properties dr c ps dcp F t1 Hinv Hps H1) as (F1&->&Hinv1).
  intros [= <-]. unfold setAttribute. rewrite map_attrs_compose.
  eexists. split; [reflexivity|]. intros e0 He0.
  destruct (Hinv1 e0 He0) as (P1&P2&P3). cbv zeta in *.
  destruct (defs_of_entry tag d Hdef) as (e1&He1&Hr1&_&c0&Hc0).
  split; [|split].
  - destruct (decide (e_ref e0 = d)) as [Heq|Hne].
    + rewrite lookup_insert_eq.
      rewrite decide_True by (apply elem_of_app; right; rewrite Heq; left).
      assert (e0 = e1) as ->.
      { pose proof (find_entry_unique _ _ unique_refs He0) as H0.
        pose proof (find_entry_unique _ _ unique_refs He1) as H1'.
        rewrite Heq, <- Hr1, H1' in H0. by injection H0. }
      rewrite Hc0. simpl. f_equal. f_equal. subst c. unfold id_at, attr_at.
      rewrite <- Hr1, (find_entry_unique _ _ unique_refs He1). simpl. by rewrite Hc0.
    + rewrite P1. destruct (decide (e_ref e0 ∈ dr)) as [Hin|Hin].
      * rewrite decide_True; [done|]. apply elem_of_app. by left.
      * rewrite decide_False; [done|].
        intros [?|?%list_elem_of_singleton]%elem_of_app; done.
  - intros p Hp. destruct (decide (e_ref e0 = d)); [|by apply P2].
    rewrite lookup_insert_ne by done. by apply P2.
  - intros p v c1 Hp. destruct (decide (e_ref e0 = d)); [|by apply P3].
    rewrite lookup_insert_ne by done. by apply P3.
Qed.

Lemma inv_definitions ps tag : forall ds dr dcp F t',
  inv dr dcp F -> Forall (fun p => p <> "id") ps ->
  NoDup (dr ++ ds) -> (forall d, d ∈ ds -> d ∈ defs_of t0 tag) ->
  fold_result (rewrite_definition E count ps) ds (map_attrs F t0) = Ok t' ->
  exists F', t' = map_attrs F' t0 /\
    inv (dr ++ ds)
        (dcp ++ flat_map (fun d => map (pair (id_at d t0)) ps) ds) F'.
Proof.
  induction ds as [|d ds IH]; intros dr dcp F t' Hinv Hps Hnd Hdefs; simpl.
  - intros [= <-]. exists F. by rewrite !app_nil_r.
  - destruct (rewrite_definition E count ps (map_attrs F t0) d) as [t1|] eqn:H1;
      [|done].
    assert (d ∉ dr) as Hd.
    { apply NoDup_app in Hnd as (_&Hdis&_). intros Hin. apply (Hdis d Hin). left. }
    destruct (inv_definition dr dcp F ps d tag t1 Hinv Hps Hd) as (F1&->&Hinv1);
      [apply Hdefs; left|done|].
    intros H2. destruct (IH (dr ++ [d]) _ F1 t' Hinv1 Hps) as (F2&->&Hinv2).
    + by rewrite <- app_assoc.
    + intros d' Hd'. apply Hdefs. by right.
    + done.
    + exists F2. split; [done|]. by rewrite <- !app_assoc in Hinv2.
Qed.

(** [defs X[id]] selects the same elements throughout the rewriting. *)
Lemma filter_upd F (P : entry -> Prop) `{forall e, Decision (P e)} (l : list entry) :
  (forall e, e ∈ l -> P (upd F e) <-> P e) ->
  filter P (map (upd F) l) = map (upd F) (filter P l).
Proof.
  induction l as [|e l IH]; intros HP; simpl; [done|].
  rewrite !filter_cons.
  assert (P (upd F e) <-> P e) as He by (apply HP; left).
  assert (filter P (map (upd F) l) = map (upd F) (filter P l)) as Hl.
  { apply IH. intros e' He'. apply HP. by right. }
  destruct (decide (P (upd F e))), (decide (P e)); simpl; try tauto; by rewrite Hl.
Qed.

Lemma defs_selected dr dcp F tag :
  inv dr dcp F ->
  querySelectorAll (SelDefsId tag) (map_attrs F t0)
    = map (upd F) (querySelectorAll (SelDefsId tag) t0).
Proof.
  intros Hinv. unfold querySelectorAll. rewrite tail_entries_map_attrs.
  apply filter_upd. intros e He.
  assert (e ∈ entries [] t0) as He0.
  { destruct (entries [] t0); [by apply elem_of_nil in He|by right]. }
  destruct (Hinv e He0) as (P1&_). cbv zeta in P1. simpl.
  assert (is_Some (F (e_ref e) (e_attrs e) !! "id") <-> is_Some (e_attrs e !! "id")) as Hid.
  { rewrite P1. destruct (decide (e_ref e ∈ dr)); [|done]. apply fmap_is_Some. }
  destruct (bool_decide (e_tag e = tag)); simpl; [|done].
  destruct (bool_decide ("defs" ∈ map snd (e_anc e))); rewrite ?andb_false_r; [|done].
  rewrite !andb_true_r.
  split; intros Hb%bool_decide_eq_true; apply bool_decide_eq_true; by apply Hid.
Qed.

Lemma defs_of_current dr dcp F tag :
  inv dr dcp F -> defs_of (map_attrs F t0) tag = defs_of t0 tag.
Proof.
  intros Hinv. unfold defs_of. rewrite (defs_selected dr dcp F tag Hinv).
  rewrite map_map. done.
Qed.

Lemma inv_categories : forall cats dr dcp F t',
  inv dr dcp F ->
  Forall (fun cat => Forall (fun p => p <> "id") (snd cat)) cats ->
  NoDup (dr ++ flat_map (fun cat => defs_of t0 (fst cat)) cats) ->
  fold_result (rewrite_category E count) cats (map_attrs F t0) = Ok t' ->
  exists F', t' = map_attrs F' t0 /\
    inv (dr ++ flat_map (fun cat => defs_of t0 (fst cat)) cats)
        (dcp ++ flat_map
                  (fun cat => flat_map (fun d => map (pair (id_at d t0)) (snd cat))
                                (defs_of t0 (fst cat))) cats) F'.
Proof.
  induction cats as [|cat cats IH]; intros dr dcp F t' Hinv Hps Hnd; simpl.
  - intros [= <-]. exists F. by rewrite !app_nil_r.
  - apply Forall_cons in Hps as [Hp Hps].
    destruct (rewrite_category E count (map_attrs F t0) cat) as [t1|] eqn:H1; [|done].
    unfold rewrite_category in H1.
    change (map e_ref (querySelectorAll (SelDefsId cat.1) (map_attrs F t0)))
      with (defs_of (map_attrs F t0) (fst cat)) in H1.
    rewrite (defs_of_current dr dcp F _ Hinv) in H1.
    simpl in Hnd. rewrite app_assoc in Hnd.
    destruct (inv_definitions (snd cat) (fst cat) (defs_of t0 (fst cat)) dr dcp F t1
                Hinv Hp) as (F1&->&Hinv1); [|done|done|].
    { by apply NoDup_app in Hnd as (?&_&_). }
    intros H2. destruct (IH _ _ F1 t' Hinv1 Hps Hnd H2) as (F2&->&Hinv2).
    exists F2. split; [done|]. by rewrite <- !app_assoc in Hinv2.
Qed.

Lemma defs_of_NoDup tag : NoDup (defs_of t0 tag).
Proof.
  unfold defs_of, querySelectorAll.
  eapply sublist_NoDup; [exact unique_refs|].
  apply fmap_sublist. etrans; [apply sublist_filter|].
  destruct (entries [] t0) as [|e l]; [done|]. by apply sublist_cons.
Qed.

Lemma all_defs_NoDup (cats : list (string * list string)) :
  NoDup (map fst cats) ->
  NoDup (flat_map (fun cat => defs_of t0 (fst cat)) cats).
Proof.
  induction cats as [|cat cats IH]; simpl; intros Hnd; [constructor|].
  apply NoDup_cons in Hnd as [Hcat Hnd].
  apply NoDup_app. split; [apply defs_of_NoDup|]. split; [|by apply IH].
  intros d Hd Hd'. apply list_elem_of_In, in_flat_map in Hd' as (cat'&Hcat'&Hd').
  apply list_elem_of_In in Hcat', Hd'.
  destruct (defs_of_entry _ d Hd) as (e&He&Hr&Ht&_).
  destruct (defs_of_entry _ d Hd') as (e'&He'&Hr'&Ht'&_).
  assert (e = e') as <-.
  { pose proof (find_entry_unique _ _ unique_refs He) as H1.
    pose proof (find_entry_unique _ _ unique_refs He') as H2.
    rewrite Hr in H1. rewrite Hr', H1 in H2. by injection H2. }
  apply Hcat. rewrite <- Ht, Ht'. apply list_elem_of_fmap. by exists cat'.
Qed.

Lemma table_properties_not_id :
  Forall (fun cat : string * list string => Forall (fun p => p <> "id") (snd cat))
    iriElementsAndProperties.
Proof. repeat constructor; discriminate. Qed.

Lemma table_tags_NoDup : NoDup (map fst iriElementsAndProperties).
Proof. apply (bool_decide_unpack _). by vm_compute. Qed.

(** A rewriting that returns is an attribute map satisfying the invariant
    for the whole table. *)
Lemma makeIdsUnique_inv t' :
  makeIdsUnique E count t0 = Ok t' ->
  exists F, t' = map_attrs F t0 /\ inv (all_defs t0) (all_pairs t0) F.
Proof.
  intros Hrun. unfold makeIdsUnique in Hrun.
  rewrite <- (map_attrs_id t0) in Hrun at 1.
  destruct (inv_categories iriElementsAndProperties [] [] (fun _ a => a) t'
              inv_start table_properties_not_id) as (F&->&Hinv); [|done|by exists F].
  exact (all_defs_NoDup iriElementsAndProperties table_tags_NoDup).
Qed.

(** Every identifier in category scope gets the suffix. *)
Lemma scoped_ids_rewritten t' :
  makeIdsUnique E count t0 = Ok t' ->
  scoped_ids t' = map (fun c => c +:+ sfx) (scoped_ids t0).
Proof.
  intros Hrun. destruct (makeIdsUnique_inv t' Hrun) as (F&->&Hinv).
  unfold scoped_ids.
  assert (forall cats,
            (forall cat, cat ∈ cats -> cat ∈ iriElementsAndProperties) ->
            flat_map (fun cat => map entry_id
                        (querySelectorAll (SelDefsId (fst cat)) (map_attrs F t0))) cats
            = map (fun c => c +:+ sfx)
                (flat_map (fun cat => map entry_id
                             (querySelectorAll (SelDefsId (fst cat)) t0)) cats)) as Hall.
  { induction cats as [|cat cats IH]; intros Hsub; simpl; [done|].
    rewrite map_app, <- IH by (intros c Hc; apply Hsub; by right). f_equal.
    rewrite (defs_selected _ _ F _ Hinv), !map_map.
    apply map_ext_in. intros e He. apply list_elem_of_In in He.
    assert (e_ref e ∈ defs_of t0 (fst cat)) as Hd
      by (apply list_elem_of_fmap; by exists e).
    destruct (defs_of_entry _ _ Hd) as (e1&He1&Hr1&_&c0&Hc0).
    assert (e1 = e) as ->.
    { pose proof (find_entry_unique _ _ unique_refs He1) as H1.
      assert (e ∈ entries [] t0) as He0.
      { apply list_elem_of_filter in He as [_ He].
        destruct (entries [] t0); [by apply elem_of_nil in He|by right]. }
      pose proof (find_entry_unique _ _ unique_refs He0) as H2.
      rewrite Hr1, H2 in H1. by injection H1. }
    destruct (Hinv e He1) as (P1&_). cbv zeta in P1.
    rewrite decide_True in P1.
    - unfold entry_id. simpl. by rewrite P1, Hc0.
    - apply list_elem_of_In, in_flat_map. exists cat.
      split; apply list_elem_of_In; [apply Hsub; left|done]. }
  by apply Hall.
Qed.

(** Every attribute that mentions an identifier in category scope ends as
    the reference to a rewritten identifier of the same tree. *)
Lemma references_rewritten t' r p :
  makeIdsUnique E count t0 = Ok t' ->
  mentions_scoped_id t0 r p ->
  exists i, i ∈ scoped_ids t' /\ attr_at r p t' = Some (url_reference i).
Proof.
  intros Hrun (cat&d&v&Hcat&Hp&Hd&Hne&Hsafe&Hr&Hv&Hcont).
  rewrite (scoped_ids_rewritten t' Hrun).
  destruct (makeIdsUnique_inv t' Hrun) as (F&->&Hinv).
  unfold attr_at in Hv.
  destruct (find_entry r (entries [] t0)) as [e0|] eqn:He0; [|done]. simpl in Hv.
  destruct (find_entry_ref _ _ _ He0) as [Hr0 Hin0].
  assert (e_anc e0 <> []) as Hanc.
  { apply list_elem_of_fmap in Hr as (e&Hre&He).
    assert (e ∈ entries [] t0) as He'.
    { destruct (entries [] t0); [by apply elem_of_nil in He|by right]. }
    pose proof (find_entry_unique _ _ unique_refs He') as H1.
    rewrite <- Hre, He0 in H1. injection H1 as ->. by apply tail_entries_anc in He. }
  assert (p <> "id") as Hpid.
  { pose proof table_properties_not_id as Ht. rewrite Forall_forall in Ht.
    specialize (Ht cat Hcat). rewrite Forall_forall in Ht. by apply Ht. }
  assert ((id_at d t0, p) ∈ all_pairs t0) as Hpair.
  { apply list_elem_of_In, in_flat_map. exists cat. split; [by apply list_elem_of_In|].
    apply in_flat_map. exists d. split; [by apply list_elem_of_In|].
    apply list_elem_of_In, list_elem_of_fmap. by exists p. }
  destruct (Hinv e0 Hin0) as (_&_&P3). cbv zeta in P3.
  destruct (P3 p v (id_at d t0) Hpid Hanc Hv Hpair Hne Hsafe Hcont) as (c'&Hc'&Ha).
  exists (c' +:+ sfx). split.
  - apply list_elem_of_fmap. exists c'. split; [done|].
    apply list_elem_of_In, in_flat_map in Hc' as (cat'&Hcat'&Hc').
    apply in_flat_map in Hc' as (d'&Hd'&Hc').
    apply list_elem_of_In, list_elem_of_fmap in Hc' as (p'&[= -> ->]&_).
    apply list_elem_of_In in Hd'.
    unfold scoped_ids. apply list_elem_of_In, in_flat_map. exists cat'.
    split; [done|]. apply list_elem_of_In.
    pose proof Hd' as (e'&->&He')%list_elem_of_fmap.
    apply list_elem_of_fmap. exists e'. split; [|done].
    destruct (defs_of_entry _ _ Hd') as (e1&He1&Hr1&_).
    unfold id_at, attr_at. rewrite <- Hr1, (find_entry_unique _ _ unique_refs He1).
    simpl. f_equal. f_equal.
    assert (e' ∈ entries [] t0) as He0'.
    { apply list_elem_of_filter in He' as [_ He'].
      destruct (entries [] t0); [by apply elem_of_nil in He'|by right]. }
    pose proof (find_entry_unique _ _ unique_refs He0') as H2.
    pose proof (find_entry_unique _ _ unique_refs He1) as H1.
    rewrite Hr1, H2 in H1. congruence.
  - rewrite attr_at_map_attrs, He0. simpl. by rewrite <- Hr0.
Qed.

End Rewriting.

(** ** Copies and the rewriting *)

Lemma entries_refs_sublist n : forall anc, map e_ref (entries anc n) `sublist_of` refs n.
Proof.
  induction n as [r tag attrs ch IH|r d] using node_ind_nested; intros anc; simpl.
  - apply sublist_skip. generalize ((r, tag) :: anc). intros anc'.
    induction IH as [|c ch Hc _ IHch]; simpl; [done|].
    rewrite map_app. by apply sublist_app.
  - apply sublist_nil_l.
Qed.

Lemma unique_entries n : NoDup (refs n) -> NoDup (map e_ref (entries [] n)).
Proof. intros Hnd. eapply sublist_NoDup; [exact Hnd|apply entries_refs_sublist]. Qed.

Lemma refs_stretch svg : refs (stretch svg) = refs svg.
Proof. unfold stretch, setAttribute. by rewrite !refs_map_attrs. Qed.

Lemma unique_refs_of_clone base resource :
  NoDup (map e_ref (entries [] (stretch (copy_at base resource)))).
Proof.
  apply unique_entries. rewrite refs_stretch, refs_copy_at. apply NoDup_seq.
Qed.

Lemma scoped_via_view tag (l1 : list entry) : forall l2,
  map view l1 = map view l2 ->
  map entry_id (filter (fun e => matches (SelDefsId tag) e = true) l1)
  = map entry_id (filter (fun e => matches (SelDefsId tag) e = true) l2).
Proof.
  induction l1 as [|e1 l1 IH]; intros [|e2 l2] Heq; try done.
  simpl in Heq. unfold view at 1 3 in Heq. injection Heq as Ha Ht Hi Heq.
  rewrite !filter_cons. specialize (IH l2 Heq).
  assert (matches (SelDefsId tag) e1 = matches (SelDefsId tag) e2) as Hm.
  { simpl. by rewrite Ha, Ht, Hi. }
  rewrite Hm. destruct (decide (matches (SelDefsId tag) e2 = true)); [|done].
  cbn [map]. f_equal; [|exact IH]. unfold entry_id. by rewrite Hi.
Qed.

Lemma scoped_ids_via_view t1 t2 :
  map view (entries [] t1) = map view (entries [] t2) ->
  scoped_ids t1 = scoped_ids t2.
Proof.
  intros Heq. unfold scoped_ids, querySelectorAll.
  assert (map view (tail (entries [] t1)) = map view (tail (entries [] t2))) as Htl.
  { destruct (entries [] t1), (entries [] t2); try done. by injection Heq. }
  induction iriElementsAndProperties as [|cat cats IH]; simpl; [done|].
  f_equal; [|exact IH]. by apply scoped_via_view.
Qed.

Lemma view_copy_at n : forall base anc anc',
  map snd anc = map snd anc' ->
  map view (entries anc (copy_at base n)) = map view (entries anc' n).
Proof.
  induction n as [r tag attrs ch IH|r d] using node_ind_nested;
    intros base anc anc' Hanc; simpl; [|done].
  f_equal; [unfold view; simpl; by rewrite Hanc|].
  assert (map snd ((base, tag) :: anc) = map snd ((r, tag) :: anc')) as Hanc'
    by (simpl; by rewrite Hanc).
  revert Hanc'. generalize ((base, tag) :: anc) ((r, tag) :: anc') (S base).
  intros a1 a2 b Ha. revert b.
  induction IH as [|c ch Hc _ IHch]; intros b; simpl; [done|].
  rewrite !map_app. f_equal; [by apply Hc|apply IHch].
Qed.

Lemma view_map_attrs f n :
  (forall r a, f r a !! "id" = a !! "id") ->
  map view (entries [] (map_attrs f n)) = map view (entries [] n).
Proof.
  intros Hf. rewrite entries_map_attrs, map_map. apply map_ext. intros e.
  unfold view. simpl. by rewrite Hf.
Qed.

Lemma scoped_ids_of_clone base resource :
  scoped_ids (stretch (copy_at base resource)) = scoped_ids resource.
Proof.
  apply scoped_ids_via_view. unfold stretch, setAttribute.
  rewrite !view_map_attrs.
  - by apply view_copy_at.
  - intros r a. destruct (decide _); [by rewrite lookup_insert_ne|done].
  - intros r a. destruct (decide _); [by rewrite lookup_insert_ne|done].
  - intros r a. destruct (decide _); [by rewrite lookup_insert_ne|done].
Qed.

(** ** The counter (lines 319-320) *)

Lemma evalScriptsIfNeeded_injectCount E k scripts s :
  injectCount (snd (evalScriptsIfNeeded E k scripts s)) = injectCount s.
Proof.
  unfold evalScriptsIfNeeded, bind, gets. destruct (_ && _); [|done].
  assert (forall l s0, injectCount (snd (for_each l (run_script E) s0)) = injectCount s0)
    as Hloop.
  { induction l as [|q l IH]; intros s0; [done|].
    rewrite for_each_cons, run_script_eq.
    destruct (script_raises E q); [done|]. by rewrite IH. }
  specialize (Hloop scripts s).
  by destruct (for_each scripts (run_script E) s) as [[[]|e] s1].
Qed.

Lemma finish_increments k root svg s s' :
  finish k root svg s = (Ok tt, s') -> injectCount s' = (injectCount s + 1)%N.
Proof.
  unfold finish, bind.
  pose proof (styleRefresh_same svg s injectCount (fun _ _ => eq_refl)) as H1.
  destruct (styleRefresh svg s) as [[svg1|e] s1]; [|done]. simpl in H1.
  unfold replaceChild, bind, gets.
  destruct (find_entry (k_el k) (page_entries (page s1))) as [e|]; [|done].
  destruct (e_anc e); [done|]. simpl. intros [= <-]. simpl. by rewrite H1.
Qed.

(** A successful injection takes the next counter value. *)
Lemma continuation_increments E k svg s s' :
  continuation E k (LNode svg) s = (Ok tt, s') ->
  injectCount s' = (injectCount s + 1)%N.
Proof.
  destruct svg as [root tag attrs ch|r d]; [|done].
  rewrite continuation_element.
  destruct (collected E (injectCount s) _) as [[scripts svg']|e]; [|done].
  unfold bind.
  pose proof (evalScriptsIfNeeded_injectCount E k scripts s) as H1.
  destruct (evalScriptsIfNeeded E k scripts s) as [[[]|e] s1]; [|done].
  simpl in H1. intros H2%finish_increments. by rewrite H2, H1.
Qed.

(** ** The extension test, in general (line 184) *)

Lemma append_nil_l s : "" +:+ s = s.
Proof. reflexivity. Qed.

Lemma is_prefix_iff p s : is_prefix p s = true <-> exists b, s = p +:+ b.
Proof.
  revert s. induction p as [|x p IH]; intros s; simpl.
  - split; [intros _; exists s; reflexivity | reflexivity].
  - destruct s as [|y s].
    + split; [discriminate | intros [b Hb]; rewrite append_cons in Hb; discriminate].
    + destruct (Ascii.eqb_spec x y) as [->|Hne].
      * rewrite IH. split; intros [b Hb]; exists b.
        -- rewrite append_cons. congruence.
        -- rewrite append_cons in Hb. congruence.
      * split; [discriminate|]. intros [b Hb]. rewrite append_cons in Hb. congruence.
Qed.

Lemma contains_iff needle hay :
  contains needle hay = true <-> exists a b, hay = a +:+ needle +:+ b.
Proof.
  induction hay as [|y hay IH].
  - simpl. rewrite orb_false_r, is_prefix_iff. split.
    + intros [b Hb]. exists "", b. exact Hb.
    + intros (a & b & Hab). destruct a; [exists b; exact Hab|].
      rewrite append_cons in Hab. discriminate.
  - change (contains needle (String y hay))
      with (is_prefix needle (String y hay) || contains needle hay).
    rewrite orb_true_iff, is_prefix_iff, IH. split.
    + intros [[b Hb]|(a & b & Hab)].
      * exists "", b. exact Hb.
      * exists (String y a), b. rewrite append_cons. congruence.
    + intros (a & b & Hab). destruct a as [|x a].
      * left. exists b. exact Hab.
      * right. rewrite append_cons in Hab. exists a, b. congruence.
Qed.

Lemma lower_append a b : lower (a +:+ b) = lower a +:+ lower b.
Proof.
  induction a as [|x a IH]; [reflexivity|].
  rewrite append_cons. simpl. rewrite IH, append_cons. reflexivity.
Qed.

Lemma lower_split s : forall x y,
  lower s = x +:+ y -> exists a b, s = a +:+ b /\ lower a = x /\ lower b = y.
Proof.
  induction s as [|c s IH]; intros x y H.
  - destruct x; [|rewrite append_cons in H; discriminate].
    exists "", "". simpl in *. rewrite append_nil_l in H. auto.
  - destruct x as [|d x].
    + exists "", (String c s). rewrite append_nil_l in H. auto.
    + rewrite append_cons in H. simpl in H. injection H as Hd Hs.
      destruct (IH _ _ Hs) as (a & b & -> & Ha & Hb).
      exists (String c a), b. rewrite append_cons. simpl. repeat split; congruence.
Qed.

(** X1: the extension test accepts exactly the locators in which some four
    consecutive characters are [.svg] up to letter case, wherever they
    stand. *)
Theorem test_svg_iff s :
  test_svg s = true <->
  exists before m after, s = before +:+ m +:+ after /\ lower m = ".svg".
Proof.
  unfold test_svg. rewrite contains_iff. split.
  - intros (a & b & Hab).
    destruct (lower_split _ _ _ Hab) as (a' & r & -> & _ & Hr).
    destruct (lower_split _ _ _ Hr) as (m & b' & -> & Hm & _).
    exists a', m, b'. auto.
  - intros (a & m & b & -> & Hm). exists (lower a), (lower b).
    rewrite !lower_append, Hm. reflexivity.
Qed.
(** ** The guards of [SVGInjector] (lines 189-216) *)

Lemma page_entries_map_attrs f p :
  page_entries (map (map_attrs f) p) = map (upd f) (page_entries p).
Proof.
  unfold page_entries. induction p as [|t p IH]; [reflexivity|].
  simpl. rewrite entries_map_attrs, IH, map_app. reflexivity.
Qed.

Lemma find_entry_page_attribute el name val r p :
  find_entry r (page_entries (map (setAttribute el name val) p))
    = upd (fun r a => if decide (r = el) then <[name := val]> a else a)
        <$> find_entry r (page_entries p).
Proof. unfold setAttribute. rewrite page_entries_map_attrs. apply find_entry_upd. Qed.

Lemma indexOf_elem el l : Some el ∈ l -> is_Some (indexOf el l).
Proof.
  induction l as [|x l IH]; [intros H; inversion H|].
  intros H. simpl. destruct (decide (x = Some el)); [eauto|].
  apply elem_of_cons in H as [H|H]; [congruence|].
  destruct (IH H) as [i ->]. simpl. eauto.
Qed.

Lemma indexOf_not_elem el l : indexOf el l = None -> Some el ∉ l.
Proof.
  intros H Hin. apply indexOf_elem in Hin as [i Hi]. congruence.
Qed.

(** X2: without SVG support, a placeholder that carries a non-empty
    [data-png] becomes the fallback image: its [src] is the fallback, its
    [style] fills the container, the callback gets [(null, el)], and the
    module's own variables are not touched (nothing is tracked, queued or
    requested). *)
Theorem png_fallback_fills_the_placeholder E s el evalScripts callback e png :
  find_entry el (page_entries (page s)) = Some e ->
  test_svg (to_string (e_attrs e !! "data-src")) = true ->
  hasSvgSupport E = false ->
  e_attrs e !! "data-png" = Some png -> png <> "" ->
  let r := SVGInjector E el evalScripts callback s in
  r = (Ok tt,
       set_reported (reported s ++ [(callback, [VNull; VNode el])])
         (set_page
            (map (setAttribute el "src" png)
               (map (setAttribute el "style" "width: 100%; height: 100%;") (page s)))
            s))
  /\ fst (getAttribute el "src" (snd r)) = Ok (Some png)
  /\ fst (getAttribute el "style" (snd r)) = Ok (Some "width: 100%; height: 100%;")
  /\ fst (getAttribute el "data-src" (snd r)) = Ok (e_attrs e !! "data-src").
Proof.
  intros He Htest Hsup Hpng Hne r.
  assert (r = (Ok tt,
       set_reported (reported s ++ [(callback, [VNull; VNode el])])
         (set_page
            (map (setAttribute el "src" png)
               (map (setAttribute el "style" "width: 100%; height: 100%;") (page s)))
            s))) as Hr.
  { subst r. unfold SVGInjector, getAttribute, bind, gets. rewrite He. simpl.
    rewrite Htest, Hsup. simpl. rewrite He. simpl. rewrite Hpng.
    rewrite bool_decide_eq_false_2 by exact Hne. reflexivity. }
  split; [exact Hr|]. rewrite Hr.
  unfold getAttribute, bind, gets. simpl.
  rewrite !find_entry_page_attribute, He. simpl.
  destruct (find_entry_ref _ _ _ He) as [Hel _]. rewrite Hel.
  rewrite !decide_True by reflexivity.
  repeat split.
  - rewrite lookup_insert_eq. reflexivity.
  - rewrite lookup_insert_ne by discriminate. rewrite lookup_insert_eq. reflexivity.
  - rewrite !lookup_insert_ne by discriminate. reflexivity.
Qed.

Lemma png_fallback_fills_the_placeholder_witness :
  let E := mkEnv false false true None (fun _ => false) (fun _ _ => None) in
  let attrs : gmap string string := {[ "data-src" := "a.svg"; "data-png" := "a.png" ]} in
  let s := initial [Sample.body [Element 1 "img" attrs []]] 2 in
  let r := SVGInjector E 1 None (Some 7%nat) s in
  fst (getAttribute 1 "src" (snd r)) = Ok (Some "a.png")
  /\ reported (snd r) = [(Some 7%nat, [VNull; VNode 1])]
  /\ fetched (snd r) = [] /\ injectedElements (snd r) = [].
Proof.
  pose proof (png_fallback_fills_the_placeholder
                (mkEnv false false true None (fun _ => false) (fun _ _ => None))
                (initial [Sample.body
                            [Element 1 "img"
                               {[ "data-src" := "a.svg"; "data-png" := "a.png" ]} []]] 2)
                1 None (Some 7%nat)
                (mkEntry [(0%nat, "body")] 1 "img"
                   {[ "data-src" := "a.svg"; "data-png" := "a.png" ]}
                   (Element 1 "img"
                      {[ "data-src" := "a.svg"; "data-png" := "a.png" ]} []))
                "a.png"
                ltac:(vm_compute; reflexivity) ltac:(vm_compute; reflexivity)
                eq_refl ltac:(vm_compute; reflexivity) ltac:(discriminate))
    as (Hr & Hsrc & _ & _).
  split; [exact Hsrc|]. cbv zeta. rewrite Hr. repeat split.
Defined.

(** X3: without SVG support and with no usable fallback (no [data-png], or
    an empty one) the callback gets the failure string and nothing else
    changes. *)
Theorem missing_png_fallback_is_reported E s el evalScripts callback e :
  find_entry el (page_entries (page s)) = Some e ->
  test_svg (to_string (e_attrs e !! "data-src")) = true ->
  hasSvgSupport E = false ->
  e_attrs e !! "data-png" = None \/ e_attrs e !! "data-png" = Some "" ->
  SVGInjector E el evalScripts callback s =
    (Ok tt,
     set_reported
       (reported s ++
        [(callback,
          [VString "This browser does not support SVG and no PNG fallback was defined."])])
       s).
Proof.
  intros He Htest Hsup Hpng.
  unfold SVGInjector, getAttribute, bind, gets. rewrite He. simpl.
  rewrite Htest, Hsup. simpl. rewrite He. simpl.
  destruct Hpng as [-> | ->]; reflexivity.
Qed.

Lemma missing_png_fallback_is_reported_witness :
  let E := mkEnv false false true None (fun _ => false) (fun _ _ => None) in
  let attrs : gmap string string := {[ "data-src" := "a.svg"; "data-png" := "" ]} in
  let s := initial [Sample.body [Element 1 "img" attrs []]] 2 in
  SVGInjector E 1 None (Some 7%nat) s =
    (Ok tt,
     set_reported
       [(Some 7%nat,
         [VString "This browser does not support SVG and no PNG fallback was defined."])]
       s).
Proof.
  apply (missing_png_fallback_is_reported
           (mkEnv false false true None (fun _ => false) (fun _ _ => None))
           (initial [Sample.body
                       [Element 1 "img"
                          {[ "data-src" := "a.svg"; "data-png" := "" ]} []]] 2)
           1 None (Some 7%nat)
           (mkEntry [(0%nat, "body")] 1 "img"
              {[ "data-src" := "a.svg"; "data-png" := "" ]}
              (Element 1 "img" {[ "data-src" := "a.svg"; "data-png" := "" ]} []))).
  - vm_compute; reflexivity.
  - vm_compute; reflexivity.
  - reflexivity.
  - right. vm_compute; reflexivity.
Defined.
(** X4: while an element is in [injectedElements], a further call for it
    returns at the [indexOf] test: no callback, no request, no change. *)
Theorem tracked_element_is_not_injected_again E s el evalScripts callback e :
  find_entry el (page_entries (page s)) = Some e ->
  test_svg (to_string (e_attrs e !! "data-src")) = true ->
  hasSvgSupport E = true ->
  Some el ∈ injectedElements s ->
  SVGInjector E el evalScripts callback s = (Ok tt, s).
Proof.
  intros He Htest Hsup Hin.
  unfold SVGInjector, getAttribute, bind, gets. rewrite He. simpl.
  rewrite Htest, Hsup. simpl.
  destruct (indexOf_elem _ _ Hin) as [i ->]. reflexivity.
Qed.

Lemma tracked_element_is_not_injected_again_witness :
  let s := snd (SVGInjector Sample.env 1 None (Some 7%nat) Scenario.one_placeholder) in
  SVGInjector Sample.env 1 (Some "once") (Some 8%nat) s = (Ok tt, s).
Proof.
  apply (tracked_element_is_not_injected_again Sample.env
           (snd (SVGInjector Sample.env 1 None (Some 7%nat) Scenario.one_placeholder))
           1 (Some "once") (Some 8%nat)
           (mkEntry [(0%nat, "body")] 1 "img" {[ "data-src" := "a.svg"; "src" := "" ]}
              (Element 1 "img" {[ "data-src" := "a.svg"; "src" := "" ]} []))).
  - vm_compute; reflexivity.
  - vm_compute; reflexivity.
  - reflexivity.
  - vm_compute. apply list_elem_of_here.
Defined.

(** What [loadSvg] leaves alone when the key is not ready. *)
Lemma loadSvg_not_ready E url k s :
  (forall root, svgCache s !! url = Some (Cached root) -> isSVGSVGElement root = false) ->
  let r := loadSvg E url k s in
  fst r = Ok tt /\ page (snd r) = page s /\ injectedElements (snd r) = injectedElements s
  /\ injectCount (snd r) = injectCount s /\ evaluated (snd r) = evaluated s
  /\ timers (snd r) = timers s.
Proof.
  intros Hnr. unfold loadSvg, bind, gets.
  destruct (svgCache s !! url) as [[|root]|] eqn:Hc; simpl.
  - repeat split.
  - rewrite (Hnr root eq_refl). repeat split.
  - destruct (hasXMLHttpRequest E); simpl; repeat split.
Qed.

(** X5: a second call for the same element, made while its locator is not
    yet ready, is ignored, whatever its arguments: only the first call's
    callback will ever be used for this element. *)
Theorem repeated_injection_is_ignored
    E s el evalScripts callback evalScripts' callback' e :
  let url := to_string (e_attrs e !! "data-src") in
  find_entry el (page_entries (page s)) = Some e ->
  test_svg url = true ->
  hasSvgSupport E = true ->
  (forall root, svgCache s !! url = Some (Cached root) -> isSVGSVGElement root = false) ->
  let s1 := snd (SVGInjector E el evalScripts callback s) in
  Some el ∈ injectedElements s1 /\
  SVGInjector E el evalScripts' callback' s1 = (Ok tt, s1).
Proof.
  intros url He Htest Hsup Hnr s1.
  assert (Some el ∈ injectedElements s1 /\
          exists e1, find_entry el (page_entries (page s1)) = Some e1
                     /\ e_attrs e1 !! "data-src" = e_attrs e !! "data-src")
    as (Hin & e1 & He1 & Hsrc).
  { subst s1. unfold SVGInjector, getAttribute, bind, gets. rewrite He. simpl.
    fold url. rewrite Htest, Hsup. simpl.
    destruct (indexOf el (injectedElements s)) as [i|] eqn:Hi.
    - simpl. split; [|eauto].
      clear -Hi. revert i Hi. induction (injectedElements s) as [|x l IH]; [discriminate|].
      simpl. intros i Hi. destruct (decide (x = Some el)) as [->|]; [left|].
      destruct (indexOf el l); [|discriminate]. right. eauto.
    - unfold set_page_attribute, modify. simpl.
      match goal with |- context [loadSvg E url ?k ?s0] =>
        destruct (loadSvg_not_ready E url k s0 Hnr) as (_ & Hp & Hie & _) end.
      rewrite Hie, Hp. simpl. split; [set_solver|].
      rewrite find_entry_page_attribute, He. simpl. eexists. split; [reflexivity|].
      simpl. destruct (decide (e_ref e = el)); [|reflexivity].
      rewrite lookup_insert_ne by discriminate. reflexivity. }
  split; [exact Hin|].
  unfold SVGInjector, getAttribute, bind, gets. rewrite He1. simpl.
  rewrite Hsrc. fold url. rewrite Htest, Hsup. simpl.
  destruct (indexOf_elem _ _ Hin) as [i ->]. reflexivity.
Qed.

Lemma repeated_injection_is_ignored_witness :
  let s1 := snd (SVGInjector Sample.env 1 None (Some 7%nat) Scenario.one_placeholder) in
  Some 1%nat ∈ injectedElements s1 /\
  SVGInjector Sample.env 1 (Some "once") (Some 8%nat) s1 = (Ok tt, s1).
Proof.
  apply (repeated_injection_is_ignored Sample.env Scenario.one_placeholder
           1 None (Some 7%nat) (Some "once") (Some 8%nat)
           (mkEntry [(0%nat, "body")] 1 "img" {[ "data-src" := "a.svg" ]}
              (Sample.img 1 "a.svg"))).
  - vm_compute; reflexivity.
  - vm_compute; reflexivity.
  - reflexivity.
  - intros root H. vm_compute in H. discriminate.
Defined.

(** X6: with no [XMLHttpRequest], an accepted injection of a locator that
    has no cache entry is answered at once with the failure string; nothing
    is cached or requested, and the element stays in [injectedElements]. *)
Theorem missing_XMLHttpRequest_is_reported E s el evalScripts callback e :
  let url := to_string (e_attrs e !! "data-src") in
  find_entry el (page_entries (page s)) = Some e ->
  test_svg url = true ->
  hasSvgSupport E = true ->
  hasXMLHttpRequest E = false ->
  indexOf el (injectedElements s) = None ->
  svgCache s !! url = None ->
  let r := SVGInjector E el evalScripts callback s in
  fst r = Ok tt
  /\ reported (snd r)
     = reported s ++ [(callback, [VString "Browser does not support XMLHttpRequest"])]
  /\ injectedElements (snd r) = injectedElements s ++ [Some el]
  /\ svgCache (snd r) = svgCache s /\ requestQueue (snd r) = requestQueue s
  /\ fetched (snd r) = fetched s /\ xhrs (snd r) = xhrs s /\ timers (snd r) = timers s.
Proof.
  intros url He Htest Hsup Hxhr Hidx Hc r. subst r.
  unfold SVGInjector, getAttribute, bind, gets. rewrite He. simpl.
  fold url. rewrite Htest, Hsup. simpl. rewrite Hidx. simpl.
  unfold loadSvg, bind, gets. simpl. rewrite Hc, Hxhr. simpl.
  repeat split.
Qed.

Lemma missing_XMLHttpRequest_is_reported_witness :
  let E := mkEnv false true false None (fun _ => false) (fun _ _ => None) in
  let r := SVGInjector E 1 None (Some 7%nat) Scenario.one_placeholder in
  reported (snd r) = [(Some 7%nat, [VString "Browser does not support XMLHttpRequest"])]
  /\ injectedElements (snd r) = [Some 1%nat]
  /\ fetched (snd r) = [].
Proof.
  destruct (missing_XMLHttpRequest_is_reported
              (mkEnv false true false None (fun _ => false) (fun _ _ => None))
              Scenario.one_placeholder 1 None (Some 7%nat)
              (mkEntry [(0%nat, "body")] 1 "img" {[ "data-src" := "a.svg" ]}
                 (Sample.img 1 "a.svg")))
    as (_ & Hrep & Hinj & _ & _ & Hf & _).
  - vm_compute; reflexivity.
  - vm_compute; reflexivity.
  - reflexivity.
  - reflexivity.
  - vm_compute; reflexivity.
  - vm_compute; reflexivity.
  - repeat split; assumption.
Defined.
(** ** A browser without SVG support or without [XMLHttpRequest] *)

Lemma unsupported_step E ev s :
  hasSvgSupport E = false \/ hasXMLHttpRequest E = false ->
  untouched s -> untouched (snd (step E ev s)).
Proof.
  intros HE (Hf & Hc & Hq & Ht & Hx & Hn & Hev & Hr).
  destruct ev as [el evalScripts callback|url resp|]; simpl.
  - unfold SVGInjector, getAttribute, bind, gets.
    destruct (find_entry el (page_entries (page s))) as [e|]; simpl;
      [|repeat split; assumption].
    destruct (test_svg (to_string (e_attrs e !! "data-src"))); simpl;
      [|repeat split; assumption].
    destruct (hasSvgSupport E) eqn:Hsup; simpl.
    + destruct HE as [HE|HE]; [discriminate|].
      destruct (indexOf el (injectedElements s)); simpl; [repeat split; assumption|].
      unfold loadSvg, bind, gets. simpl. rewrite Hc, lookup_empty, HE. simpl.
      repeat split; assumption.
    + destruct (find_entry el (page_entries (page s))) as [e'|]; simpl;
        [|repeat split; assumption].
      destruct (e_attrs e' !! "data-png") as [png|]; simpl;
        [|repeat split; assumption].
      destruct (bool_decide (png = "")); simpl; repeat split; assumption.
  - unfold bind, gets. rewrite Hx. simpl. repeat split; assumption.
  - unfold bind, gets. rewrite Ht. simpl. repeat split; assumption.
Qed.

Lemma unsupported_run E evs : forall s,
  hasSvgSupport E = false \/ hasXMLHttpRequest E = false ->
  untouched s -> untouched (run E evs s).
Proof.
  induction evs as [|ev evs IH]; intros s HE Hs; [exact Hs|].
  simpl. apply IH; [exact HE|]. apply unsupported_step; assumption.
Qed.

(** X7: in a browser without SVG support, or without [XMLHttpRequest],
    whatever the page does, the module never sends a request, caches
    nothing, queues and defers nothing, injects nothing and runs no
    script. *)
Theorem unsupported_browser_never_fetches E p next evs :
  hasSvgSupport E = false \/ hasXMLHttpRequest E = false ->
  let s := run E evs (initial p next) in
  fetched s = [] /\ svgCache s = ∅ /\ requestQueue s = ∅ /\ timers s = [] /\
  xhrs s = [] /\ injectCount s = 0%N /\ evaluated s = [] /\ ranScripts s = ∅.
Proof.
  intros HE. apply (unsupported_run E evs (initial p next) HE). repeat split.
Qed.

Lemma unsupported_browser_never_fetches_witness :
  let s := run (mkEnv false true false None (fun _ => false) (fun _ _ => None))
             [Inject 1 None (Some 7%nat); XhrDone "a.svg" (Sample.ok Sample.clip);
              TimerFires]
             (initial [Sample.body [Sample.img 1 "a.svg"]] 2) in
  fetched s = [] /\ svgCache s = ∅ /\ requestQueue s = ∅ /\ timers s = [] /\
  xhrs s = [] /\ injectCount s = 0%N /\ evaluated s = [] /\ ranScripts s = ∅.
Proof.
  apply (unsupported_browser_never_fetches
           (mkEnv false true false None (fun _ => false) (fun _ _ => None))
           [Sample.body [Sample.img 1 "a.svg"]] 2
           [Inject 1 None (Some 7%nat); XhrDone "a.svg" (Sample.ok Sample.clip);
            TimerFires]).
  right. reflexivity.
Defined.
(** ** Responses that cache nothing (lines 76-84, 103-116, 126-129) *)

Lemma invoke_string E k msg s :
  invoke E k (LString msg) s =
    (Ok tt,
     set_reported (reported s ++ [(k_callback k, [VString msg])])
       (set_delivered (delivered s ++ [(k, LString msg)]) s)).
Proof. reflexivity. Qed.

Lemma invoke_undefined E k s :
  invoke E k LNone s =
    (Ok tt,
     set_reported (reported s ++ [(k_callback k, [VUndefined])])
       (set_delivered (delivered s ++ [(k, LNone)]) s)).
Proof. reflexivity. Qed.

(** X8: a response with status 404, or with no XML at all, is a load
    failure whatever else it carries.  Only the callback of the call that
    sent the request is used: it gets the failure string, then the note on a
    [file:] page, then [undefined].  The cache entry, the queue and the
    pending tasks stay as they were, so the consumers that were queued
    behind it get nothing. *)
Theorem load_failure_calls_the_requester_only E url k httpRequest s :
  status httpRequest = 404%N \/ xml httpRequest = XmlNull ->
  let r := onreadystatechange E url k httpRequest s in
  fst r = Ok tt
  /\ reported (snd r)
     = reported s
       ++ [(k_callback k, [VString ("Unable to load SVG file: " +:+ url)])]
       ++ (if isLocal E then [(k_callback k, [VString local_note])] else [])
       ++ [(k_callback k, [VUndefined])]
  /\ svgCache (snd r) = svgCache s /\ requestQueue (snd r) = requestQueue s
  /\ timers (snd r) = timers s /\ page (snd r) = page s
  /\ injectedElements (snd r) = injectedElements s.
Proof.
  intros Hfail r. subst r. unfold onreadystatechange.
  assert ((status httpRequest =? 404)%N
          || match xml httpRequest with XmlNull => true | _ => false end = true) as ->.
  { destruct Hfail as [-> | ->]; [reflexivity | apply orb_true_r]. }
  unfold bind. rewrite invoke_string.
  destruct (isLocal E).
  - rewrite invoke_string, invoke_undefined. simpl.
    rewrite <- !app_assoc. repeat split.
  - unfold ret. rewrite invoke_undefined. simpl.
    rewrite <- !app_assoc. repeat split.
Qed.

Lemma load_failure_calls_the_requester_only_witness :
  let k := mkContinuation 1 "always" (Some 7%nat) "a.svg" in
  let s := Scenario.two_placeholders in
  let r := onreadystatechange Sample.env "a.svg" k
             (mkResponse 404 "Not Found" (XmlDocument Sample.clip) "") s in
  reported (snd r)
    = [(Some 7%nat, [VString "Unable to load SVG file: a.svg"]);
       (Some 7%nat, [VUndefined])]
  /\ svgCache (snd r) = svgCache s /\ timers (snd r) = timers s.
Proof.
  destruct (load_failure_calls_the_requester_only Sample.env "a.svg"
              (mkContinuation 1 "always" (Some 7%nat) "a.svg")
              (mkResponse 404 "Not Found" (XmlDocument Sample.clip) "")
              Scenario.two_placeholders (or_introl eq_refl))
    as (_ & Hrep & Hc & _ & Ht & _).
  repeat split; assumption.
Defined.

(** X9: a response that is no load failure and whose status is not 200
    (nor 0 on a [file:] page) is reported once, with the status and its
    text, to the callback of the call that sent the request; nothing is
    cached and no delivery is scheduled. *)
Theorem unexpected_status_is_reported E url k httpRequest s :
  status httpRequest <> 404%N -> xml httpRequest <> XmlNull ->
  status httpRequest <> 200%N ->
  isLocal E = false \/ status httpRequest <> 0%N ->
  onreadystatechange E url k httpRequest s =
    invoke E k
      (LString ("There was a problem injecting the SVG: "
                +:+ number_to_string (status httpRequest) +:+ " "
                +:+ statusText httpRequest)) s
  /\ let r := onreadystatechange E url k httpRequest s in
     reported (snd r)
     = reported s
       ++ [(k_callback k,
            [VString ("There was a problem injecting the SVG: "
                      +:+ number_to_string (status httpRequest) +:+ " "
                      +:+ statusText httpRequest)])]
     /\ svgCache (snd r) = svgCache s /\ requestQueue (snd r) = requestQueue s
     /\ timers (snd r) = timers s.
Proof.
  intros H404 Hxml H200 H0.
  assert (onreadystatechange E url k httpRequest s =
    invoke E k
      (LString ("There was a problem injecting the SVG: "
                +:+ number_to_string (status httpRequest) +:+ " "
                +:+ statusText httpRequest)) s) as Heq.
  { unfold onreadystatechange.
    rewrite (proj2 (N.eqb_neq _ _) H404), (proj2 (N.eqb_neq _ _) H200).
    destruct (xml httpRequest); [congruence| |];
      (destruct H0 as [-> | H0]; [reflexivity|];
       rewrite (proj2 (N.eqb_neq _ _) H0), andb_false_r; reflexivity). }
  split; [exact Heq|]. cbv zeta. rewrite Heq, invoke_string. repeat split.
Qed.

Lemma unexpected_status_is_reported_witness :
  let k := mkContinuation 1 "always" (Some 7%nat) "a.svg" in
  let r := onreadystatechange Sample.env "a.svg" k
             (mkResponse 500 "Internal Server Error" (XmlDocument Sample.clip) "")
             Scenario.two_placeholders in
  reported (snd r)
    = [(Some 7%nat,
        [VString "There was a problem injecting the SVG: 500 Internal Server Error"])].
Proof.
  destruct (unexpected_status_is_reported Sample.env "a.svg"
              (mkContinuation 1 "always" (Some 7%nat) "a.svg")
              (mkResponse 500 "Internal Server Error" (XmlDocument Sample.clip) "")
              Scenario.two_placeholders)
    as (_ & Hrep & _).
  - discriminate.
  - discriminate.
  - discriminate.
  - left. reflexivity.
  - exact Hrep.
Defined.

(** X10: a success status whose XML is no document falls back to parsing
    the response text; when the parser throws, or the parsed document holds
    a [parsererror] element, the requester's callback gets the parse
    failure, nothing is cached and no delivery is scheduled. *)
Theorem unparsable_response_is_reported E url k httpRequest parseFromString s :
  status httpRequest = 200%N \/ (isLocal E = true /\ status httpRequest = 0%N) ->
  xml httpRequest = XmlOther ->
  domParser E = Some parseFromString ->
  match parseFromString (responseText httpRequest) with
  | Some xmlDoc => has_parsererror xmlDoc = true
  | None => True
  end ->
  let r := onreadystatechange E url k httpRequest s in
  fst r = Ok tt
  /\ reported (snd r)
     = reported s ++ [(k_callback k, [VString ("Unable to parse SVG file: " +:+ url)])]
  /\ svgCache (snd r) = svgCache s /\ requestQueue (snd r) = requestQueue s
  /\ timers (snd r) = timers s.
Proof.
  intros Hst Hxml Hparser Hbad r. subst r. unfold onreadystatechange.
  rewrite Hxml, Hparser.
  assert ((status httpRequest =? 404)%N = false) as ->.
  { apply N.eqb_neq. destruct Hst as [-> | [_ ->]]; discriminate. }
  assert ((status httpRequest =? 200)%N
          || isLocal E && (status httpRequest =? 0)%N = true) as ->.
  { destruct Hst as [-> | [-> ->]]; [reflexivity | apply orb_true_r]. }
  simpl. unfold bind.
  destruct (parseFromString (responseText httpRequest)) as [xmlDoc|].
  - rewrite Hbad, invoke_string. simpl. repeat split.
  - rewrite invoke_string. simpl. repeat split.
Qed.

Lemma unparsable_response_is_reported_witness :
  let E := mkEnv false true true (Some (fun _ => None)) (fun _ => false)
             (fun _ _ => None) in
  let k := mkContinuation 1 "always" (Some 7%nat) "a.svg" in
  let r := onreadystatechange E "a.svg" k (mkResponse 200 "OK" XmlOther "<svg")
             Scenario.two_placeholders in
  reported (snd r) = [(Some 7%nat, [VString "Unable to parse SVG file: a.svg"])].
Proof.
  destruct (unparsable_response_is_reported
              (mkEnv false true true (Some (fun _ => None)) (fun _ => false)
                 (fun _ _ => None))
              "a.svg" (mkContinuation 1 "always" (Some 7%nat) "a.svg")
              (mkResponse 200 "OK" XmlOther "<svg") (fun _ => None)
              Scenario.two_placeholders)
    as (_ & Hrep & _).
  - left. reflexivity.
  - reflexivity.
  - reflexivity.
  - exact I.
  - exact Hrep.
Defined.
(** ** Requests and cache over the life of the page *)

Lemma keeps_refl P s : keeps P s s.
Proof. intros H. exact H. Qed.

Lemma keeps_trans P s1 s2 s3 : keeps P s1 s2 -> keeps P s2 s3 -> keeps P s1 s3.
Proof. unfold keeps. auto. Qed.

Lemma fetch_frame_refl s : fetch_frame s s.
Proof. repeat split. Qed.

Lemma fetch_frame_trans s1 s2 s3 :
  fetch_frame s1 s2 -> fetch_frame s2 s3 -> fetch_frame s1 s3.
Proof.
  intros (?&?&?&?&?) (?&?&?&?&?). repeat split; congruence.
Qed.

#[local] Hint Resolve keeps_refl keeps_trans fetch_frame_refl fetch_frame_trans : core.

Lemma cache_frame_fetch s s' : cache_frame s s' -> fetch_frame s s'.
Proof. intros (?&?&?&?&?&?&?). repeat split; assumption. Qed.

Lemma continuation_fetch_frame E k arg : preserves fetch_frame (continuation E k arg).
Proof. intros s. apply cache_frame_fetch, continuation_cache_frame. Qed.

#[local] Hint Resolve continuation_fetch_frame : core.

Lemma invoke_fetch_frame E k arg : preserves fetch_frame (invoke E k arg).
Proof. unfold invoke. repeat preserve_step. repeat split. Qed.

Lemma cloneSvg_fetch_frame src : preserves fetch_frame (cloneSvg src).
Proof. intros s. repeat split. Qed.

#[local] Hint Resolve invoke_fetch_frame cloneSvg_fetch_frame : core.

Lemma fire_timer_fetch_frame E task : preserves fetch_frame (fire_timer E task).
Proof. unfold fire_timer. destruct task as [url index]. repeat preserve_step. Qed.

Lemma take_xhr_Some u l k rest :
  take_xhr u l = Some (k, rest) ->
  u ∈ map fst l
  /\ map fst rest `sublist_of` map fst l
  /\ (NoDup (map fst l) -> u ∉ map fst rest).
Proof.
  revert rest. induction l as [|[v k0] l IH]; intros rest; simpl; [discriminate|].
  destruct (decide (v = u)) as [->|Hne].
  - intros [= <- <-]. split; [left|]. split; [apply sublist_cons, reflexivity|].
    intros Hnd. apply NoDup_cons in Hnd as [H _]. exact H.
  - destruct (take_xhr u l) as [[k' rest']|]; simpl; [|discriminate].
    intros [= <- <-]. destruct (IH rest' eq_refl) as (H1 & H2 & H3).
    split; [right; exact H1|]. split; [simpl; apply sublist_skip, H2|].
    intros Hnd. apply NoDup_cons in Hnd as [_ Hnd]. simpl.
    apply not_elem_of_cons. split; [congruence | auto].
Qed.

(** A response that resolves to no document changes neither the cache nor
    the queues; with a [DOMParser] it schedules nothing either. *)
Lemma onreadystatechange_unresolved E url k resp s :
  resolves E resp = None ->
  let s' := snd (onreadystatechange E url k resp s) in
  svgCache s' = svgCache s /\ requestQueue s' = requestQueue s /\
  xhrs s' = xhrs s /\ fetched s' = fetched s /\
  injectedElements s' = injectedElements s /\
  (is_Some (domParser E) -> timers s' = timers s).
Proof.
  unfold resolves, onreadystatechange. intros Hres.
  assert (forall s0 : State,
    let s' := snd ((invoke E k (LString ("Unable to load SVG file: " +:+ url)) ;;
                    (if isLocal E then invoke E k (LString local_note) else ret tt) ;;
                    invoke E k LNone) s0) in
    svgCache s' = svgCache s0 /\ requestQueue s' = requestQueue s0 /\
    xhrs s' = xhrs s0 /\ fetched s' = fetched s0 /\
    injectedElements s' = injectedElements s0 /\
    (is_Some (domParser E) -> timers s' = timers s0)) as Hfail.
  { intros s0. unfold bind. rewrite invoke_string.
    destruct (isLocal E); [rewrite invoke_string|unfold ret];
      rewrite invoke_undefined; repeat split. }
  destruct (status resp =? 404)%N; cbn [orb]; [apply Hfail|].
  destruct (xml resp) eqn:Hxml; [apply Hfail| |].
  - destruct ((status resp =? 200)%N || isLocal E && (status resp =? 0)%N);
      cbn [negb] in *; [discriminate|]. rewrite invoke_string. repeat split.
  - destruct ((status resp =? 200)%N || isLocal E && (status resp =? 0)%N);
      cbn [negb] in *; [|rewrite invoke_string; repeat split].
    unfold bind. destruct (domParser E) as [parse|].
    + destruct (parse (responseText resp)) as [doc|].
      * destruct (has_parsererror doc); [|discriminate].
        rewrite invoke_string. repeat split.
      * rewrite invoke_string. repeat split.
    + unfold ret, processRequestQueue, bind, gets.
      destruct (requestQueue s !! url) as [q|].
      * rewrite schedule_all. repeat split. intros [? [=]].
      * repeat split.
Qed.

Lemma consistent_frame s s' :
  svgCache s' = svgCache s -> xhrs s' = xhrs s -> fetched s' = fetched s ->
  consistent s -> consistent s'.
Proof. unfold consistent. intros -> -> ->. auto. Qed.

Lemma fetch_frame_consistent s s' : fetch_frame s s' -> consistent s -> consistent s'.
Proof. intros (?&?&?&?&?). apply consistent_frame; assumption. Qed.

Lemma loadSvg_consistent E url k s :
  consistent s -> consistent (snd (loadSvg E url k s)).
Proof.
  intros Hs. destruct (svgCache s !! url) as [c|] eqn:Hc.
  - unfold loadSvg, bind, gets. rewrite Hc.
    destruct c as [|root]; [revert Hs; apply consistent_frame; reflexivity|].
    destruct (isSVGSVGElement root);
      [|revert Hs; apply consistent_frame; reflexivity].
    eapply fetch_frame_consistent; [apply invoke_fetch_frame|].
    revert Hs. apply consistent_frame; reflexivity.
  - destruct (hasXMLHttpRequest E) eqn:Hx.
    + rewrite loadSvg_absent by assumption. simpl.
      destruct Hs as (Hnd & Hf & Hndx & Hl). unfold consistent. simpl.
      assert (url ∉ fetched s) as Hnf.
      { intros H. destruct (Hf _ H) as [? ?]. congruence. }
      assert (url ∉ map fst (xhrs s)) as Hnx.
      { intros H. rewrite (Hl _ H) in Hc. discriminate. }
      repeat split.
      * apply NoDup_app. repeat split; [exact Hnd| |apply NoDup_singleton].
        intros u Hu Hu'. apply list_elem_of_singleton in Hu'. congruence.
      * intros u Hu. destruct (decide (u = url)) as [->|Hne].
        -- rewrite lookup_insert_eq. eauto.
        -- rewrite lookup_insert_ne by congruence. apply Hf.
           apply elem_of_app in Hu as [Hu|Hu]; [exact Hu|].
           apply list_elem_of_singleton in Hu. congruence.
      * rewrite map_app. simpl. apply NoDup_app. repeat split;
          [exact Hndx| |apply NoDup_singleton].
        intros u Hu Hu'. apply list_elem_of_singleton in Hu'. congruence.
      * intros u Hu. rewrite map_app in Hu. simpl in Hu.
        destruct (decide (u = url)) as [->|Hne].
        -- apply lookup_insert_eq.
        -- rewrite lookup_insert_ne by congruence. apply Hl.
           apply elem_of_app in Hu as [Hu|Hu]; [exact Hu|].
           apply list_elem_of_singleton in Hu. congruence.
    + unfold loadSvg, bind, gets. rewrite Hc, Hx. simpl.
      revert Hs. apply consistent_frame; reflexivity.
Qed.

Lemma SVGInjector_consistent E el evalScripts callback s :
  consistent s -> consistent (snd (SVGInjector E el evalScripts callback s)).
Proof.
  intros Hs. unfold SVGInjector, getAttribute, bind, gets.
  destruct (find_entry el (page_entries (page s))) as [e|] eqn:He; simpl; [|exact Hs].
  destruct (test_svg (to_string (e_attrs e !! "data-src"))); simpl; [|exact Hs].
  destruct (hasSvgSupport E); simpl.
  - destruct (indexOf el (injectedElements s)); simpl; [exact Hs|].
    apply loadSvg_consistent. revert Hs. apply consistent_frame; reflexivity.
  - rewrite He. simpl.
    destruct (e_attrs e !! "data-png") as [png|]; simpl; [|exact Hs].
    destruct (bool_decide (png = "")); simpl; exact Hs.
Qed.

Lemma onreadystatechange_consistent E url k resp s :
  url ∉ map fst (xhrs s) ->
  consistent s -> consistent (snd (onreadystatechange E url k resp s)).
Proof.
  intros Hx Hs. destruct (resolves E resp) as [doc|] eqn:Hres.
  - rewrite (onreadystatechange_resolves _ _ _ _ _ _ Hres).
    unfold bind. rewrite cache_document_eq.
    assert (consistent
              (set_svgCache (<[url:=Cached (copy_at (nextRef s) doc)]> (svgCache s))
                 (set_nextRef (nextRef s + size doc)%nat s))) as Hs'.
    { destruct Hs as (Hnd & Hf & Hndx & Hl). unfold consistent. simpl.
      repeat split; [exact Hnd| |exact Hndx|].
      - intros u Hu. destruct (decide (u = url)) as [->|Hne].
        + rewrite lookup_insert_eq. eauto.
        + rewrite lookup_insert_ne by congruence. auto.
      - intros u Hu. rewrite lookup_insert_ne by congruence. auto. }
    unfold processRequestQueue, bind, gets.
    match goal with |- context [requestQueue ?s0 !! url] =>
      destruct (requestQueue s0 !! url) as [q|] end; simpl; [|exact Hs'].
    rewrite schedule_all. simpl. revert Hs'. apply consistent_frame; reflexivity.
  - destruct (onreadystatechange_unresolved E url k resp s Hres) as (H1&_&H2&H3&_).
    revert Hs. apply consistent_frame; assumption.
Qed.

Lemma step_consistent E ev s : consistent s -> consistent (snd (step E ev s)).
Proof.
  intros Hs. destruct ev as [el evalScripts callback|url resp|].
  - apply SVGInjector_consistent, Hs.
  - destruct (take_xhr url (xhrs s)) as [[k rest]|] eqn:Hx.
    + rewrite (step_xhr _ _ _ _ _ _ Hx).
      destruct (take_xhr_Some _ _ _ _ Hx) as (Hin & Hsub & Hnot).
      destruct Hs as (Hnd & Hf & Hndx & Hl).
      apply onreadystatechange_consistent; [exact (Hnot Hndx)|].
      unfold consistent. simpl. repeat split; [exact Hnd|exact Hf| |].
      * eapply sublist_NoDup; eassumption.
      * intros u Hu. apply Hl. eapply elem_of_sublist; eassumption.
    + simpl. unfold bind, gets. rewrite Hx. exact Hs.
  - simpl. unfold bind, gets. destruct (timers s) as [|task rest] eqn:Ht; [exact Hs|].
    simpl. eapply fetch_frame_consistent; [apply fire_timer_fetch_frame|].
    revert Hs. apply consistent_frame; reflexivity.
Qed.

Lemma run_consistent E evs : forall s, consistent s -> consistent (run E evs s).
Proof.
  induction evs as [|ev evs IH]; intros s Hs; [exact Hs|].
  simpl. apply IH, step_consistent, Hs.
Qed.

Lemma initial_consistent p next : consistent (initial p next).
Proof.
  unfold consistent. simpl. repeat split; try apply NoDup_nil_2.
  - intros u H. inversion H.
  - intros u H. inversion H.
Qed.

(** X11: over the whole life of a page no locator is requested twice:
    not after a failure, and not however often it is injected. *)
Theorem no_locator_is_requested_twice E p next evs :
  NoDup (fetched (run E evs (initial p next))).
Proof.
  apply (run_consistent E evs (initial p next)), initial_consistent.
Qed.
Lemma slot_frame_refl url s : slot_frame url s s.
Proof. intros _ H. split; [reflexivity | exact H]. Qed.

Lemma slot_frame_trans url s1 s2 s3 :
  slot_frame url s1 s2 -> slot_frame url s2 s3 -> slot_frame url s1 s3.
Proof.
  intros H12 H23 Hc Hx. destruct (H12 Hc Hx) as [Hc2 Hx2].
  destruct H23 as [Hc3 Hx3]; [by rewrite Hc2 | exact Hx2 |].
  split; [congruence | exact Hx3].
Qed.

Lemma slot_frame_same url s s' :
  svgCache s' = svgCache s -> xhrs s' = xhrs s -> slot_frame url s s'.
Proof. intros Hc Hx _ H. rewrite Hc, Hx. auto. Qed.

Lemma loadSvg_present E u k s c :
  svgCache s !! u = Some c ->
  svgCache (snd (loadSvg E u k s)) = svgCache s /\
  xhrs (snd (loadSvg E u k s)) = xhrs s /\
  fetched (snd (loadSvg E u k s)) = fetched s /\
  timers (snd (loadSvg E u k s)) = timers s.
Proof.
  intros Hc. unfold loadSvg, bind, gets, cloneSvg. rewrite Hc.
  destruct c as [|root]; [repeat split|].
  destruct (isSVGSVGElement root); [|repeat split].
  destruct (invoke_fetch_frame E k (LNode (copy_at (nextRef s) root))
              (set_nextRef (nextRef s + size root)%nat s)) as (H1&_&H3&H2&H4).
  repeat split; assumption.
Qed.

Lemma loadSvg_slot_frame url E u k : preserves (slot_frame url) (loadSvg E u k).
Proof.
  intros s. destruct (svgCache s !! u) as [c|] eqn:Hc.
  - destruct (loadSvg_present E u k s c Hc) as (H1 & H2 & _).
    apply slot_frame_same; assumption.
  - destruct (hasXMLHttpRequest E) eqn:Hx.
    + rewrite loadSvg_absent by assumption. intros [c Hurl] Hnx. simpl.
      assert (u <> url) by congruence.
      rewrite lookup_insert_ne by assumption. split; [reflexivity|].
      rewrite map_app. simpl. rewrite elem_of_app, list_elem_of_singleton.
      intros [?|?]; [auto | congruence].
    + apply slot_frame_same; unfold loadSvg, bind, gets; rewrite Hc, Hx; reflexivity.
Qed.

Lemma SVGInjector_slot_frame url E el evalScripts callback :
  preserves (slot_frame url) (SVGInjector E el evalScripts callback).
Proof.
  intros s. unfold SVGInjector, getAttribute, bind, gets.
  destruct (find_entry el (page_entries (page s))) as [e|] eqn:He; simpl;
    [|apply slot_frame_refl].
  destruct (test_svg (to_string (e_attrs e !! "data-src"))); simpl;
    [|apply slot_frame_same; reflexivity].
  destruct (hasSvgSupport E); simpl.
  - destruct (indexOf el (injectedElements s)); simpl; [apply slot_frame_refl|].
    eapply slot_frame_trans; [|apply loadSvg_slot_frame].
    apply slot_frame_same; reflexivity.
  - rewrite He. simpl.
    destruct (e_attrs e !! "data-png") as [png|]; simpl;
      [|apply slot_frame_same; reflexivity].
    destruct (bool_decide (png = "")); simpl; apply slot_frame_same; reflexivity.
Qed.

(** The handler writes the cache at its own locator only. *)
Lemma onreadystatechange_writes_own_slot E url k resp s :
  let s' := snd (onreadystatechange E url k resp s) in
  xhrs s' = xhrs s /\ forall v, v <> url -> svgCache s' !! v = svgCache s !! v.
Proof.
  destruct (resolves E resp) as [doc|] eqn:Hres.
  - rewrite (onreadystatechange_resolves _ _ _ _ _ _ Hres).
    unfold bind. rewrite cache_document_eq.
    unfold processRequestQueue, bind, gets.
    match goal with |- context [requestQueue ?s0 !! url] =>
      destruct (requestQueue s0 !! url) as [q|] end; simpl.
    + rewrite schedule_all. simpl. split; [reflexivity|].
      intros v Hv. by rewrite lookup_insert_ne.
    + split; [reflexivity|]. intros v Hv. by rewrite lookup_insert_ne.
  - destruct (onreadystatechange_unresolved E url k resp s Hres) as (H1&_&H2&_).
    cbv zeta. rewrite H1, H2. auto.
Qed.

Lemma step_slot_frame url E ev : preserves (slot_frame url) (step E ev).
Proof.
  intros s. destruct ev as [el evalScripts callback|u resp|].
  - apply SVGInjector_slot_frame.
  - destruct (take_xhr u (xhrs s)) as [[k rest]|] eqn:Hx.
    + rewrite (step_xhr _ _ _ _ _ _ Hx).
      destruct (take_xhr_Some _ _ _ _ Hx) as (Hin & Hsub & _).
      intros Hc Hnx. assert (u <> url) as Hne by congruence.
      destruct (onreadystatechange_writes_own_slot E u k resp (set_xhrs rest s))
        as [H1 H2].
      rewrite H1, H2 by congruence. simpl. split; [reflexivity|].
      intros H. apply Hnx. eapply elem_of_sublist; eassumption.
    + simpl. unfold bind, gets. rewrite Hx. apply slot_frame_refl.
  - simpl. unfold bind, gets. destruct (timers s) as [|task rest]; [apply slot_frame_refl|].
    simpl. destruct (fire_timer_fetch_frame E task (set_timers rest s)) as (H1&_&_&H2&_).
    apply slot_frame_same; assumption.
Qed.

Lemma run_slot_frame url E evs : forall s, slot_frame url s (run E evs s).
Proof.
  induction evs as [|ev evs IH]; intros s; [apply slot_frame_refl|].
  simpl. eapply slot_frame_trans; [apply step_slot_frame | apply IH].
Qed.

(** X12: once a locator's node is in the cache it stays there, the same
    node, whatever happens afterwards: every later injection of the locator
    is cloned from it. *)
Theorem cached_node_is_never_replaced E p next evs evs' url root :
  let s := run E evs (initial p next) in
  svgCache s !! url = Some (Cached root) ->
  svgCache (run E evs' s) !! url = Some (Cached root).
Proof.
  intros s Hc.
  assert (consistent s) as (_ & _ & _ & Hl)
    by apply run_consistent, initial_consistent.
  destruct (run_slot_frame url E evs' s) as [H _]; [eauto| |congruence].
  intros Hin. rewrite (Hl _ Hin) in Hc. discriminate.
Qed.

Lemma cached_node_is_never_replaced_witness :
  svgCache
    (run Sample.env
       [Inject 2 None None; XhrDone "a.svg" (Sample.ok Sample.nested_script); TimerFires]
       Scenario.ready)
    !! "a.svg"
  = Some (Cached (copy_at 3 Sample.clip)).
Proof.
  apply (cached_node_is_never_replaced Sample.env
           [Sample.body [Sample.img 1 "a.svg"; Sample.img 2 "a.svg"]] 3
           [Inject 1 None (Some 7%nat); XhrDone "a.svg" (Sample.ok Sample.clip);
            TimerFires]
           [Inject 2 None None; XhrDone "a.svg" (Sample.ok Sample.nested_script);
            TimerFires]
           "a.svg" (copy_at 3 Sample.clip)).
  vm_compute. reflexivity.
Defined.

(** X13: a request that completes without resolving to a document leaves
    its locator marked as loading for good.  The locator is not requested
    again, and every later [loadSvg] for it only joins the queue: its
    callback is not called. *)
Theorem unresolved_locator_stays_loading E p next evs evs' url k rest httpRequest :
  let s := run E evs (initial p next) in
  take_xhr url (xhrs s) = Some (k, rest) ->
  resolves E httpRequest = None ->
  let s' := run E evs' (snd (step E (XhrDone url httpRequest) s)) in
  svgCache s' !! url = Some Loading
  /\ (url ∉ map fst (xhrs s'))
  /\ forall k',
       loadSvg E url k' s'
       = (Ok tt,
          set_requestQueue
            (<[url := default [] (requestQueue s' !! url) ++ [k']]> (requestQueue s')) s').
Proof.
  intros s Hx Hres s'.
  assert (consistent s) as (_ & _ & Hnd & Hl)
    by apply run_consistent, initial_consistent.
  destruct (take_xhr_Some _ _ _ _ Hx) as (Hin & _ & Hnot).
  assert (svgCache s' !! url = Some Loading /\ url ∉ map fst (xhrs s')) as [H1 H2].
  { subst s'. rewrite (step_xhr _ _ _ _ _ _ Hx).
    destruct (onreadystatechange_unresolved E url k httpRequest (set_xhrs rest s) Hres)
      as (Hc & _ & Hxs & _).
    match goal with |- context [run E evs' ?s0] =>
      destruct (run_slot_frame url E evs' s0) as [H1 H2] end.
    - rewrite Hc. simpl. rewrite (Hl _ Hin). eauto.
    - rewrite Hxs. simpl. auto.
    - split; [|exact H2]. rewrite H1, Hc. simpl. auto. }
  split; [exact H1|]. split; [exact H2|].
  intros k'. apply loadSvg_loading, H1.
Qed.

Lemma unresolved_locator_stays_loading_witness :
  let s' := run Sample.env [Inject 2 None (Some 8%nat); TimerFires]
              (snd (step Sample.env (XhrDone "a.svg" Sample.not_found)
                      (run Sample.env [Inject 1 None (Some 7%nat)]
                         Scenario.two_placeholders))) in
  svgCache s' !! "a.svg" = Some Loading /\ fetched s' = ["a.svg"].
Proof.
  destruct (unresolved_locator_stays_loading Sample.env
              [Sample.body [Sample.img 1 "a.svg"; Sample.img 2 "a.svg"]] 3
              [Inject 1 None (Some 7%nat)] [Inject 2 None (Some 8%nat); TimerFires]
              "a.svg" (mkContinuation 1 "always" (Some 7%nat) "a.svg") []
              Sample.not_found)
    as (H & _).
  - vm_compute; reflexivity.
  - reflexivity.
  - split; [exact H | vm_compute; reflexivity].
Defined.
(** ** Deferred deliveries (lines 35-46) *)

Lemma deliverable_frame s s' :
  svgCache s' = svgCache s -> requestQueue s' = requestQueue s -> timers s' = timers s ->
  deliverable s -> deliverable s'.
Proof. unfold deliverable. intros -> -> ->. auto. Qed.

Lemma deliverable_queued url k s :
  deliverable s ->
  deliverable
    (set_requestQueue
       (<[url := default [] (requestQueue s !! url) ++ [k]]> (requestQueue s)) s).
Proof.
  intros Hs u i Hin. destruct (Hs u i Hin) as (c & q & k0 & Hc & Hq & Hk). simpl.
  destruct (decide (u = url)) as [->|Hne].
  - rewrite Hq, lookup_insert_eq. simpl. exists c, (q ++ [k]), k0.
    repeat split; [exact Hc|]. apply lookup_app_l_Some, Hk.
  - rewrite lookup_insert_ne by congruence. eauto.
Qed.

Lemma loadSvg_deliverable E url k s :
  deliverable s -> deliverable (snd (loadSvg E url k s)).
Proof.
  intros Hs. destruct (svgCache s !! url) as [c|] eqn:Hc.
  - unfold loadSvg, bind, gets, cloneSvg. rewrite Hc.
    destruct c as [|root]; [apply deliverable_queued, Hs|].
    destruct (isSVGSVGElement root); [|apply deliverable_queued, Hs].
    destruct (invoke_fetch_frame E k (LNode (copy_at (nextRef s) root))
                (set_nextRef (nextRef s + size root)%nat s)) as (H1&H2&H3&_).
    revert Hs. apply deliverable_frame; assumption.
  - destruct (hasXMLHttpRequest E) eqn:Hx.
    + rewrite loadSvg_absent by assumption. simpl.
      intros u i Hin. simpl in Hin.
      destruct (Hs u i Hin) as (c & q & k0 & Hcu & Hq & Hk). simpl.
      assert (u <> url) by congruence.
      rewrite !lookup_insert_ne by congruence. eauto.
    + unfold loadSvg, bind, gets. rewrite Hc, Hx. simpl.
      revert Hs. apply deliverable_frame; reflexivity.
Qed.

Lemma SVGInjector_deliverable E el evalScripts callback s :
  deliverable s -> deliverable (snd (SVGInjector E el evalScripts callback s)).
Proof.
  intros Hs. unfold SVGInjector, getAttribute, bind, gets.
  destruct (find_entry el (page_entries (page s))) as [e|] eqn:He; simpl; [|exact Hs].
  destruct (test_svg (to_string (e_attrs e !! "data-src"))); simpl; [|exact Hs].
  destruct (hasSvgSupport E); simpl.
  - destruct (indexOf el (injectedElements s)); simpl; [exact Hs|].
    apply loadSvg_deliverable. exact Hs.
  - rewrite He. simpl.
    destruct (e_attrs e !! "data-png") as [png|]; simpl; [|exact Hs].
    destruct (bool_decide (png = "")); simpl; exact Hs.
Qed.

Lemma onreadystatechange_deliverable E url k resp s :
  is_Some (domParser E) ->
  deliverable s -> deliverable (snd (onreadystatechange E url k resp s)).
Proof.
  intros Hp Hs. destruct (resolves E resp) as [doc|] eqn:Hres.
  - rewrite (onreadystatechange_resolves _ _ _ _ _ _ Hres).
    unfold bind. rewrite cache_document_eq.
    assert (forall u i, (u, i) ∈ timers s ->
              exists c q k0,
                <[url:=Cached (copy_at (nextRef s) doc)]> (svgCache s) !! u = Some (Cached c)
                /\ requestQueue s !! u = Some q /\ q !! i = Some k0) as Hold.
    { intros u i Hin. destruct (Hs u i Hin) as (c & q & k0 & Hc & Hq & Hk).
      destruct (decide (u = url)) as [->|Hne].
      - rewrite lookup_insert_eq. eauto 6.
      - rewrite lookup_insert_ne by congruence. eauto 6. }
    unfold processRequestQueue, bind, gets.
    match goal with |- context [requestQueue ?s0 !! url] =>
      change (requestQueue s0 !! url) with (requestQueue s !! url) end.
    destruct (requestQueue s !! url) as [q|] eqn:Hq; simpl; [|exact Hold].
    rewrite schedule_all. intros u i Hin. simpl in *.
    apply elem_of_app in Hin as [Hin|Hin]; [auto|].
    apply list_elem_of_fmap in Hin as (j & [= -> ->] & Hj).
    apply elem_of_seq in Hj as [_ Hj]. simpl in Hj.
    destruct (lookup_lt_is_Some_2 q j Hj) as [k0 Hk0].
    rewrite lookup_insert_eq. eauto 6.
  - destruct (onreadystatechange_unresolved E url k resp s Hres) as (H1&H2&_&_&_&H3).
    revert Hs. apply deliverable_frame; auto.
Qed.

Lemma step_deliverable E ev s :
  is_Some (domParser E) -> deliverable s -> deliverable (snd (step E ev s)).
Proof.
  intros Hp Hs. destruct ev as [el evalScripts callback|url resp|].
  - apply SVGInjector_deliverable, Hs.
  - destruct (take_xhr url (xhrs s)) as [[k rest]|] eqn:Hx.
    + rewrite (step_xhr _ _ _ _ _ _ Hx).
      apply onreadystatechange_deliverable; [exact Hp | exact Hs].
    + simpl. unfold bind, gets. rewrite Hx. exact Hs.
  - simpl. unfold bind, gets. destruct (timers s) as [|task rest] eqn:Ht; [exact Hs|].
    simpl. destruct (fire_timer_fetch_frame E task (set_timers rest s)) as (H1&H2&H3&_).
    eapply deliverable_frame; [exact H1 | exact H2 | exact H3 |].
    intros u i Hin. apply Hs. rewrite Ht. right. exact Hin.
Qed.

Lemma run_deliverable E evs :
  is_Some (domParser E) -> forall s, deliverable s -> deliverable (run E evs s).
Proof.
  intros Hp. induction evs as [|ev evs IH]; intros s Hs; [exact Hs|].
  simpl. apply IH, step_deliverable; assumption.
Qed.

(** X14: where [DOMParser] exists, a deferred delivery always finds what
    it reads.  When the oldest pending task runs, its locator is cached and
    its index holds a callback, and that callback is called with a new
    clone of the cached node. *)
Theorem scheduled_delivery_reaches_its_callback E p next evs url index rest :
  is_Some (domParser E) ->
  let s := run E evs (initial p next) in
  timers s = (url, index) :: rest ->
  exists root q k,
    svgCache s !! url = Some (Cached root) /\
    requestQueue s !! url = Some q /\ q !! index = Some k /\
    delivered (snd (step E TimerFires s))
      = delivered s ++ [(k, LNode (copy_at (nextRef s) root))].
Proof.
  intros Hp s Ht.
  assert (deliverable s) as Hs.
  { apply run_deliverable; [exact Hp|]. intros u i H. inversion H. }
  destruct (Hs url index) as (root & q & k & Hc & Hq & Hk); [rewrite Ht; left|].
  exists root, q, k. repeat split; try assumption.
  rewrite (step_timer _ _ _ _ Ht).
  destruct (fire_timer_delivers E url index root q k (set_timers rest s) Hc Hq Hk)
    as (Hd & _).
  exact Hd.
Qed.

Lemma scheduled_delivery_reaches_its_callback_witness :
  let E := mkEnv false true true (Some (fun _ => None)) (fun _ => false)
             (fun _ _ => None) in
  let s := run E [Inject 1 None (Some 7%nat); XhrDone "a.svg" (Sample.ok Sample.clip)]
             (initial [Sample.body [Sample.img 1 "a.svg"]] 2) in
  exists root q k,
    svgCache s !! "a.svg" = Some (Cached root) /\
    requestQueue s !! "a.svg" = Some q /\ q !! 0%nat = Some k /\
    delivered (snd (step E TimerFires s))
      = delivered s ++ [(k, LNode (copy_at (nextRef s) root))].
Proof.
  apply (scheduled_delivery_reaches_its_callback
           (mkEnv false true true (Some (fun _ => None)) (fun _ => false)
              (fun _ _ => None))
           [Sample.body [Sample.img 1 "a.svg"]] 2
           [Inject 1 None (Some 7%nat); XhrDone "a.svg" (Sample.ok Sample.clip)]
           "a.svg" 0%nat []).
  - eexists. reflexivity.
  - vm_compute. reflexivity.
Defined.
(** ** The tracker (lines 203-213 and 314-316) *)

Lemma tracked_push l el : tracked (l ++ [Some el]) = tracked l ++ [el].
Proof. unfold tracked. rewrite omap_app. reflexivity. Qed.

Lemma tracked_elem el l : el ∈ tracked l <-> Some el ∈ l.
Proof.
  unfold tracked. rewrite list_elem_of_omap. split.
  - intros (x & Hx & Hid). simpl in Hid. congruence.
  - intros H. exists (Some el). auto.
Qed.

Lemma tracked_hole l : forall i, tracked (<[i := None]> l) `sublist_of` tracked l.
Proof.
  induction l as [|x l IH]; intros i; [reflexivity|].
  destruct i as [|i]; simpl.
  - destruct x; simpl; [apply sublist_cons|]; reflexivity.
  - destruct x; simpl; [apply sublist_skip|]; apply IH.
Qed.

Lemma tracked_released el l :
  NoDup (tracked l) -> el ∉ tracked (delete_injected el l).
Proof.
  unfold delete_injected. induction l as [|x l IH]; simpl; [intros _ H; inversion H|].
  destruct (decide (x = Some el)) as [->|Hne]; simpl.
  - intros Hnd. apply NoDup_cons in Hnd as [H _]. exact H.
  - intros Hnd. assert (NoDup (tracked l)) as Hl.
    { destruct x; simpl in Hnd; [apply NoDup_cons in Hnd as [_ ?]|]; assumption. }
    specialize (IH Hl). destruct (indexOf el l) as [i|]; simpl in *.
    + destruct x as [r|]; simpl; [|exact IH].
      apply not_elem_of_cons. split; [congruence | exact IH].
    + destruct x as [r|]; simpl; [|exact IH].
      apply not_elem_of_cons. split; [congruence | exact IH].
Qed.

Lemma delete_injected_once el l : NoDup (tracked l) -> NoDup (tracked (delete_injected el l)).
Proof.
  unfold delete_injected. destruct (indexOf el l) as [i|]; [|auto].
  intros H. eapply sublist_NoDup; [exact H | apply tracked_hole].
Qed.

Lemma tracked_once_frame s s' :
  injectedElements s' = injectedElements s -> keeps tracked_once s s'.
Proof. unfold keeps, tracked_once. intros ->. auto. Qed.

Lemma styleRefresh_tracked svg : preserves (keeps tracked_once) (styleRefresh svg).
Proof.
  intros s. apply tracked_once_frame.
  apply (styleRefresh_same svg s injectedElements). reflexivity.
Qed.

Lemma cloneSvg_tracked src : preserves (keeps tracked_once) (cloneSvg src).
Proof. intros s. apply tracked_once_frame. reflexivity. Qed.

#[local] Hint Resolve styleRefresh_tracked cloneSvg_tracked : core.

Lemma continuation_tracked E k arg : preserves (keeps tracked_once) (continuation E k arg).
Proof.
  unfold continuation, evalScriptsIfNeeded, finish, call, run_script, replaceChild.
  destruct arg as [|msg|[root tag attrs ch|r d]].
  all: repeat preserve_step.
  all: try (apply tracked_once_frame; reflexivity).
  unfold keeps, tracked_once. simpl. apply delete_injected_once.
Qed.

#[local] Hint Resolve continuation_tracked : core.

Lemma invoke_tracked E k arg : preserves (keeps tracked_once) (invoke E k arg).
Proof. unfold invoke. repeat preserve_step. apply tracked_once_frame. reflexivity. Qed.

#[local] Hint Resolve invoke_tracked : core.

Lemma fire_timer_tracked E task : preserves (keeps tracked_once) (fire_timer E task).
Proof. unfold fire_timer. destruct task as [url index]. repeat preserve_step. Qed.

Lemma onreadystatechange_tracked E url k resp :
  preserves (keeps tracked_once) (onreadystatechange E url k resp).
Proof.
  unfold onreadystatechange, cache_document, processRequestQueue, setTimeout.
  repeat preserve_step.
  all: apply tracked_once_frame; reflexivity.
Qed.

Lemma loadSvg_tracked E url k : preserves (keeps tracked_once) (loadSvg E url k).
Proof.
  unfold loadSvg, queueRequest.
  repeat preserve_step.
  all: apply tracked_once_frame; reflexivity.
Qed.

Lemma SVGInjector_tracked E el evalScripts callback :
  preserves (keeps tracked_once) (SVGInjector E el evalScripts callback).
Proof.
  intros s Hs. unfold SVGInjector, getAttribute, bind, gets.
  destruct (find_entry el (page_entries (page s))) as [e|] eqn:He; simpl; [|exact Hs].
  destruct (test_svg (to_string (e_attrs e !! "data-src"))); simpl; [|exact Hs].
  destruct (hasSvgSupport E); simpl.
  - destruct (indexOf el (injectedElements s)) eqn:Hi; simpl; [exact Hs|].
    apply loadSvg_tracked. unfold tracked_once. simpl. rewrite tracked_push.
    apply NoDup_app. repeat split; [exact Hs| |apply NoDup_singleton].
    intros x Hx Hx'. apply list_elem_of_singleton in Hx' as ->.
    apply tracked_elem in Hx. eapply indexOf_not_elem; eassumption.
  - rewrite He. simpl.
    destruct (e_attrs e !! "data-png") as [png|]; simpl; [|exact Hs].
    destruct (bool_decide (png = "")); simpl; exact Hs.
Qed.

Lemma step_tracked E ev : preserves (keeps tracked_once) (step E ev).
Proof.
  destruct ev as [el evalScripts callback|url resp|]; simpl.
  - apply SVGInjector_tracked.
  - pose proof (onreadystatechange_tracked E url).
    repeat preserve_step. apply tracked_once_frame. reflexivity.
  - pose proof (fire_timer_tracked E).
    repeat preserve_step. apply tracked_once_frame. reflexivity.
Qed.

Lemma run_tracked E evs : forall s, tracked_once s -> tracked_once (run E evs s).
Proof.
  induction evs as [|ev evs IH]; intros s Hs; [exact Hs|].
  simpl. apply IH, step_tracked, Hs.
Qed.

(** ** The success path of the continuation (lines 284-322) *)

Lemma evalScriptsIfNeeded_eq E k scripts s :
  (runs_scripts k scripts s = true ->
   Forall (fun q => script_raises E q = false) scripts) ->
  evalScriptsIfNeeded E k scripts s =
    (Ok tt,
     if runs_scripts k scripts s
     then set_ranScripts (<[k_imgUrl k := true]> (ranScripts s))
            (set_evaluated (evaluated s ++ scripts) s)
     else s).
Proof.
  intros Hq. unfold evalScriptsIfNeeded, runs_scripts in *. unfold bind at 1. unfold gets.
  destruct (_ && _); [|reflexivity].
  unfold bind. rewrite run_scripts_quiet by auto. reflexivity.
Qed.

Lemma finish_eq k root svg s :
  finish k root svg s =
    let final := refresh_styles svg (nextRef s) in
    match find_entry (k_el k) (page_entries (page s)) with
    | Some e =>
        match e_anc e with
        | _ :: _ =>
            (Ok tt,
             set_reported (reported s ++ [(k_callback k, [VNull; VNode root])])
               (set_injectCount (injectCount s + 1)%N
                  (set_injectedElements (delete_injected (k_el k) (injectedElements s))
                     (set_page
                        (map (replace_node (k_el k) (fst final)) (page s) ++ [e_node e])
                        (set_nextRef (snd final) s)))))
        | [] => (Throw TypeError, set_nextRef (snd final) s)
        end
    | None => (Throw TypeError, set_nextRef (snd final) s)
    end.
Proof.
  unfold finish, styleRefresh, replaceChild, bind, gets. cbv zeta.
  destruct (refresh_styles svg (nextRef s)) as [svg1 next]. simpl.
  destruct (find_entry (k_el k) (page_entries (page s))) as [e|]; [|reflexivity].
  destruct (e_anc e); reflexivity.
Qed.
(** Lines 284-322 when no payload raises and the placeholder has a
    parent. *)
Lemma scripts_then_finish E k s root payloads svg' e :
  (runs_scripts k payloads s = true ->
   Forall (fun q => script_raises E q = false) payloads) ->
  find_entry (k_el k) (page_entries (page s)) = Some e ->
  e_anc e <> [] ->
  let final := refresh_styles svg' (nextRef s) in
  (evalScriptsIfNeeded E k payloads ;; finish k root svg') s =
    (Ok tt,
     set_reported (reported s ++ [(k_callback k, [VNull; VNode root])])
       (set_injectCount (injectCount s + 1)%N
          (set_injectedElements (delete_injected (k_el k) (injectedElements s))
             (set_page (map (replace_node (k_el k) (fst final)) (page s) ++ [e_node e])
                (set_nextRef (snd final)
                   (if runs_scripts k payloads s
                    then set_ranScripts (<[k_imgUrl k := true]> (ranScripts s))
                           (set_evaluated (evaluated s ++ payloads) s)
                    else s)))))).
Proof.
  intros Hquiet He Hanc final. unfold bind.
  rewrite (evalScriptsIfNeeded_eq _ _ _ _ Hquiet), finish_eq.
  assert (forall s1 : State,
            page s1 = page s -> nextRef s1 = nextRef s ->
            reported s1 = reported s -> injectCount s1 = injectCount s ->
            injectedElements s1 = injectedElements s ->
            match find_entry (k_el k) (page_entries (page s1)) with
            | Some e0 =>
                match e_anc e0 with
                | [] => (Throw TypeError,
                         set_nextRef (snd (refresh_styles svg' (nextRef s1))) s1)
                | _ :: _ =>
                    (Ok tt,
                     set_reported (reported s1 ++ [(k_callback k, [VNull; VNode root])])
                       (set_injectCount (injectCount s1 + 1)%N
                          (set_injectedElements
                             (delete_injected (k_el k) (injectedElements s1))
                             (set_page
                                (map (replace_node (k_el k)
                                        (fst (refresh_styles svg' (nextRef s1))))
                                   (page s1) ++ [e_node e0])
                                (set_nextRef (snd (refresh_styles svg' (nextRef s1)))
                                   s1)))))
                end
            | None => (Throw TypeError,
                       set_nextRef (snd (refresh_styles svg' (nextRef s1))) s1)
            end
            = (Ok tt,
               set_reported (reported s ++ [(k_callback k, [VNull; VNode root])])
                 (set_injectCount (injectCount s + 1)%N
                    (set_injectedElements (delete_injected (k_el k) (injectedElements s))
                       (set_page
                          (map (replace_node (k_el k) (fst final)) (page s) ++ [e_node e])
                          (set_nextRef (snd final) s1)))))) as Hfin.
  { intros s1 -> -> -> -> ->. rewrite He. destruct (e_anc e); [congruence|reflexivity]. }
  cbv zeta. destruct (runs_scripts k payloads s); apply Hfin; reflexivity.
Qed.

(** X15: when the continuation gets a node, the scripts it found do not
    raise and the placeholder still has a parent, it runs to its end.  The
    payloads are run, in document order, exactly when line 285 says so, and
    the run is recorded; the placeholder's place in the page is taken by the
    pruned tree with its styles refreshed, the placeholder stays behind as a
    detached tree, its tracker slot becomes a hole, the counter goes up by
    one and the callback gets [(null, svg)]. *)
Theorem injection_completes E k s root tag attrs ch payloads svg' e :
  let svg := Element root tag attrs ch in
  collected E (injectCount s) svg = Ok (payloads, svg') ->
  (runs_scripts k payloads s = true ->
   Forall (fun q => script_raises E q = false) payloads) ->
  find_entry (k_el k) (page_entries (page s)) = Some e ->
  e_anc e <> [] ->
  let final := refresh_styles svg' (nextRef s) in
  continuation E k (LNode svg) s =
    (Ok tt,
     set_reported (reported s ++ [(k_callback k, [VNull; VNode root])])
       (set_injectCount (injectCount s + 1)%N
          (set_injectedElements (delete_injected (k_el k) (injectedElements s))
             (set_page (map (replace_node (k_el k) (fst final)) (page s) ++ [e_node e])
                (set_nextRef (snd final)
                   (if runs_scripts k payloads s
                    then set_ranScripts (<[k_imgUrl k := true]> (ranScripts s))
                           (set_evaluated (evaluated s ++ payloads) s)
                    else s)))))).
Proof.
  intros svg Hcol Hquiet He Hanc final. subst svg.
  rewrite continuation_element, Hcol.
  apply scripts_then_finish; assumption.
Qed.

Lemma injection_completes_witness :
  let E := Sample.env in
  let k := mkContinuation 1 "always" (Some 7%nat) "a.svg" in
  let s := Scenario.arrived Scenario.one_script in
  let r := continuation E k (LNode (Scenario.one_script_clone 5)) s in
  fst r = Ok tt
  /\ evaluated (snd r) = ["go()"]
  /\ reported (snd r) = [(Some 7%nat, [VNull; VNode 5])]
  /\ injectedElements (snd r) = [None]
  /\ injectCount (snd r) = 1%N
  /\ page (snd r)
     = [ Sample.body [Element 5 "svg" Scenario.stretched []];
         Element 1 "img" {[ "data-src" := "a.svg"; "src" := "" ]} [] ].
Proof.
  pose proof (injection_completes Sample.env
                (mkContinuation 1 "always" (Some 7%nat) "a.svg")
                (Scenario.arrived Scenario.one_script)
                5%nat "svg" ∅ [Element 6 "script" ∅ [Text 7 "go()"]]
                ["go()"] (Element 5 "svg" Scenario.stretched [])
                (mkEntry [(0%nat, "body")] 1 "img"
                   {[ "data-src" := "a.svg"; "src" := "" ]}
                   (Element 1 "img" {[ "data-src" := "a.svg"; "src" := "" ]} [])))
    as H.
  cbv zeta in H. cbv zeta. unfold Scenario.one_script_clone.
  rewrite H.
  - vm_compute. repeat split.
  - vm_compute. reflexivity.
  - intros _. repeat constructor.
  - vm_compute. reflexivity.
  - discriminate.
Defined.

Lemma evalScriptsIfNeeded_tracker E k scripts s :
  injectedElements (snd (evalScriptsIfNeeded E k scripts s)) = injectedElements s.
Proof.
  unfold evalScriptsIfNeeded, bind, gets. destruct (_ && _); [|done].
  assert (forall l s0,
            injectedElements (snd (for_each l (run_script E) s0)) = injectedElements s0)
    as Hloop.
  { induction l as [|q l IH]; intros s0; [done|].
    rewrite for_each_cons, run_script_eq.
    destruct (script_raises E q); [done|]. by rewrite IH. }
  specialize (Hloop scripts s).
  by destruct (for_each scripts (run_script E) s) as [[[]|e] s1].
Qed.

(** X16: in every state the module can reach, a continuation that runs to
    its end leaves its placeholder out of [injectedElements]: the element
    that was injected is no longer held back by the race guard. *)
Theorem injected_element_is_released E p next evs k svg s' :
  let s := run E evs (initial p next) in
  continuation E k (LNode svg) s = (Ok tt, s') ->
  Some (k_el k) ∉ injectedElements s'.
Proof.
  intros s Hk.
  assert (tracked_once s) as Hs by (apply run_tracked; apply NoDup_nil_2).
  assert (injectedElements s' = delete_injected (k_el k) (injectedElements s)) as ->.
  { destruct svg as [root tag attrs ch|r d]; [|done].
    rewrite continuation_element in Hk.
    destruct (collected E (injectCount s) _) as [[scripts svg']|e]; [|done].
    unfold bind in Hk.
    pose proof (evalScriptsIfNeeded_tracker E k scripts s) as H1.
    destruct (evalScriptsIfNeeded E k scripts s) as [[[]|e] s1]; [|done].
    simpl in H1. rewrite finish_eq in Hk. cbv zeta in Hk.
    destruct (find_entry (k_el k) (page_entries (page s1))) as [e|]; [|done].
    destruct (e_anc e); [done|]. injection Hk as <-. simpl. by rewrite H1. }
  rewrite <- tracked_elem. apply tracked_released, Hs.
Qed.

Lemma injected_element_is_released_witness :
  let s := Scenario.arrived Scenario.one_script in
  let k := mkContinuation 1 "always" (Some 7%nat) "a.svg" in
  Some 1%nat ∈ injectedElements s /\
  Some 1%nat ∉ injectedElements
                 (snd (continuation Sample.env k (LNode (Scenario.one_script_clone 5)) s)).
Proof.
  split; [vm_compute; left|].
  apply (injected_element_is_released Sample.env
           [Sample.body [Sample.img 1 "a.svg"]] 2
           [Inject 1 None (Some 7%nat); XhrDone "a.svg" (Sample.ok Scenario.one_script)]
           (mkContinuation 1 "always" (Some 7%nat) "a.svg")
           (Scenario.one_script_clone 5)
           (snd (continuation Sample.env
                   (mkContinuation 1 "always" (Some 7%nat) "a.svg")
                   (LNode (Scenario.one_script_clone 5))
                   (Scenario.arrived Scenario.one_script)))).
  vm_compute. reflexivity.
Defined.

(** X17: under a policy other than [always] and [once] (such as [never])
    no payload is ever run and no run is recorded, whatever the
    continuation is given. *)
Theorem other_policy_runs_no_script E k arg s :
  k_evalScripts k <> "always" -> k_evalScripts k <> "once" ->
  let s' := snd (continuation E k arg s) in
  evaluated s' = evaluated s /\ ranScripts s' = ranScripts s.
Proof.
  intros Ha Ho. destruct arg as [|msg|[root tag attrs ch|r d]]; try (split; reflexivity).
  cbv zeta. rewrite continuation_element.
  destruct (collected E (injectCount s) _) as [[scripts svg']|e]; [|split; reflexivity].
  unfold bind, evalScriptsIfNeeded, gets.
  rewrite (bool_decide_eq_false_2 _ Ha), (bool_decide_eq_false_2 _ Ho).
  destruct (bool_decide (scripts ≠ [])); cbn [andb orb]; unfold ret;
    apply finish_scripts_frame.
Qed.

Lemma other_policy_runs_no_script_witness :
  let s := Scenario.arrived Scenario.one_script in
  let k := mkContinuation 1 "never" (Some 7%nat) "a.svg" in
  let r := continuation Sample.env k (LNode (Scenario.one_script_clone 5)) s in
  evaluated (snd r) = [] /\ ranScripts (snd r) = ∅
  /\ page (snd r)
     = [ Sample.body [Element 5 "svg" Scenario.stretched []];
         Element 1 "img" {[ "data-src" := "a.svg"; "src" := "" ]} [] ].
Proof.
  destruct (other_policy_runs_no_script Sample.env
              (mkContinuation 1 "never" (Some 7%nat) "a.svg")
              (LNode (Scenario.one_script_clone 5))
              (Scenario.arrived Scenario.one_script)) as [H1 H2].
  - discriminate.
  - discriminate.
  - split; [exact H1|]. split; [exact H2|]. vm_compute. reflexivity.
Defined.
(** ** When the identifier rewriting returns (lines 231-253) *)

Lemma rewrite_properties_safe E c newId ps : forall svg,
  selector_safe c = true ->
  exists t', fold_result (rewrite_property E c newId) ps svg = Ok t'.
Proof.
  induction ps as [|p ps IH]; intros svg Hsafe; simpl; [eauto|].
  unfold rewrite_property at 1. unfold query_referencing. rewrite Hsafe. auto.
Qed.

Lemma rewrite_definition_safe E count ps svg d :
  selector_safe (id_at d svg) = true ->
  exists t', rewrite_definition E count ps svg d = Ok t'.
Proof.
  intros Hsafe. unfold rewrite_definition.
  destruct (rewrite_properties_safe E (id_at d svg)
              (id_at d svg +:+ "-" +:+ number_to_string count) ps svg Hsafe) as [t1 ->].
  eauto.
Qed.

Section RewritingProgress.

Variable E : Env.
Variable count : N.
Variable t0 : node.
Hypothesis unique_refs : NoDup (map e_ref (entries [] t0)).

Local Notation "'sfx'" := ("-" +:+ number_to_string count).
Local Notation "'inv'" := (rewriting_inv t0 sfx).

Lemma progress_definitions ps tag : forall ds dr dcp F,
  inv dr dcp F -> Forall (fun p => p <> "id") ps ->
  NoDup (dr ++ ds) -> (forall d, d ∈ ds -> d ∈ defs_of t0 tag) ->
  (forall d, d ∈ ds -> selector_safe (id_at d t0) = true) ->
  exists t', fold_result (rewrite_definition E count ps) ds (map_attrs F t0) = Ok t'.
Proof.
  induction ds as [|d ds IH]; intros dr dcp F Hinv Hps Hnd Hin Hsafe; simpl; [eauto|].
  assert (d ∉ dr) as Hd.
  { apply NoDup_app in Hnd as (_ & Hnd & _). intros H. apply (Hnd d H). left. }
  destruct (rewrite_definition_safe E count ps (map_attrs F t0) d) as [t1 Ht1].
  { rewrite (id_at_current count t0 dr dcp F d Hinv Hd). apply Hsafe. left. }
  rewrite Ht1.
  destruct (inv_definition E count t0 unique_refs dr dcp F ps d tag t1 Hinv Hps Hd)
    as (F1 & -> & Hinv1); [apply Hin; left | exact Ht1 |].
  apply (IH (dr ++ [d]) _ F1 Hinv1 Hps).
  - rewrite <- app_assoc. exact Hnd.
  - intros d' Hd'. apply Hin. right. exact Hd'.
  - intros d' Hd'. apply Hsafe. right. exact Hd'.
Qed.

Lemma progress_categories : forall cats dr dcp F,
  inv dr dcp F ->
  Forall (fun cat : string * list string => Forall (fun p => p <> "id") (snd cat)) cats ->
  NoDup (dr ++ flat_map (fun cat => defs_of t0 (fst cat)) cats) ->
  (forall cat d, cat ∈ cats -> d ∈ defs_of t0 (fst cat) ->
                 selector_safe (id_at d t0) = true) ->
  exists t', fold_result (rewrite_category E count) cats (map_attrs F t0) = Ok t'.
Proof.
  induction cats as [|cat cats IH]; intros dr dcp F Hinv Hps Hnd Hsafe; simpl; [eauto|].
  apply Forall_cons in Hps as [Hp Hps]. simpl in Hnd. rewrite app_assoc in Hnd.
  assert (NoDup (dr ++ defs_of t0 (fst cat))) as Hnd1
    by (apply NoDup_app in Hnd as (H & _); exact H).
  unfold rewrite_category at 1.
  change (map e_ref (querySelectorAll (SelDefsId (fst cat)) (map_attrs F t0)))
    with (defs_of (map_attrs F t0) (fst cat)).
  rewrite (defs_of_current count t0 unique_refs dr dcp F (fst cat) Hinv).
  destruct (progress_definitions (snd cat) (fst cat) (defs_of t0 (fst cat)) dr dcp F
              Hinv Hp Hnd1) as [t1 Ht1]; [auto | |].
  { intros d Hd. apply (Hsafe cat d); [left | exact Hd]. }
  rewrite Ht1.
  destruct (inv_definitions E count t0 unique_refs (snd cat) (fst cat)
              (defs_of t0 (fst cat)) dr dcp F t1 Hinv Hp Hnd1) as (F1 & -> & Hinv1);
    [auto | exact Ht1 |].
  apply (IH _ _ F1 Hinv1 Hps Hnd).
  intros cat' d Hcat' Hd. apply (Hsafe cat' d); [right; exact Hcat' | exact Hd].
Qed.

Lemma def_id_scoped cat d :
  cat ∈ iriElementsAndProperties -> d ∈ defs_of t0 (fst cat) ->
  id_at d t0 ∈ scoped_ids t0.
Proof.
  intros Hcat Hd. unfold defs_of in Hd.
  apply list_elem_of_fmap in Hd as (e & -> & He).
  assert (e ∈ entries [] t0) as He0.
  { apply list_elem_of_filter in He as [_ He].
    destruct (entries [] t0); [by apply elem_of_nil in He | by right]. }
  unfold id_at, attr_at. rewrite (find_entry_unique _ _ unique_refs He0). simpl.
  unfold scoped_ids. apply list_elem_of_In, in_flat_map. exists cat.
  split; [by apply list_elem_of_In|]. apply list_elem_of_In, list_elem_of_fmap.
  exists e. split; [reflexivity | exact He].
Qed.

End RewritingProgress.

(** With unique references and safe identifiers the rewriting returns. *)
Lemma makeIdsUnique_progress E count t :
  NoDup (map e_ref (entries [] t)) ->
  (forall cat d, cat ∈ iriElementsAndProperties -> d ∈ defs_of t (fst cat) ->
                 selector_safe (id_at d t) = true) ->
  exists t', makeIdsUnique E count t = Ok t'.
Proof.
  intros Hnd Hsafe.
  destruct (progress_categories E count t Hnd iriElementsAndProperties [] []
              (fun _ a => a) (inv_start count t) table_properties_not_id)
    as [t' Ht'].
  - exact (all_defs_NoDup t Hnd iriElementsAndProperties table_tags_NoDup).
  - exact Hsafe.
  - exists t'. rewrite map_attrs_id in Ht'. exact Ht'.
Qed.

(** X18: the identifier rewriting returns a tree whenever every
    identifier in category scope can stand between the double quotes of the
    attribute selector (no quote, backslash, line break or NUL in it);
    only otherwise does [querySelectorAll] on line 245 get a selector the
    browser may reject. *)
Theorem rewriting_returns_on_safe_ids E count t :
  NoDup (map e_ref (entries [] t)) ->
  (forall i, i ∈ scoped_ids t -> selector_safe i = true) ->
  exists t', makeIdsUnique E count t = Ok t'.
Proof.
  intros Hnd Hsafe. apply makeIdsUnique_progress; [exact Hnd|].
  intros cat d Hcat Hd. apply Hsafe. eapply def_id_scoped; eassumption.
Qed.

Lemma rewriting_returns_on_safe_ids_witness :
  exists t', makeIdsUnique Sample.env 3 (copy_at 1 Sample.overlapping) = Ok t'.
Proof.
  apply (rewriting_returns_on_safe_ids Sample.env 3 (copy_at 1 Sample.overlapping)).
  - apply (bool_decide_unpack _). vm_compute. reflexivity.
  - intros i Hi. vm_compute in Hi.
    apply elem_of_cons in Hi as [->|Hi]; [reflexivity|].
    apply elem_of_cons in Hi as [->|Hi]; [reflexivity|].
    inversion Hi.
Defined.
(** ** What the identifier rewriting leaves alone *)

Lemma same_root_refl t : same_root t t.
Proof. repeat split. Qed.

Lemma same_root_trans t1 t2 t3 : same_root t1 t2 -> same_root t2 t3 -> same_root t1 t3.
Proof. intros (?&?&?) (?&?&?). repeat split; congruence. Qed.

Lemma entries_refs_map_attrs f t :
  map e_ref (entries [] (map_attrs f t)) = map e_ref (entries [] t).
Proof. rewrite entries_map_attrs, map_map. reflexivity. Qed.

Lemma same_root_setAttribute r p v t :
  r <> node_ref t -> same_root t (setAttribute r p v t).
Proof.
  intros Hr. split; [|split].
  - destruct t; reflexivity.
  - destruct t as [r0 tag attrs ch|]; [|reflexivity]. simpl in *.
    rewrite decide_False by congruence. reflexivity.
  - apply entries_refs_map_attrs.
Qed.

Lemma below_root t r :
  NoDup (map e_ref (entries [] t)) ->
  r ∈ tail (map e_ref (entries [] t)) -> r <> node_ref t.
Proof.
  destruct t as [r0 tag attrs ch|r0 d]; simpl; [|intros _ H; inversion H].
  intros Hnd Hr ->. apply NoDup_cons in Hnd as [H _]. exact (H Hr).
Qed.

Lemma tail_map {A B} (f : A -> B) l : tail (map f l) = map f (tail l).
Proof. destruct l; reflexivity. Qed.

Lemma same_root_fold p v : forall matched t,
  (forall r, r ∈ matched -> r <> node_ref t) ->
  same_root t (fold_left (fun t r => setAttribute r p v t) matched t).
Proof.
  induction matched as [|r matched IH]; intros t Hm; simpl; [apply same_root_refl|].
  assert (same_root t (setAttribute r p v t)) as H1
    by (apply same_root_setAttribute, Hm; left).
  eapply same_root_trans; [exact H1|]. apply IH.
  intros r' Hr'. destruct H1 as (-> & _). apply Hm. right. exact Hr'.
Qed.

Lemma query_referencing_below E p c svg matched :
  query_referencing E p c svg = Ok matched ->
  forall r, r ∈ matched -> r ∈ tail (map e_ref (entries [] svg)).
Proof.
  unfold query_referencing, querySelectorAll. rewrite tail_map.
  destruct (selector_safe c).
  - intros [= <-] r Hr. apply list_elem_of_fmap in Hr as (e & -> & He).
    apply list_elem_of_filter in He as [_ He]. apply list_elem_of_fmap. eauto.
  - destruct (other_selector E _ svg) as [l|]; [|discriminate].
    intros [= <-] r Hr. apply list_elem_of_filter in Hr as [Hr _]. exact Hr.
Qed.

Lemma same_root_property E c newId svg p t' :
  NoDup (map e_ref (entries [] svg)) ->
  rewrite_property E c newId svg p = Ok t' -> same_root svg t'.
Proof.
  intros Hnd. unfold rewrite_property.
  destruct (query_referencing E p c svg) as [matched|] eqn:Hq; [|discriminate].
  intros [= <-]. apply same_root_fold. intros r Hr.
  apply below_root; [exact Hnd|]. eapply query_referencing_below; eassumption.
Qed.

Lemma same_root_properties E c newId ps : forall svg t',
  NoDup (map e_ref (entries [] svg)) ->
  fold_result (rewrite_property E c newId) ps svg = Ok t' -> same_root svg t'.
Proof.
  induction ps as [|p ps IH]; intros svg t' Hnd; simpl.
  - intros [= <-]. apply same_root_refl.
  - destruct (rewrite_property E c newId svg p) as [t1|] eqn:H1; [|discriminate].
    intros H2. pose proof (same_root_property _ _ _ _ _ _ Hnd H1) as Hs1.
    eapply same_root_trans; [exact Hs1|]. apply (IH t1 t'); [|exact H2].
    destruct Hs1 as (_ & _ & ->). exact Hnd.
Qed.

Lemma same_root_definition E count ps svg d t' :
  NoDup (map e_ref (entries [] svg)) ->
  d ∈ tail (map e_ref (entries [] svg)) ->
  rewrite_definition E count ps svg d = Ok t' -> same_root svg t'.
Proof.
  intros Hnd Hd. unfold rewrite_definition.
  destruct (fold_result _ ps svg) as [t1|] eqn:H1; [|discriminate].
  intros [= <-]. pose proof (same_root_properties _ _ _ _ _ _ Hnd H1) as Hs1.
  eapply same_root_trans; [exact Hs1|]. apply same_root_setAttribute.
  destruct Hs1 as (-> & _). apply below_root; assumption.
Qed.

Lemma same_root_definitions E count ps : forall ds svg t',
  NoDup (map e_ref (entries [] svg)) ->
  (forall d, d ∈ ds -> d ∈ tail (map e_ref (entries [] svg))) ->
  fold_result (rewrite_definition E count ps) ds svg = Ok t' -> same_root svg t'.
Proof.
  induction ds as [|d ds IH]; intros svg t' Hnd Hds; simpl.
  - intros [= <-]. apply same_root_refl.
  - destruct (rewrite_definition E count ps svg d) as [t1|] eqn:H1; [|discriminate].
    intros H2.
    pose proof (same_root_definition _ _ _ _ _ _ Hnd (Hds d ltac:(left)) H1) as Hs1.
    eapply same_root_trans; [exact Hs1|]. apply (IH t1 t'); [| |exact H2].
    + destruct Hs1 as (_ & _ & ->). exact Hnd.
    + intros d' Hd'. destruct Hs1 as (_ & _ & ->). apply Hds. right. exact Hd'.
Qed.

Lemma same_root_category E count svg cat t' :
  NoDup (map e_ref (entries [] svg)) ->
  rewrite_category E count svg cat = Ok t' -> same_root svg t'.
Proof.
  intros Hnd. unfold rewrite_category. apply same_root_definitions; [exact Hnd|].
  intros d Hd. unfold querySelectorAll in Hd. rewrite tail_map.
  apply list_elem_of_fmap in Hd as (e & -> & He).
  apply list_elem_of_filter in He as [_ He]. apply list_elem_of_fmap. eauto.
Qed.

Lemma same_root_categories E count : forall cats svg t',
  NoDup (map e_ref (entries [] svg)) ->
  fold_result (rewrite_category E count) cats svg = Ok t' -> same_root svg t'.
Proof.
  induction cats as [|cat cats IH]; intros svg t' Hnd; simpl.
  - intros [= <-]. apply same_root_refl.
  - destruct (rewrite_category E count svg cat) as [t1|] eqn:H1; [|discriminate].
    intros H2. pose proof (same_root_category _ _ _ _ _ Hnd H1) as Hs1.
    eapply same_root_trans; [exact Hs1|]. apply (IH t1 t'); [|exact H2].
    destruct Hs1 as (_ & _ & ->). exact Hnd.
Qed.

Lemma textContent_map_attrs f n : textContent (map_attrs f n) = textContent n.
Proof.
  induction n as [r tag attrs ch IH|r d] using node_ind_nested; [|reflexivity].
  simpl. induction IH as [|c ch Hc _ IHch]; [reflexivity|].
  simpl. rewrite Hc, IHch. reflexivity.
Qed.

Lemma pair_not_referencing t c p : p ∉ referencing_properties -> (c, p) ∉ all_pairs t.
Proof.
  intros Hp Hin. apply Hp. unfold all_pairs in Hin.
  apply list_elem_of_In, in_flat_map in Hin as (cat & Hcat & Hin).
  apply in_flat_map in Hin as (d & _ & Hin).
  apply list_elem_of_In, list_elem_of_fmap in Hin as (p' & [= _ ->] & Hp').
  unfold referencing_properties. apply list_elem_of_In, in_flat_map.
  exists cat. split; [exact Hcat | by apply list_elem_of_In].
Qed.

(** X19: the identifier rewriting touches attributes only, and only those
    of the table: the nodes, their order, tags and text are those of
    before; the root element keeps all its attributes; everywhere, an
    attribute that is neither [id] nor a referencing attribute of the table
    keeps its value, and an [id] outside category scope too. *)
Theorem rewriting_changes_listed_attributes_only E count t t' :
  NoDup (map e_ref (entries [] t)) ->
  makeIdsUnique E count t = Ok t' ->
  refs t' = refs t
  /\ textContent t' = textContent t
  /\ map place (entries [] t') = map place (entries [] t)
  /\ root_attrs t' = root_attrs t
  /\ (forall r p, p <> "id" -> p ∉ referencing_properties ->
        attr_at r p t' = attr_at r p t)
  /\ (forall r, r ∉ all_defs t -> attr_at r "id" t' = attr_at r "id" t).
Proof.
  intros Hnd Hrun.
  destruct (same_root_categories _ _ _ _ _ Hnd Hrun) as (_ & Hroot & _).
  destruct (makeIdsUnique_inv E count t Hnd t' Hrun) as (F & -> & Hinv).
  split; [apply refs_map_attrs|]. split; [apply textContent_map_attrs|].
  split; [rewrite entries_map_attrs, map_map; reflexivity|].
  split; [exact Hroot|]. split.
  - intros r p Hid Hp. rewrite attr_at_map_attrs. unfold attr_at.
    destruct (find_entry r (entries [] t)) as [e0|] eqn:He0; [|reflexivity]. simpl.
    destruct (find_entry_ref _ _ _ He0) as [<- Hin].
    destruct (Hinv e0 Hin) as (_ & H2 & _). cbv zeta in H2.
    destruct (H2 p Hid) as [H|(c & Hc & _)]; [exact H|].
    exfalso. eapply pair_not_referencing; eassumption.
  - intros r Hr. rewrite attr_at_map_attrs. unfold attr_at.
    destruct (find_entry r (entries [] t)) as [e0|] eqn:He0; [|reflexivity]. simpl.
    destruct (find_entry_ref _ _ _ He0) as [<- Hin].
    destruct (Hinv e0 Hin) as (H1 & _). cbv zeta in H1.
    rewrite decide_False in H1 by exact Hr. exact H1.
Qed.

Lemma rewriting_changes_listed_attributes_only_witness :
  let t := stretch (copy_at 1 Sample.overlapping) in
  exists t',
    makeIdsUnique Sample.env 0 t = Ok t' /\
    refs t' = refs t /\ root_attrs t' = root_attrs t /\
    attr_at 1 "width" t' = attr_at 1 "width" t.
Proof.
  eexists. split; [vm_compute; reflexivity|].
  match goal with |- refs ?t' = _ /\ _ =>
    destruct (rewriting_changes_listed_attributes_only Sample.env 0
                (stretch (copy_at 1 Sample.overlapping)) t')
      as (H1 & _ & _ & H4 & H5 & _)
  end.
  - apply (bool_decide_unpack _). vm_compute. reflexivity.
  - vm_compute. reflexivity.
  - split; [exact H1|]. split; [exact H4|].
    apply H5; [discriminate|].
    apply (bool_decide_unpack _). vm_compute. reflexivity.
Defined.
(** ** Script pruning, in general (lines 261-282) *)

Lemma entries_cases n anc e :
  e ∈ entries anc n ->
  (e_anc e = anc /\ e_node e = n /\ e_ref e = node_ref n)
  \/ (length anc < length (e_anc e) /\ e_ref e ∈ tail (refs n)).
Proof.
  destruct n as [r tag attrs ch|r d]; simpl; [|intros H; inversion H].
  intros H. apply elem_of_cons in H as [->|H]; [left; auto|]. right.
  apply list_elem_of_In, in_flat_map in H as (c & Hc & He).
  apply list_elem_of_In in He. split.
  - pose proof (entries_anc _ _ _ He) as Hlen. simpl in Hlen. lia.
  - apply list_elem_of_In, in_flat_map. exists c. split; [exact Hc|].
    apply list_elem_of_In. eapply elem_of_sublist; [|apply (entries_refs_sublist c)].
    apply list_elem_of_fmap. eauto.
Qed.

Lemma child_entry r tag anc ch e :
  e ∈ flat_map (entries ((r, tag) :: anc)) ch ->
  (e_anc e = (r, tag) :: anc /\ e_node e ∈ ch /\ e_ref e = node_ref (e_node e))
  \/ (e_anc e <> (r, tag) :: anc /\ exists c, c ∈ ch /\ e_ref e ∈ tail (refs c)).
Proof.
  intros H. apply list_elem_of_In, in_flat_map in H as (c & Hc & He).
  apply list_elem_of_In in Hc, He.
  destruct (entries_cases _ _ _ He) as [(Ha & Hn & Hr)|[Hlen Hr]].
  - left. rewrite Hn. auto.
  - right. split; [|eauto]. intros Heq. rewrite Heq in Hlen. lia.
Qed.

Lemma node_ref_head n : exists l, refs n = node_ref n :: l.
Proof. destruct n; simpl; eauto. Qed.

Lemma inner_ref_is_no_child ch : forall c x,
  NoDup (flat_map refs ch) -> c ∈ ch -> x ∈ tail (refs c) -> x ∉ map node_ref ch.
Proof.
  induction ch as [|c0 ch IH]; intros c x Hnd Hc Hx; [inversion Hc|].
  simpl in Hnd. apply NoDup_app in Hnd as (Hnd0 & Hdisj & Hnd').
  destruct (node_ref_head c0) as [l0 Hl0].
  assert (forall c', c' ∈ ch -> node_ref c' ∈ flat_map refs ch) as Hsub.
  { intros c' Hc'. apply list_elem_of_In, in_flat_map. exists c'.
    split; [by apply list_elem_of_In|]. apply list_elem_of_In.
    destruct (node_ref_head c') as [l' ->]. left. }
  simpl. apply not_elem_of_cons. apply elem_of_cons in Hc as [->|Hc].
  - rewrite Hl0 in Hx, Hnd0, Hdisj. simpl in Hx.
    apply NoDup_cons in Hnd0 as [Hhd _]. split; [intros ->; auto|].
    intros Hin. apply list_elem_of_fmap in Hin as (c' & -> & Hc').
    apply (Hdisj (node_ref c')); [right; exact Hx | auto].
  - assert (x ∈ flat_map refs ch) as Hxin.
    { apply list_elem_of_In, in_flat_map. exists c. split; [by apply list_elem_of_In|].
      apply list_elem_of_In. destruct (refs c); [inversion Hx | right; exact Hx]. }
    split; [|eapply IH; eassumption].
    intros ->. apply (Hdisj (node_ref c0)); [rewrite Hl0; left | exact Hxin].
Qed.

Lemma filter_removed (removed : list ref) child (ch : list node) :
  filter (fun c => node_ref c ≠ child) (filter (fun c => node_ref c ∉ removed) ch)
  = filter (fun c => node_ref c ∉ removed ++ [child]) ch.
Proof.
  rewrite list_filter_filter. apply list_filter_iff. intros c.
  rewrite elem_of_app, list_elem_of_singleton. tauto.
Qed.

Lemma filter_none_removed (ch : list node) :
  filter (fun c => node_ref c ∉ @nil ref) ch = ch.
Proof.
  induction ch as [|c l IH]; [reflexivity|].
  rewrite filter_cons, decide_True by (intros H; inversion H). by rewrite IH.
Qed.

Section Pruning.

Variables (r : ref) (tag : string) (attrs : gmap string string) (ch : list node).
Hypothesis unique_refs : NoDup (refs (Element r tag attrs ch)).

Local Notation "'svg'" := (Element r tag attrs ch).
Local Notation "'executable'" :=
  (fun e : entry => executable_type (e_attrs e !! "type") = true).
Local Notation "'kept' removed" :=
  (Element r tag attrs (filter (fun c => node_ref c ∉ removed) ch))
  (at level 10, removed at level 9).

Lemma prune_top_level e (texts : list string) (removed : list ref) :
  e ∈ tail (entries [] svg) -> e_anc e = [(r, tag)] -> e_ref e ∉ removed ->
  executable_type (e_attrs e !! "type") = true ->
  prune_script (texts, kept removed) e
    = Ok (texts ++ [textContent (e_node e)], kept (removed ++ [e_ref e])).
Proof.
  simpl. intros He Hanc Hnew Hexec. unfold prune_script. rewrite Hexec.
  destruct (child_entry _ _ _ _ _ He) as [(_ & Hin & Href)|[Hne _]]; [|congruence].
  unfold removeChild. rewrite bool_decide_eq_true_2.
  - rewrite filter_removed. reflexivity.
  - apply list_elem_of_fmap. exists (e_node e). split; [exact Href|].
    apply list_elem_of_filter. split; [congruence | exact Hin].
Qed.

Lemma prune_nested e (texts : list string) (removed : list ref) :
  e ∈ tail (entries [] svg) -> e_anc e <> [(r, tag)] ->
  executable_type (e_attrs e !! "type") = true ->
  prune_script (texts, kept removed) e = Throw NotFoundError.
Proof.
  simpl. intros He Hanc Hexec. unfold prune_script. rewrite Hexec.
  destruct (child_entry _ _ _ _ _ He) as [(Heq & _)|(_ & c & Hc & Hx)]; [congruence|].
  unfold removeChild. rewrite bool_decide_eq_false_2; [reflexivity|].
  intros Hin. simpl in unique_refs. apply NoDup_cons in unique_refs as [_ Hnd].
  apply (inner_ref_is_no_child ch c (e_ref e) Hnd Hc Hx).
  apply list_elem_of_fmap in Hin as (c' & -> & Hc').
  apply list_elem_of_filter in Hc' as [_ Hc']. apply list_elem_of_fmap. eauto.
Qed.

Lemma prune_loop : forall l (texts : list string) (removed : list ref),
  (forall e, e ∈ l -> e ∈ tail (entries [] svg)) ->
  NoDup (map e_ref l) -> (forall e, e ∈ l -> e_ref e ∉ removed) ->
  fold_result prune_script l (texts, kept removed)
  = if bool_decide (Forall (fun e => e_anc e = [(r, tag)]) (filter executable l))
    then Ok (texts ++ map (fun e => textContent (e_node e)) (filter executable l),
             kept (removed ++ map e_ref (filter executable l)))
    else Throw NotFoundError.
Proof.
  induction l as [|e l IH]; intros texts removed Hin Hnd Hnew.
  - simpl. rewrite !app_nil_r. reflexivity.
  - apply NoDup_cons in Hnd as [Hhd Hnd].
    assert (forall e', e' ∈ l -> e' ∈ tail (entries [] svg)) as Hin'
      by (intros e' He'; apply Hin; right; exact He').
    cbn [fold_result]. rewrite filter_cons.
    destruct (decide (executable_type (e_attrs e !! "type") = true)) as [Hexec|Hno].
    + destruct (decide (e_anc e = [(r, tag)])) as [Htop|Hdeep].
      * rewrite prune_top_level; [| apply Hin; left | assumption | apply Hnew; left
                                  | assumption].
        rewrite IH; [|assumption|assumption|].
        -- destruct (bool_decide (Forall _ (filter _ l))) eqn:Hall.
           ++ rewrite bool_decide_eq_true_2
                by (constructor; [assumption | eapply bool_decide_eq_true_1, Hall]).
              simpl. rewrite <- !app_assoc. reflexivity.
           ++ rewrite bool_decide_eq_false_2; [reflexivity|].
              intros H. apply Forall_cons in H as [_ H].
              apply bool_decide_eq_false_1 in Hall. auto.
        -- intros e' He'. rewrite elem_of_app, list_elem_of_singleton.
           intros [H|H]; [eapply Hnew; [right; exact He' | exact H]|].
           apply Hhd. rewrite <- H. apply list_elem_of_fmap. eauto.
      * rewrite prune_nested; [| apply Hin; left | assumption | assumption].
        rewrite bool_decide_eq_false_2; [reflexivity|].
        intros H. apply Forall_cons in H as [H _]. auto.
    + unfold prune_script at 1. cbv zeta.
      destruct (executable_type (e_attrs e !! "type")); [congruence|].
      apply IH; [assumption | assumption |].
      intros e' He'. apply Hnew. right. exact He'.
Qed.

Lemma prune_scripts_eq :
  prune_scripts svg
  = if bool_decide (Forall (fun e => e_anc e = [(r, tag)]) (executable_scripts svg))
    then Ok (map (fun e => textContent (e_node e)) (executable_scripts svg),
             kept (map e_ref (executable_scripts svg)))
    else Throw NotFoundError.
Proof.
  unfold prune_scripts, executable_scripts.
  rewrite <- (filter_none_removed ch) at 2.
  rewrite prune_loop; [reflexivity| | |].
  - intros e He. apply list_elem_of_filter in He as [_ He]. exact He.
  - eapply sublist_NoDup; [apply unique_entries, unique_refs|].
    apply fmap_sublist. etrans; [apply sublist_filter|]. simpl. apply sublist_cons.
    reflexivity.
  - intros e _ H. inversion H.
Qed.

End Pruning.

(** X20: when every script element with an executable type is a child of
    the root, pruning returns: the payloads are the texts of those scripts
    in document order, and the tree is the one given, less those children.
    Scripts of another type stay where they are. *)
Theorem top_level_scripts_are_pruned r tag attrs ch :
  let svg := Element r tag attrs ch in
  NoDup (refs svg) ->
  (forall e, e ∈ executable_scripts svg -> e_anc e = [(r, tag)]) ->
  prune_scripts svg
  = Ok (map (fun e => textContent (e_node e)) (executable_scripts svg),
        Element r tag attrs
          (filter (fun c => node_ref c ∉ map e_ref (executable_scripts svg)) ch)).
Proof.
  intros svg Hnd Htop. subst svg. rewrite prune_scripts_eq by exact Hnd.
  rewrite bool_decide_eq_true_2; [reflexivity|].
  apply Forall_forall. exact Htop.
Qed.

Lemma top_level_scripts_are_pruned_witness :
  prune_scripts
    (Element 5 "svg" ∅
       [ Element 6 "script" ∅ [Text 7 "go()"];
         Element 8 "script" {[ "type" := "text/plain" ]} [Text 9 "data"];
         Element 10 "script" {[ "type" := "application/javascript" ]} [Text 11 "stop()"] ])
  = Ok (["go()"; "stop()"],
        Element 5 "svg" ∅
          [Element 8 "script" {[ "type" := "text/plain" ]} [Text 9 "data"]]).
Proof.
  rewrite (top_level_scripts_are_pruned 5 "svg" ∅
             [ Element 6 "script" ∅ [Text 7 "go()"];
               Element 8 "script" {[ "type" := "text/plain" ]} [Text 9 "data"];
               Element 10 "script" {[ "type" := "application/javascript" ]}
                 [Text 11 "stop()"] ]).
  - vm_compute. reflexivity.
  - apply (bool_decide_unpack _). vm_compute. reflexivity.
  - apply Forall_forall. apply (bool_decide_unpack _). vm_compute. reflexivity.
Defined.

(** X21: when some script element with an executable type is not a child
    of the root, pruning raises [NotFoundError], wherever that script
    stands among the others. *)
Theorem nested_executable_script_raises r tag attrs ch e :
  let svg := Element r tag attrs ch in
  NoDup (refs svg) ->
  e ∈ executable_scripts svg -> e_anc e <> [(r, tag)] ->
  prune_scripts svg = Throw NotFoundError.
Proof.
  intros svg Hnd He Hdeep. subst svg. rewrite prune_scripts_eq by exact Hnd.
  rewrite bool_decide_eq_false_2; [reflexivity|].
  intros H. rewrite Forall_forall in H. exact (Hdeep (H e He)).
Qed.

Lemma nested_executable_script_raises_witness :
  prune_scripts
    (Element 5 "svg" ∅
       [ Element 6 "script" ∅ [Text 7 "go()"];
         Element 8 "g" ∅ [Element 9 "script" ∅ [Text 10 "stop()"]] ])
  = Throw NotFoundError.
Proof.
  apply (nested_executable_script_raises 5 "svg" ∅
           [ Element 6 "script" ∅ [Text 7 "go()"];
             Element 8 "g" ∅ [Element 9 "script" ∅ [Text 10 "stop()"]] ]
           (mkEntry [(8%nat, "g"); (5%nat, "svg")] 9 "script" ∅
              (Element 9 "script" ∅ [Text 10 "stop()"]))).
  - apply (bool_decide_unpack _). vm_compute. reflexivity.
  - vm_compute. right. left.
  - discriminate.
Defined.
(** ** From the clone to the tree that is inserted (lines 226-282) *)

Lemma executable_scripts_map_attrs f t :
  (forall e, e ∈ tail (entries [] t) ->
             f (e_ref e) (e_attrs e) !! "type" = e_attrs e !! "type") ->
  executable_scripts (map_attrs f t) = map (upd f) (executable_scripts t).
Proof.
  intros Hf. unfold executable_scripts, querySelectorAll.
  rewrite tail_entries_map_attrs.
  rewrite (filter_upd f (fun e => matches (SelTag "script") e = true)) by done.
  apply filter_upd. intros e He. apply list_elem_of_filter in He as [_ He].
  simpl. rewrite (Hf e He). reflexivity.
Qed.

Lemma executable_scripts_setAttribute target p v t :
  p <> "type" ->
  executable_scripts (setAttribute target p v t)
  = map (upd (fun r a => if decide (r = target) then <[p := v]> a else a))
      (executable_scripts t).
Proof.
  intros Hp. apply executable_scripts_map_attrs. intros e _.
  destruct (decide _); [by rewrite lookup_insert_ne | reflexivity].
Qed.

Lemma scoped_ids_stretch svg : scoped_ids (stretch svg) = scoped_ids svg.
Proof.
  apply scoped_ids_via_view. unfold stretch, setAttribute.
  rewrite !view_map_attrs; [reflexivity| | |];
    intros r a; (destruct (decide _); [by rewrite lookup_insert_ne|done]).
Qed.

Lemma no_pruned_script_is_left r tag attrs ch :
  NoDup (refs (Element r tag attrs ch)) ->
  (forall e, e ∈ executable_scripts (Element r tag attrs ch) -> e_anc e = [(r, tag)]) ->
  executable_scripts
    (Element r tag attrs
       (filter (fun c => node_ref c ∉
                         map e_ref (executable_scripts (Element r tag attrs ch))) ch))
  = [].
Proof.
  intros Hnd Htop. apply elem_of_nil_inv. intros e He.
  unfold executable_scripts at 1 in He. unfold querySelectorAll in He. simpl in He.
  apply list_elem_of_filter in He as [Hexec He].
  apply list_elem_of_filter in He as [Hscript He].
  apply list_elem_of_In, in_flat_map in He as (c & Hc & He).
  apply list_elem_of_In in Hc, He. apply list_elem_of_filter in Hc as [Hkeep Hc].
  assert (e ∈ executable_scripts (Element r tag attrs ch)) as Hin.
  { unfold executable_scripts, querySelectorAll. simpl.
    apply list_elem_of_filter. split; [exact Hexec|].
    apply list_elem_of_filter. split; [exact Hscript|].
    apply list_elem_of_In, in_flat_map. exists c. split; by apply list_elem_of_In. }
  destruct (entries_cases _ _ _ He) as [(_ & _ & Hr)|[Hlen _]].
  - apply Hkeep. rewrite <- Hr. apply list_elem_of_fmap. eauto.
  - rewrite (Htop e Hin) in Hlen. simpl in Hlen. lia.
Qed.

(** What the continuation holds at line 284, for a well-formed node. *)
Lemma collected_prepared E count r tag attrs ch :
  let svg := Element r tag attrs ch in
  NoDup (refs svg) ->
  (forall i, i ∈ scoped_ids svg -> selector_safe i = true) ->
  (forall e, e ∈ executable_scripts svg -> e_anc e = [(r, tag)]) ->
  exists svg',
    collected E count svg
      = Ok (map (fun e => textContent (e_node e)) (executable_scripts svg), svg')
    /\ node_ref svg' = r
    /\ root_attrs svg'
       = delete "xmlns:a"
           (<["preserveAspectRatio" := "none"]>
              (<["height" := "100%"]> (<["width" := "100%"]> attrs)))
    /\ executable_scripts svg' = [].
Proof.
  intros svg Hnd Hsafe Htop.
  assert (NoDup (map e_ref (entries [] (stretch svg)))) as Hnd1
    by (apply unique_entries; rewrite refs_stretch; exact Hnd).
  destruct (makeIdsUnique_progress E count (stretch svg) Hnd1) as [t2 Ht2].
  { intros cat d Hcat Hd. apply Hsafe. rewrite <- scoped_ids_stretch.
    eapply def_id_scoped; eassumption. }
  destruct (same_root_categories _ _ _ _ _ Hnd1 Ht2) as (_ & Hroot & _).
  destruct (makeIdsUnique_inv E count (stretch svg) Hnd1 t2 Ht2) as (F & -> & Hinv).
  unfold collected. rewrite Ht2.
  (* the three trees, as elements *)
  assert (exists ch1,
            stretch svg
            = Element r tag
                (<["preserveAspectRatio" := "none"]>
                   (<["height" := "100%"]> (<["width" := "100%"]> attrs))) ch1)
    as [ch1 Hs1].
  { subst svg. unfold stretch, setAttribute. simpl. rewrite !decide_True by reflexivity.
    eauto. }
  set (a1 := <["preserveAspectRatio" := "none"]>
               (<["height" := "100%"]> (<["width" := "100%"]> attrs))) in *.
  assert (F r a1 = a1) as HF by (rewrite Hs1 in Hroot; exact Hroot).
  (* the executable scripts of the tree that is pruned *)
  assert (executable_scripts (map_attrs F (stretch svg))
          = map (upd F) (executable_scripts (stretch svg))) as Hx2.
  { apply executable_scripts_map_attrs. intros e He.
    assert (e ∈ entries [] (stretch svg)) as He0.
    { destruct (entries [] (stretch svg)); [inversion He | right; exact He]. }
    destruct (Hinv e He0) as (_ & H2 & _). cbv zeta in H2.
    destruct (H2 "type") as [H|(c & Hc & _)]; [discriminate | exact H |].
    exfalso. revert Hc. apply pair_not_referencing.
    apply (bool_decide_unpack _). vm_compute. reflexivity. }
  assert (exists K, executable_scripts
                      (removeAttribute (node_ref svg) "xmlns:a" (map_attrs F (stretch svg)))
                    = map (upd K) (executable_scripts svg)) as [K HK].
  { unfold removeAttribute. rewrite executable_scripts_map_attrs.
    - rewrite Hx2. unfold stretch.
      rewrite !executable_scripts_setAttribute by discriminate.
      rewrite !map_map. eexists (fun r0 a => _). apply map_ext. intros e.
      unfold upd. simpl. rewrite !map_attrs_compose. reflexivity.
    - intros e _. destruct (decide _); [by rewrite lookup_delete_ne | reflexivity]. }
  set (t3 := removeAttribute (node_ref svg) "xmlns:a" (map_attrs F (stretch svg))) in *.
  assert (exists ch3, t3 = Element r tag (delete "xmlns:a" a1) ch3) as [ch3 Ht3].
  { subst t3. rewrite Hs1. unfold removeAttribute. subst svg. simpl.
    rewrite decide_True by reflexivity. rewrite HF. eauto. }
  assert (NoDup (refs t3)) as Hnd3.
  { subst t3. unfold removeAttribute. rewrite !refs_map_attrs, refs_stretch. exact Hnd. }
  assert (forall e, e ∈ executable_scripts t3 -> e_anc e = [(r, tag)]) as Htop3.
  { intros e He. rewrite HK in He. apply list_elem_of_fmap in He as (e0 & -> & He0).
    simpl. apply Htop, He0. }
  rewrite Ht3 in Hnd3, Htop3 |- *.
  rewrite prune_scripts_eq by exact Hnd3.
  rewrite bool_decide_eq_true_2 by (apply Forall_forall; exact Htop3).
  exists (Element r tag (delete "xmlns:a" a1)
            (filter (fun c => node_ref c ∉
                       map e_ref
                         (executable_scripts (Element r tag (delete "xmlns:a" a1) ch3)))
               ch3)).
  split; [|split; [reflexivity|split; [reflexivity|]]].
  - f_equal. f_equal. rewrite <- Ht3, HK, map_map. apply map_ext. intros e.
    simpl. apply textContent_map_attrs.
  - apply no_pruned_script_is_left; assumption.
Qed.
(** X23: a tree with no identifier in category scope (no [defs], or no
    element of the table with an [id] below one) goes through the
    identifier rewriting unchanged, and the rewriting cannot fail on it. *)
Theorem without_scoped_ids_nothing_is_rewritten E count t :
  scoped_ids t = [] -> makeIdsUnique E count t = Ok t.
Proof.
  unfold scoped_ids, makeIdsUnique.
  induction iriElementsAndProperties as [|cat cats IH]; [reflexivity|].
  simpl. intros H. apply app_eq_nil in H as [Hcat Hcats].
  apply fmap_nil_inv in Hcat. unfold rewrite_category at 1. rewrite Hcat. simpl.
  apply IH, Hcats.
Qed.

Lemma without_scoped_ids_nothing_is_rewritten_witness :
  makeIdsUnique Sample.env 4 Sample.nested_script = Ok Sample.nested_script.
Proof.
  apply (without_scoped_ids_nothing_is_rewritten Sample.env 4 Sample.nested_script).
  vm_compute. reflexivity.
Defined.

(** ** The replacement (line 312) *)

Lemma find_entry_app r l1 l2 :
  find_entry r (l1 ++ l2)
  = match find_entry r l1 with Some e => Some e | None => find_entry r l2 end.
Proof.
  unfold find_entry. induction l1 as [|e l1 IH]; [reflexivity|].
  simpl. destruct (bool_decide (e_ref e = r)); [reflexivity | exact IH].
Qed.

Lemma find_entry_root r anc n e :
  find_entry r (entries anc n) = Some e -> node_ref n = r -> e_anc e = anc.
Proof.
  destruct n as [r0 tag attrs ch|r0 d]; simpl; [|discriminate].
  intros H Hr. unfold find_entry in H. simpl in H.
  rewrite bool_decide_eq_true_2 in H by exact Hr. by injection H as <-.
Qed.

Section Replacement.

Variables (old : ref) (new_ref : ref) (new_tag : string)
  (new_attrs : gmap string string) (new_children : list node).

Local Notation "'new'" := (Element new_ref new_tag new_attrs new_children).

Lemma replaced_below n : forall anc e,
  find_entry old (entries anc n) = Some e -> e_anc e <> anc ->
  mkEntry (e_anc e) new_ref new_tag new_attrs new ∈ entries anc (replace_node old new n).
Proof.
  induction n as [r tag attrs ch IH|r d] using node_ind_nested; [|discriminate].
  intros anc e Hfind Hanc. simpl. right.
  assert (find_entry old (flat_map (entries ((r, tag) :: anc)) ch) = Some e) as Hch.
  { unfold find_entry in Hfind |- *. simpl in Hfind.
    destruct (bool_decide (r = old)); [|exact Hfind].
    injection Hfind as <-. simpl in Hanc. congruence. }
  clear Hfind Hanc. revert Hch.
  induction IH as [|c ch Hc _ IHch]; [discriminate|].
  simpl. rewrite find_entry_app, elem_of_app.
  destruct (find_entry old (entries ((r, tag) :: anc) c)) as [e1|] eqn:Hc1.
  - intros [= ->]. left. destruct (decide (node_ref c = old)) as [Hold|Hne].
    + rewrite (find_entry_root _ _ _ _ Hc1 Hold). left.
    + apply Hc; [exact Hc1|]. intros Heq.
      destruct (find_entry_ref _ _ _ Hc1) as [Hr Hin].
      destruct (entries_cases _ _ _ Hin) as [(_ & _ & Hr')|[Hlen _]]; [congruence|].
      rewrite Heq in Hlen. lia.
  - intros H. right. apply IHch, H.
Qed.

End Replacement.

(** X24: where the placeholder had a parent, [replaceChild] puts the new
    root under the very ancestors the placeholder had. *)
Theorem replacement_takes_the_placeholders_place p el e r tag attrs ch :
  find_entry el (page_entries p) = Some e ->
  e_anc e <> [] ->
  let svg := Element r tag attrs ch in
  mkEntry (e_anc e) r tag attrs svg ∈ page_entries (map (replace_node el svg) p).
Proof.
  intros Hfind Hanc svg. subst svg. unfold page_entries in *.
  induction p as [|t p IH]; [discriminate|].
  simpl in *. rewrite find_entry_app in Hfind. rewrite elem_of_app.
  destruct (find_entry el (entries [] t)) as [e1|] eqn:Ht.
  - injection Hfind as ->. left. apply replaced_below; assumption.
  - right. apply IH, Hfind.
Qed.

Lemma replacement_takes_the_placeholders_place_witness :
  mkEntry [(0%nat, "body")] 5 "svg" ∅ (Element 5 "svg" ∅ [])
  ∈ page_entries
      (map (replace_node 2 (Element 5 "svg" ∅ []))
         [Sample.body [Sample.img 1 "a.svg"; Sample.img 2 "b.svg"]]).
Proof.
  apply (replacement_takes_the_placeholders_place
           [Sample.body [Sample.img 1 "a.svg"; Sample.img 2 "b.svg"]] 2
           (mkEntry [(0%nat, "body")] 2 "img" {[ "data-src" := "b.svg" ]}
              (Sample.img 2 "b.svg"))
           5 "svg" ∅ []).
  - vm_compute. reflexivity.
  - discriminate.
Defined.
(** ** What a clone shares with its source (lines 26-28) *)

Lemma textContent_copy_at n : forall base, textContent (copy_at base n) = textContent n.
Proof.
  induction n as [r tag attrs ch IH|r d] using node_ind_nested; intros base; simpl;
    [|reflexivity].
  generalize (S base). induction IH as [|c ch Hc _ IHch]; intros b; simpl; [reflexivity|].
  rewrite Hc, IHch. reflexivity.
Qed.

Lemma copy_at_idem n : forall base base', copy_at base (copy_at base' n) = copy_at base n.
Proof.
  induction n as [r tag attrs ch IH|r d] using node_ind_nested; intros base base'; simpl;
    [|reflexivity].
  f_equal. generalize (S base) (S base').
  induction IH as [|c ch Hc _ IHch]; intros b b'; simpl; [reflexivity|].
  rewrite Hc, size_copy_at, IHch. reflexivity.
Qed.

Lemma script_view_copy_at n : forall base anc anc',
  length anc = length anc' ->
  map script_view (entries anc (copy_at base n)) = map script_view (entries anc' n).
Proof.
  induction n as [r tag attrs ch IH|r d] using node_ind_nested;
    intros base anc anc' Hanc; [|reflexivity].
  cbn [copy_at entries map]. f_equal.
  - unfold script_view. cbn [e_anc e_tag e_attrs e_node]. rewrite Hanc. f_equal.
    exact (textContent_copy_at (Element r tag attrs ch) base).
  - assert (length ((base, tag) :: anc) = length ((r, tag) :: anc')) as Hanc'
      by (simpl; by rewrite Hanc).
    revert Hanc'. generalize ((base, tag) :: anc) ((r, tag) :: anc') (S base).
    intros a1 a2 b Ha. revert b.
    induction IH as [|c ch Hc _ IHch]; intros b; simpl; [reflexivity|].
    rewrite !map_app. f_equal; [by apply Hc | apply IHch].
Qed.

Lemma executable_via_view (l1 : list entry) : forall l2,
  map script_view l1 = map script_view l2 ->
  map script_view
    (filter (fun e => executable_type (e_attrs e !! "type") = true)
       (filter (fun e => matches (SelTag "script") e = true) l1))
  = map script_view
      (filter (fun e => executable_type (e_attrs e !! "type") = true)
         (filter (fun e => matches (SelTag "script") e = true) l2)).
Proof.
  induction l1 as [|e1 l1 IH]; intros [|e2 l2] Heq; try done.
  simpl in Heq. unfold script_view at 1 3 in Heq.
  injection Heq as Ha Ht Hty Htx Heq. specialize (IH l2 Heq).
  assert (script_view e1 = script_view e2) as Hv by (unfold script_view; congruence).
  rewrite !(filter_cons _ e1), !(filter_cons _ e2).
  assert (matches (SelTag "script") e1 = matches (SelTag "script") e2) as Hm
    by (simpl; by rewrite Ht).
  rewrite Hm. destruct (decide (matches (SelTag "script") e2 = true)); [|exact IH].
  rewrite !filter_cons, Hty.
  destruct (decide (executable_type (e_attrs e2 !! "type") = true)); [|exact IH].
  cbn [map]. rewrite Hv, IH. reflexivity.
Qed.

Lemma executable_scripts_of_clone base doc :
  map script_view (executable_scripts (copy_at base doc))
  = map script_view (executable_scripts doc).
Proof.
  unfold executable_scripts, querySelectorAll. apply executable_via_view.
  rewrite <- !tail_map. f_equal. by apply script_view_copy_at.
Qed.

Lemma scoped_ids_copy_at base doc : scoped_ids (copy_at base doc) = scoped_ids doc.
Proof. apply scoped_ids_via_view. by apply view_copy_at. Qed.

Lemma clone_payloads base doc :
  map (fun x => textContent (e_node x)) (executable_scripts (copy_at base doc))
  = map (fun x => textContent (e_node x)) (executable_scripts doc).
Proof.
  pose proof (executable_scripts_of_clone base doc) as Hview.
  apply (f_equal (map snd)) in Hview. rewrite !map_map in Hview. exact Hview.
Qed.

Lemma clone_scripts_top_level base r tag attrs ch x :
  (forall x0, x0 ∈ executable_scripts (Element r tag attrs ch) -> e_anc x0 = [(r, tag)]) ->
  x ∈ executable_scripts (copy_at base (Element r tag attrs ch)) ->
  e_anc x = [(base, tag)].
Proof.
  intros Htop Hx.
  pose proof (executable_scripts_of_clone base (Element r tag attrs ch)) as Hview.
  assert (length (e_anc x) = 1%nat) as Hlen.
  { apply (f_equal (map (fun v => fst (fst (fst v))))) in Hview.
    rewrite !map_map in Hview. simpl in Hview.
    assert (length (e_anc x)
            ∈ map (fun e => length (e_anc e)) (executable_scripts (Element r tag attrs ch)))
      as Hin by (rewrite <- Hview; apply list_elem_of_fmap; eauto).
    apply list_elem_of_fmap in Hin as (x0 & -> & Hx0). by rewrite (Htop x0 Hx0). }
  unfold executable_scripts, querySelectorAll in Hx. simpl in Hx.
  apply list_elem_of_filter in Hx as [_ Hx]. apply list_elem_of_filter in Hx as [_ Hx].
  destruct (child_entry _ _ _ _ _ Hx) as [(H & _)|(Hne & _)]; [exact H|].
  apply list_elem_of_In, in_flat_map in Hx as (c & _ & Hx).
  apply list_elem_of_In in Hx.
  destruct (entries_cases _ _ _ Hx) as [(H & _)|[H _]]; [congruence|].
  simpl in H. lia.
Qed.

(** X22: the whole preparation of a delivered clone.  When the
    identifiers in category scope of the source are safe in a selector and
    its executable scripts are children of its root, the continuation
    reaches line 284, for any clone of it, with: the texts of those scripts
    as payloads, in document order; and a tree whose root is the root of the
    clone, with the attributes of the source's root, [width], [height] and
    [preserveAspectRatio] overwritten and [xmlns:a] removed, in which no
    executable script is left. *)
Theorem delivered_clone_is_prepared E count base r tag attrs ch :
  let doc := Element r tag attrs ch in
  (forall i, i ∈ scoped_ids doc -> selector_safe i = true) ->
  (forall x, x ∈ executable_scripts doc -> e_anc x = [(r, tag)]) ->
  exists svg',
    collected E count (copy_at base doc)
      = Ok (map (fun x => textContent (e_node x)) (executable_scripts doc), svg')
    /\ node_ref svg' = base
    /\ root_attrs svg'
       = delete "xmlns:a"
           (<["preserveAspectRatio" := "none"]>
              (<["height" := "100%"]> (<["width" := "100%"]> attrs)))
    /\ executable_scripts svg' = [].
Proof.
  intros doc Hsafe Htop. rewrite <- (clone_payloads base doc).
  apply (collected_prepared E count base tag attrs (copy_children copy_at (S base) ch)).
  - change (NoDup (refs (copy_at base doc))). rewrite refs_copy_at. apply NoDup_seq.
  - intros i Hi. apply Hsafe. rewrite <- (scoped_ids_copy_at base doc). exact Hi.
  - intros x Hx. exact (clone_scripts_top_level base r tag attrs ch x Htop Hx).
Qed.

Lemma delivered_clone_is_prepared_witness :
  exists svg',
    collected Sample.env 0
      (copy_at 5
         (Element 0 "svg" {[ "width" := "24" ]}
            [ Element 0 "script" ∅ [Text 0 "go()"];
              Element 0 "script" {[ "type" := "text/plain" ]} [Text 0 "data"] ]))
      = Ok (["go()"], svg')
    /\ node_ref svg' = 5%nat
    /\ root_attrs svg' = Scenario.stretched
    /\ executable_scripts svg' = [].
Proof.
  destruct (delivered_clone_is_prepared Sample.env 0 5 0 "svg" {[ "width" := "24" ]}
              [ Element 0 "script" ∅ [Text 0 "go()"];
                Element 0 "script" {[ "type" := "text/plain" ]} [Text 0 "data"] ])
    as (svg' & H1 & H2 & H3 & H4).
  - intros i Hi. vm_compute in Hi. inversion Hi.
  - apply Forall_forall. apply (bool_decide_unpack _). vm_compute. reflexivity.
  - exists svg'. split; [exact H1|]. split; [exact H2|]. split; [|exact H4].
    rewrite H3. apply (bool_decide_unpack _). vm_compute. reflexivity.
Defined.
(** ** One injection, from the call to the callback *)

Lemma set_children_root target new n :
  node_ref (set_children target new n) = node_ref n
  /\ root_attrs (set_children target new n) = root_attrs n.
Proof.
  destruct n as [r tag attrs ch|r d]; simpl; [|auto].
  destruct (decide (r = target)); auto.
Qed.

Lemma refresh_style_root acc e :
  node_ref (fst (refresh_style acc e)) = node_ref (fst acc)
  /\ root_attrs (fst (refresh_style acc e)) = root_attrs (fst acc).
Proof.
  destruct acc as [svg next]. unfold refresh_style.
  destruct (bool_decide (textContent (e_node e) = "")); apply set_children_root.
Qed.

Lemma refresh_styles_root svg next :
  node_ref (fst (refresh_styles svg next)) = node_ref svg
  /\ root_attrs (fst (refresh_styles svg next)) = root_attrs svg.
Proof.
  unfold refresh_styles. generalize (querySelectorAll (SelTag "style") svg).
  intros l. change svg with (fst (svg, next)) at 2 4. generalize (svg, next).
  induction l as [|e l IH]; intros acc; simpl; [auto|].
  destruct (IH (refresh_style acc e)) as [-> ->]. apply refresh_style_root.
Qed.

Lemma indexOf_pushed el l :
  indexOf el l = None -> indexOf el (l ++ [Some el]) = Some (length l).
Proof.
  induction l as [|x l IH]; simpl.
  - intros _. rewrite decide_True by reflexivity. reflexivity.
  - destruct (decide (x = Some el)); [discriminate|].
    destruct (indexOf el l); [discriminate|]. intros _. rewrite IH by reflexivity.
    reflexivity.
Qed.

Lemma delete_injected_pushed el l :
  indexOf el l = None -> delete_injected el (l ++ [Some el]) = l ++ [None].
Proof.
  intros H. unfold delete_injected. rewrite (indexOf_pushed _ _ H).
  rewrite insert_app_r_alt by lia. rewrite Nat.sub_diag. reflexivity.
Qed.

Lemma runs_scripts_ranScripts k payloads s s' :
  ranScripts s' = ranScripts s -> runs_scripts k payloads s' = runs_scripts k payloads s.
Proof. unfold runs_scripts. intros ->. reflexivity. Qed.

(** X25: the whole of a first injection.  In a state the module can
    reach, with SVG support and [XMLHttpRequest]: the placeholder has a
    parent and is not being injected, its locator passes the extension test
    and has no cache entry, no deferred task is pending; the response
    resolves to a document whose identifiers in category scope are safe in a
    selector, whose executable scripts are children of the root, and whose
    payloads, if line 285 has them run, do not raise.  Then the call, the response and the deferred
    task together send one request, cache a copy of the document, run the
    payloads if line 285 says so, put a second copy, prepared, in the place
    of the placeholder, leave a hole in [injectedElements], increase the
    counter by one, and call the callback once, with [null] and the root
    that was inserted. *)
Theorem first_injection_end_to_end
    E p next evs el evalScripts callback e r tag attrs ch httpRequest :
  let s := run E evs (initial p next) in
  let url := to_string (e_attrs e !! "data-src") in
  let doc := Element r tag attrs ch in
  let k := mkContinuation el (policy_of evalScripts) callback url in
  let payloads := map (fun x => textContent (e_node x)) (executable_scripts doc) in
  hasSvgSupport E = true -> hasXMLHttpRequest E = true ->
  find_entry el (page_entries (page s)) = Some e -> e_anc e <> [] ->
  test_svg url = true ->
  indexOf el (injectedElements s) = None ->
  svgCache s !! url = None ->
  timers s = [] ->
  resolves E httpRequest = Some doc ->
  (forall i, i ∈ scoped_ids doc -> selector_safe i = true) ->
  (forall x, x ∈ executable_scripts doc -> e_anc x = [(r, tag)]) ->
  (runs_scripts k payloads s = true ->
   Forall (fun q => script_raises E q = false) payloads) ->
  let s' := run E [Inject el evalScripts callback; XhrDone url httpRequest; TimerFires] s in
  let root := (nextRef s + size doc)%nat in
  fetched s' = fetched s ++ [url]
  /\ svgCache s' !! url = Some (Cached (copy_at (nextRef s) doc))
  /\ evaluated s' = evaluated s ++ (if runs_scripts k payloads s then payloads else [])
  /\ reported s' = reported s ++ [(callback, [VNull; VNode root])]
  /\ injectCount s' = (injectCount s + 1)%N
  /\ injectedElements s' = injectedElements s ++ [None]
  /\ exists svg,
       page s'
       = map (replace_node el svg) (map (setAttribute el "src" "") (page s))
         ++ [setAttribute el "src" "" (e_node e)]
       /\ node_ref svg = root
       /\ root_attrs svg
          = delete "xmlns:a"
              (<["preserveAspectRatio" := "none"]>
                 (<["height" := "100%"]> (<["width" := "100%"]> attrs))).
Proof.
  intros s url doc k payloads Hsup Hxhr He Hanc Htest Hidx Hcache Htimers Hres
    Hsafe Htop Hquiet s' root.
  assert (absent_keys_idle s) as Hidle by (apply (reachable_idle E); do 3 eexists; reflexivity).
  destruct (Hidle url Hcache) as [Hq Hx].
  assert (exists s3,
            s' = snd (continuation E k (LNode (copy_at root doc)) s3)
            /\ fetched s3 = fetched s ++ [url]
            /\ svgCache s3 !! url = Some (Cached (copy_at (nextRef s) doc))
            /\ evaluated s3 = evaluated s /\ ranScripts s3 = ranScripts s
            /\ reported s3 = reported s /\ injectCount s3 = injectCount s
            /\ injectedElements s3 = injectedElements s ++ [Some el]
            /\ page s3 = map (setAttribute el "src" "") (page s))
    as (s3 & Hs' & Hf3 & Hc3 & Hev3 & Hran3 & Hrep3 & Hcnt3 & Hinj3 & Hpage3).
  { (* the call *)
    set (sA := set_page (map (setAttribute el "src" "") (page s))
                 (set_injectedElements (injectedElements s ++ [Some el]) s)).
    assert (step E (Inject el evalScripts callback) s = loadSvg E url k sA) as H1.
    { simpl. unfold SVGInjector, getAttribute, bind, gets. rewrite He. simpl.
      fold url. rewrite Htest, Hsup. simpl. rewrite Hidx. reflexivity. }
    rewrite (loadSvg_absent E url k sA Hxhr Hcache) in H1.
    (* the response *)
    subst s'. cbn [run]. rewrite H1. cbn [snd].
    match goal with |- context [step E (XhrDone url httpRequest) ?s0] =>
      set (s1 := s0) end.
    assert (take_xhr url (xhrs s1) = Some (k, xhrs s)) as Hx1
      by (apply take_xhr_last; exact Hx).
    rewrite (step_xhr _ _ _ _ _ _ Hx1), (onreadystatechange_resolves _ _ _ _ _ _ Hres).
    unfold bind at 1. rewrite cache_document_eq.
    rewrite (processRequestQueue_eq url [k]);
      [|simpl; rewrite Hq; apply lookup_insert_eq].
    cbn [snd].
    match goal with |- context [step E TimerFires ?s0] => set (s2 := s0) end.
    assert (timers s2 = [(url, 0%nat)]) as Ht2 by (simpl; rewrite Htimers; reflexivity).
    rewrite (step_timer _ _ _ _ Ht2).
    (* the deferred task *)
    unfold fire_timer, bind at 1, gets at 1.
    assert (requestQueue (set_timers [] s2) !! url = Some [k]) as ->
      by (simpl; rewrite Hq; apply lookup_insert_eq).
    unfold bind at 1, gets at 1.
    assert (svgCache (set_timers [] s2) !! url = Some (Cached (copy_at (nextRef s) doc)))
      as -> by (simpl; apply lookup_insert_eq).
    unfold bind at 1, cloneSvg. cbn [lookup list_lookup].
    rewrite copy_at_idem, size_copy_at.
    change (nextRef (set_timers [] s2)) with (nextRef s + size doc)%nat. fold root.
    unfold invoke, bind at 1, modify.
    eexists. split; [reflexivity|]. simpl.
    repeat split. apply lookup_insert_eq. }
  destruct (collected_prepared E (injectCount s3) root tag attrs
              (copy_children copy_at (S root) ch))
    as (svg' & Hcol & Hroot & Hattrs & _).
  { change (NoDup (refs (copy_at root doc))). rewrite refs_copy_at. apply NoDup_seq. }
  { intros i Hi. apply Hsafe. rewrite <- (scoped_ids_copy_at root doc). exact Hi. }
  { intros x Hin. exact (clone_scripts_top_level root r tag attrs ch x Htop Hin). }
  change (Element root tag attrs (copy_children copy_at (S root) ch))
    with (copy_at root doc) in Hcol.
  rewrite (clone_payloads root doc) in Hcol. fold payloads in Hcol.
  assert (find_entry el (page_entries (page s3))
          = Some (upd (fun r0 a => if decide (r0 = el) then <["src" := ""]> a else a) e))
    as He3.
  { rewrite Hpage3, find_entry_page_attribute, He. reflexivity. }
  assert (continuation E k (LNode (copy_at root doc)) s3
          = (evalScriptsIfNeeded E k payloads ;; finish k root svg') s3) as Hk.
  { change (copy_at root doc)
      with (Element root tag attrs (copy_children copy_at (S root) ch)) in *.
    rewrite continuation_element. cbv zeta. rewrite Hcol. reflexivity. }
  rewrite Hs', Hk. clear Hk.
  rewrite (scripts_then_finish E k s3 root payloads svg' _
             (fun H => Hquiet (eq_trans (eq_sym (runs_scripts_ranScripts
                                                   k payloads s s3 Hran3)) H))
             He3 Hanc).
  cbn [snd].
  rewrite <- (runs_scripts_ranScripts k payloads s s3 Hran3).
  destruct (refresh_styles_root svg' (nextRef s3)) as [Hr Ha].
  destruct (runs_scripts k payloads s3); simpl;
    rewrite ?Hf3, ?Hc3, ?Hev3, ?Hrep3, ?Hcnt3, ?Hinj3, ?Hpage3, ?app_nil_r;
    (repeat split; try reflexivity;
     [ apply delete_injected_pushed, Hidx
     | eexists; split; [reflexivity|]; split; congruence ]).
Qed.
Lemma first_injection_end_to_end_witness :
  let s' := run Sample.env
              [Inject 1 None (Some 7%nat); XhrDone "a.svg" (Sample.ok Scenario.one_script);
               TimerFires]
              Scenario.one_placeholder in
  fetched s' = ["a.svg"]
  /\ evaluated s' = ["go()"]
  /\ reported s' = [(Some 7%nat, [VNull; VNode 5])]
  /\ injectCount s' = 1%N
  /\ injectedElements s' = [None].
Proof.
  destruct (first_injection_end_to_end Sample.env
              [Sample.body [Sample.img 1 "a.svg"]] 2 [] 1 None (Some 7%nat)
              (mkEntry [(0%nat, "body")] 1 "img" {[ "data-src" := "a.svg" ]}
                 (Sample.img 1 "a.svg"))
              0 "svg" ∅ [Element 0 "script" ∅ [Text 0 "go()"]]
              (Sample.ok Scenario.one_script))
    as (H1 & _ & H3 & H4 & H5 & H6 & _).
  - reflexivity.
  - reflexivity.
  - vm_compute; reflexivity.
  - discriminate.
  - vm_compute; reflexivity.
  - vm_compute; reflexivity.
  - vm_compute; reflexivity.
  - reflexivity.
  - reflexivity.
  - intros i Hi. vm_compute in Hi. inversion Hi.
  - apply Forall_forall. apply (bool_decide_unpack _). vm_compute. reflexivity.
  - intros _. repeat constructor.
  - repeat split; assumption.
Defined.
(** X26: a cached node that is no [svg] element is never handed out from
    the cache.  Once such a node is cached, every later [loadSvg] for its
    locator only joins the queue, which nothing processes any more: no
    request, no deferred task, no call of the callback. *)
Theorem cached_non_svg_root_is_never_delivered E p next evs evs' url root k :
  let s := run E evs (initial p next) in
  svgCache s !! url = Some (Cached root) ->
  isSVGSVGElement root = false ->
  let s' := run E evs' s in
  loadSvg E url k s'
  = (Ok tt,
     set_requestQueue
       (<[url := default [] (requestQueue s' !! url) ++ [k]]> (requestQueue s')) s').
Proof.
  intros s Hc Hsvg s'.
  assert (svgCache s' !! url = Some (Cached root)) as Hc'.
  { assert (consistent s) as (_ & _ & _ & Hl)
      by apply run_consistent, initial_consistent.
    destruct (run_slot_frame url E evs' s) as [H _]; [eauto| |subst s'; congruence].
    intros Hin. rewrite (Hl _ Hin) in Hc. discriminate. }
  unfold loadSvg, bind, gets. rewrite Hc', Hsvg. reflexivity.
Qed.

Lemma cached_non_svg_root_is_never_delivered_witness :
  let k := mkContinuation 2 "always" (Some 8%nat) "a.svg" in
  let s := run Sample.env
             [Inject 1 None (Some 7%nat);
              XhrDone "a.svg" (Sample.ok (Element 0 "html" ∅ []))]
             (initial [Sample.body [Sample.img 1 "a.svg"; Sample.img 2 "a.svg"]] 3) in
  let s' := run Sample.env [TimerFires] s in
  loadSvg Sample.env "a.svg" k s'
  = (Ok tt,
     set_requestQueue
       (<["a.svg" := default [] (requestQueue s' !! "a.svg") ++ [k]]> (requestQueue s'))
       s').
Proof.
  apply (cached_non_svg_root_is_never_delivered Sample.env
           [Sample.body [Sample.img 1 "a.svg"; Sample.img 2 "a.svg"]] 3
           [Inject 1 None (Some 7%nat);
            XhrDone "a.svg" (Sample.ok (Element 0 "html" ∅ []))]
           [TimerFires] "a.svg" (Element 3 "html" ∅ [])
           (mkContinuation 2 "always" (Some 8%nat) "a.svg")).
  - vm_compute. reflexivity.
  - reflexivity.
Defined.

(** X27: whatever happens, the injection counter never goes down, and a
    locator whose scripts were recorded as run stays recorded. *)
Theorem counter_and_script_record_only_grow E evs s :
  let s' := run E evs s in
  (injectCount s <= injectCount s')%N
  /\ forall url, ranScripts s !! url = Some true -> ranScripts s' !! url = Some true.
Proof.
  destruct (run_advances E evs s) as (H1 & _ & H2). split; [exact H1 | exact H2].
Qed.
(** X28: when the placeholder has no parent any more at line 312, the
    continuation raises [TypeError] there; by then the payloads have been
    run and recorded as line 285 says, while the page, the counter, the
    tracker and the callback are left untouched. *)
Theorem detached_placeholder_aborts_after_the_scripts
    E k s root tag attrs ch payloads svg' :
  let svg := Element root tag attrs ch in
  collected E (injectCount s) svg = Ok (payloads, svg') ->
  (runs_scripts k payloads s = true ->
   Forall (fun q => script_raises E q = false) payloads) ->
  (forall e, find_entry (k_el k) (page_entries (page s)) = Some e -> e_anc e = []) ->
  let r := continuation E k (LNode svg) s in
  fst r = Throw TypeError
  /\ evaluated (snd r)
     = evaluated s ++ (if runs_scripts k payloads s then payloads else [])
  /\ (runs_scripts k payloads s = true -> ranScripts (snd r) !! k_imgUrl k = Some true)
  /\ page (snd r) = page s /\ injectCount (snd r) = injectCount s
  /\ injectedElements (snd r) = injectedElements s /\ reported (snd r) = reported s.
Proof.
  intros svg Hcol Hquiet Hdet r. subst r svg.
  rewrite continuation_element, Hcol. unfold bind.
  rewrite (evalScriptsIfNeeded_eq _ _ _ _ Hquiet), finish_eq. cbv zeta.
  assert (forall s1 : State,
            page s1 = page s ->
            exists s2,
              match find_entry (k_el k) (page_entries (page s1)) with
              | Some e0 =>
                  match e_anc e0 with
                  | [] => (Throw TypeError,
                           set_nextRef (snd (refresh_styles svg' (nextRef s1))) s1)
                  | _ :: _ =>
                      (Ok tt,
                       set_reported
                         (reported s1 ++ [(k_callback k, [VNull; VNode root])])
                         (set_injectCount (injectCount s1 + 1)%N
                            (set_injectedElements
                               (delete_injected (k_el k) (injectedElements s1))
                               (set_page
                                  (map (replace_node (k_el k)
                                          (fst (refresh_styles svg' (nextRef s1))))
                                     (page s1) ++ [e_node e0])
                                  (set_nextRef (snd (refresh_styles svg' (nextRef s1)))
                                     s1)))))
                  end
              | None => (Throw TypeError,
                         set_nextRef (snd (refresh_styles svg' (nextRef s1))) s1)
              end = (Throw TypeError, set_nextRef s2 s1)) as Hfin.
  { intros s1 ->. destruct (find_entry _ _) as [e|] eqn:He; [|eauto].
    rewrite (Hdet e eq_refl). eauto. }
  destruct (runs_scripts k payloads s).
  - match goal with |- context [find_entry _ (page_entries (page ?s1))] =>
      destruct (Hfin s1 eq_refl) as [s2 ->] end.
    simpl. repeat split. intros _. apply lookup_insert_eq.
  - destruct (Hfin s eq_refl) as [s2 ->]. simpl. rewrite app_nil_r.
    repeat split. discriminate.
Qed.

Lemma detached_placeholder_aborts_after_the_scripts_witness :
  let k := mkContinuation 1 "always" (Some 7%nat) "a.svg" in
  let s := set_page [Sample.body []; Sample.img 1 "a.svg"]
             (Scenario.arrived Scenario.one_script) in
  let r := continuation Sample.env k (LNode (Scenario.one_script_clone 5)) s in
  fst r = Throw TypeError /\ evaluated (snd r) = ["go()"] /\ reported (snd r) = [].
Proof.
  destruct (detached_placeholder_aborts_after_the_scripts Sample.env
              (mkContinuation 1 "always" (Some 7%nat) "a.svg")
              (set_page [Sample.body []; Sample.img 1 "a.svg"]
                 (Scenario.arrived Scenario.one_script))
              5%nat "svg" ∅ [Element 6 "script" ∅ [Text 7 "go()"]]
              ["go()"] (Element 5 "svg" Scenario.stretched []))
    as (H1 & H2 & _ & _ & _ & _ & H3).
  - vm_compute. reflexivity.
  - intros _. repeat constructor.
  - intros e He. vm_compute in He. injection He as <-. reflexivity.
  - split; [exact H1|]. split; [exact H2 | exact H3].
Defined.

(** ** The style refresh (lines 301-309) *)

Lemma append_nil_r s : s +:+ "" = s.
Proof. induction s as [|c s IH]; [reflexivity|]. rewrite append_cons, IH. reflexivity. Qed.

Lemma textContent_element r tag attrs ch :
  textContent (Element r tag attrs ch) = text_of ch.
Proof. reflexivity. Qed.

Lemma text_of_cons c l : text_of (c :: l) = textContent c +:+ text_of l.
Proof. reflexivity. Qed.

(** Replacing the children of the elements [target] by text nodes that
    carry the same text keeps the text of the tree; the elements of the
    result are elements of the tree, unchanged in all but their children. *)
Lemma set_children_text target T new n :
  Forall (fun c => exists r d, c = Text r d) new -> text_of new = T ->
  forall anc,
    (forall e, e ∈ entries anc n -> e_ref e = target -> textContent (e_node e) = T) ->
    textContent (set_children target new n) = textContent n
    /\ forall e', e' ∈ entries anc (set_children target new n) ->
         exists e, e ∈ entries anc n /\ kept_view e = kept_view e'.
Proof.
  intros Hnew Htext.
  induction n as [r tag attrs ch IH|r d] using node_ind_nested; intros anc Hat;
    [|split; [reflexivity | intros e' H; inversion H]].
  simpl. destruct (decide (r = target)) as [->|Hne].
  - assert (textContent (Element target tag attrs ch) = T) as Hroot
      by (apply (Hat (mkEntry anc target tag attrs (Element target tag attrs ch)));
          [left | reflexivity]).
    split; [rewrite textContent_element, Htext; symmetry; exact Hroot|].
    intros e' He'. simpl in He'.
    assert (flat_map (entries ((target, tag) :: anc)) new = []) as Hnone.
    { clear -Hnew. induction Hnew as [|c l (r & d & ->) _ IHl]; [reflexivity|exact IHl]. }
    rewrite Hnone in He'. apply list_elem_of_singleton in He' as ->.
    exists (mkEntry anc target tag attrs (Element target tag attrs ch)).
    split; [left|]. unfold kept_view. simpl. f_equal.
    rewrite <- textContent_element with (r := target) (tag := tag) (attrs := attrs).
    rewrite Hroot. symmetry. exact Htext.
  - assert (forall c, c ∈ ch ->
              forall e, e ∈ entries ((r, tag) :: anc) c -> e_ref e = target ->
                        textContent (e_node e) = T) as Hch.
    { intros c Hc e He. apply Hat. simpl. right.
      apply list_elem_of_In, in_flat_map. exists c. split; by apply list_elem_of_In. }
    assert (text_of (map (set_children target new) ch) = text_of ch
            /\ forall e', e' ∈ flat_map (entries ((r, tag) :: anc))
                                 (map (set_children target new) ch) ->
                 exists e, e ∈ flat_map (entries ((r, tag) :: anc)) ch
                           /\ kept_view e = kept_view e') as [Htxt Hent].
    { clear Hat. induction IH as [|c ch Hc _ IHch]; [split; [reflexivity|intros e' H; inversion H]|].
      destruct (Hc ((r, tag) :: anc)) as [Hc1 Hc2]; [apply Hch; left|].
      destruct IHch as [Hl1 Hl2]; [intros c' Hc'; apply Hch; right; exact Hc'|].
      split.
      - cbn [map]. rewrite !text_of_cons, Hc1, Hl1. reflexivity.
      - intros e' He'. simpl in He'. apply elem_of_app in He' as [He'|He'].
        + destruct (Hc2 e' He') as (e & He & Hv). exists e. split; [|exact Hv].
          simpl. apply elem_of_app. left. exact He.
        + destruct (Hl2 e' He') as (e & He & Hv). exists e. split; [|exact Hv].
          simpl. apply elem_of_app. right. exact He. }
    split; [rewrite !textContent_element; exact Htxt|].
    intros e' He'. simpl in He'. apply elem_of_cons in He' as [->|He'].
    + exists (mkEntry anc r tag attrs (Element r tag attrs ch)). split; [left|].
      unfold kept_view. simpl. f_equal. exact (eq_sym Htxt).
    + destruct (Hent e' He') as (e & He & Hv). exists e. split; [right; exact He | exact Hv].
Qed.

Section StyleRefresh.

Variable t0 : node.
Hypothesis unique_refs : NoDup (map e_ref (entries [] t0)).

Local Notation "'refreshed'" := (refreshed_from t0).

Lemma refresh_style_refreshed t next styleTag :
  styleTag ∈ entries [] t0 ->
  refreshed t -> refreshed (fst (refresh_style (t, next) styleTag)).
Proof.
  intros Hin [Htxt Hent].
  assert (forall e, e ∈ entries [] t -> e_ref e = e_ref styleTag ->
                    textContent (e_node e) = textContent (e_node styleTag)) as Hat.
  { intros e He Hr. destruct (Hent e He) as (e0 & He0 & Hv).
    unfold kept_view in Hv. injection Hv as Hr0 _ _ Ht0.
    assert (e0 = styleTag) as ->; [|congruence].
    pose proof (find_entry_unique _ _ unique_refs He0) as H1.
    pose proof (find_entry_unique _ _ unique_refs Hin) as H2.
    rewrite Hr0, Hr, H2 in H1. congruence. }
  unfold refresh_style.
  destruct (bool_decide (textContent (e_node styleTag) = "")) eqn:Hempty.
  - apply bool_decide_eq_true_1 in Hempty.
    destruct (set_children_text (e_ref styleTag) (textContent (e_node styleTag)) [] t
                ltac:(constructor) (eq_sym Hempty) [] Hat) as [H1 H2].
    split; [simpl; congruence|]. intros e' He'. simpl in He'.
    destruct (H2 e' He') as (e & He & Hv). destruct (Hent e He) as (e0 & He0 & Hv0).
    exists e0. split; [exact He0 | congruence].
  - destruct (set_children_text (e_ref styleTag) (textContent (e_node styleTag))
                [Text next (textContent (e_node styleTag))] t)
      with (anc := @nil (ref * string)) as [H1 H2];
      [repeat constructor; eauto | apply append_nil_r | exact Hat |].
    split; [simpl; congruence|]. intros e' He'. simpl in He'.
    destruct (H2 e' He') as (e & He & Hv). destruct (Hent e He) as (e0 & He0 & Hv0).
    exists e0. split; [exact He0 | congruence].
Qed.

Lemma refresh_styles_refreshed : forall l acc,
  (forall e, e ∈ l -> e ∈ entries [] t0) ->
  refreshed (fst acc) -> refreshed (fst (fold_left refresh_style l acc)).
Proof.
  induction l as [|e l IH]; intros [t next] Hl Hacc; [exact Hacc|].
  simpl. apply IH; [intros e' He'; apply Hl; right; exact He'|].
  apply refresh_style_refreshed; [apply Hl; left | exact Hacc].
Qed.

End StyleRefresh.

(** X29: the style refresh changes no text and no element: in a tree of
    distinct node objects, the text of the result is the text of the tree,
    and every element of the result is an element of the tree, with its
    tag, its attributes and its text.  (Only what stood inside a [style]
    element is replaced, by one text node carrying the same text.) *)
Theorem style_refresh_keeps_text_and_elements svg next :
  NoDup (map e_ref (entries [] svg)) ->
  let refreshed := fst (refresh_styles svg next) in
  textContent refreshed = textContent svg
  /\ forall e', e' ∈ entries [] refreshed ->
       exists e, e ∈ entries [] svg /\ e_ref e = e_ref e' /\ e_tag e = e_tag e'
                 /\ e_attrs e = e_attrs e'
                 /\ textContent (e_node e) = textContent (e_node e').
Proof.
  intros Hnd refreshed.
  destruct (refresh_styles_refreshed svg Hnd (querySelectorAll (SelTag "style") svg)
              (svg, next)) as [H1 H2].
  - intros e He. unfold querySelectorAll in He.
    apply list_elem_of_filter in He as [_ He].
    destruct (entries [] svg); [inversion He | right; exact He].
  - split; [reflexivity|]. intros e' He'. exists e'. split; [exact He' | reflexivity].
  - split; [exact H1|]. intros e' He'. destruct (H2 e' He') as (e & He & Hv).
    exists e. split; [exact He|]. unfold kept_view in Hv. injection Hv as ? ? ? ?.
    auto.
Qed.

Lemma style_refresh_keeps_text_and_elements_witness :
  let svg := Element 5 "svg" ∅
               [ Element 6 "style" ∅ [Text 7 ".a{"; Text 8 "}"];
                 Element 9 "rect" ∅ [] ] in
  fst (refresh_styles svg 10)
  = Element 5 "svg" ∅ [Element 6 "style" ∅ [Text 10 ".a{}"]; Element 9 "rect" ∅ []]
  /\ textContent (fst (refresh_styles svg 10)) = textContent svg.
Proof.
  split; [vm_compute; reflexivity|].
  apply (style_refresh_keeps_text_and_elements
           (Element 5 "svg" ∅
              [ Element 6 "style" ∅ [Text 7 ".a{"; Text 8 "}"];
                Element 9 "rect" ∅ [] ]) 10).
  apply (bool_decide_unpack _). vm_compute. reflexivity.
Defined.
(** ** The request queue (lines 30-46) *)

Lemma queue_grows_refl s : queue_grows s s.
Proof. intros u q Hq. exists []. rewrite app_nil_r. exact Hq. Qed.

Lemma queue_grows_trans s1 s2 s3 :
  queue_grows s1 s2 -> queue_grows s2 s3 -> queue_grows s1 s3.
Proof.
  intros H12 H23 u q Hq. destruct (H12 u q Hq) as [q1 Hq1].
  destruct (H23 u _ Hq1) as [q2 Hq2]. exists (q1 ++ q2). rewrite app_assoc. exact Hq2.
Qed.

Lemma queue_grows_same s s' : requestQueue s' = requestQueue s -> queue_grows s s'.
Proof. intros H u q Hq. exists []. rewrite app_nil_r, H. exact Hq. Qed.

#[local] Hint Resolve queue_grows_refl queue_grows_trans : core.

Lemma continuation_queue_grows E k arg : preserves queue_grows (continuation E k arg).
Proof.
  intros s. apply queue_grows_same.
  destruct (continuation_cache_frame E k arg s) as (_ & H & _). exact H.
Qed.

#[local] Hint Resolve continuation_queue_grows : core.

Lemma cloneSvg_queue_grows src : preserves queue_grows (cloneSvg src).
Proof. intros s. apply queue_grows_same. reflexivity. Qed.

#[local] Hint Resolve cloneSvg_queue_grows : core.

Lemma invoke_queue_grows E k arg : preserves queue_grows (invoke E k arg).
Proof. unfold invoke. repeat preserve_step. apply queue_grows_same. reflexivity. Qed.

#[local] Hint Resolve invoke_queue_grows : core.

Lemma queueRequest_queue_grows url k : preserves queue_grows (queueRequest url k).
Proof.
  intros s u q Hq. simpl. destruct (decide (u = url)) as [->|Hne].
  - rewrite lookup_insert_eq, Hq. eauto.
  - rewrite lookup_insert_ne by congruence. exists []. rewrite app_nil_r. exact Hq.
Qed.

#[local] Hint Resolve queueRequest_queue_grows : core.

Lemma loadSvg_queue_grows E url k : preserves queue_grows (loadSvg E url k).
Proof.
  unfold loadSvg. repeat preserve_step.
  all: apply queue_grows_same; reflexivity.
Qed.

Lemma fire_timer_queue_grows E task : preserves queue_grows (fire_timer E task).
Proof. unfold fire_timer. destruct task as [url index]. repeat preserve_step. Qed.

Lemma onreadystatechange_queue_grows E url k resp :
  preserves queue_grows (onreadystatechange E url k resp).
Proof.
  unfold onreadystatechange, cache_document, processRequestQueue, setTimeout.
  repeat preserve_step.
  all: apply queue_grows_same; reflexivity.
Qed.

#[local] Hint Resolve loadSvg_queue_grows fire_timer_queue_grows
  onreadystatechange_queue_grows : core.

Lemma SVGInjector_queue_grows E el evalScripts callback :
  preserves queue_grows (SVGInjector E el evalScripts callback).
Proof.
  unfold SVGInjector, getAttribute, set_page_attribute, call.
  repeat preserve_step.
  all: apply queue_grows_same; reflexivity.
Qed.

#[local] Hint Resolve SVGInjector_queue_grows : core.

Lemma step_queue_grows E ev : preserves queue_grows (step E ev).
Proof.
  destruct ev as [el evalScripts callback|url resp|]; simpl.
  - apply SVGInjector_queue_grows.
  - repeat preserve_step. apply queue_grows_same. reflexivity.
  - repeat preserve_step. apply queue_grows_same. reflexivity.
Qed.

(** X30: nothing is ever taken out of a request queue: over any events,
    the queue of a locator keeps the callbacks it holds, at their indices,
    also once they have been called; later callbacks are added at the
    end. *)
Theorem queued_callbacks_are_never_removed E evs : forall s url q,
  requestQueue s !! url = Some q ->
  exists later, requestQueue (run E evs s) !! url = Some (q ++ later).
Proof.
  induction evs as [|ev evs IH]; intros s url q Hq.
  - exists []. rewrite app_nil_r. exact Hq.
  - simpl. destruct (step_queue_grows E ev s url q Hq) as [q1 Hq1].
    destruct (IH _ url _ Hq1) as [q2 Hq2]. exists (q1 ++ q2).
    rewrite app_assoc. exact Hq2.
Qed.

Lemma queued_callbacks_are_never_removed_witness :
  let k := mkContinuation 1 "always" (Some 7%nat) "a.svg" in
  exists later,
    requestQueue
      (run Sample.env [XhrDone "a.svg" (Sample.ok Sample.clip); TimerFires]
         (run Sample.env [Inject 1 None (Some 7%nat)] Scenario.one_placeholder))
      !! "a.svg"
    = Some ([k] ++ later).
Proof.
  apply (queued_callbacks_are_never_removed Sample.env
           [XhrDone "a.svg" (Sample.ok Sample.clip); TimerFires]
           (run Sample.env [Inject 1 None (Some 7%nat)] Scenario.one_placeholder)
           "a.svg" [mkContinuation 1 "always" (Some 7%nat) "a.svg"]).
  vm_compute. reflexivity.
Defined.
(** ** Coalesced requests (lines 35-141) *)


























(** ** The value of a referencing attribute after the rewriting *)

Lemma rewritten_value_app sfx p l1 l2 v :
  rewritten_value sfx p (l1 ++ l2) v
    = rewritten_value sfx p l2 (rewritten_value sfx p l1 v).
Proof. unfold rewritten_value. apply fold_left_app. Qed.

(** Where only one identifier is mentioned, the value ends as the
    reference to that identifier. *)
Lemma rewritten_value_only sfx p c v : forall pairs cur,
  (forall c', (c', p) ∈ pairs ->
     c' = c \/
     (mentions c' v = false /\ mentions c' (url_reference (c +:+ sfx)) = false)) ->
  mentions c v = true ->
  (cur = v /\ ((c, p) ∈ pairs)) \/ cur = url_reference (c +:+ sfx) ->
  rewritten_value sfx p pairs cur = url_reference (c +:+ sfx).
Proof.
  induction pairs as [|[c' q] pairs IH]; intros cur Hall Hc Hcur.
  - destruct Hcur as [[_ Hin]| ->]; [by apply elem_of_nil in Hin|done].
  - unfold rewritten_value. cbn [fold_left fst snd].
    change (fold_left _ pairs ?x) with (rewritten_value sfx p pairs x).
    apply IH; [intros c'' Hin; apply Hall; by right|exact Hc|].
    destruct (decide (q = p)) as [->|Hq].
    + destruct (Hall c' ltac:(left)) as [->|[Hv Hu]].
      * destruct Hcur as [[-> _]| ->]; [rewrite Hc; by right|].
        destruct (mentions c (url_reference _)); by right.
      * destruct Hcur as [[-> Hin]| ->].
        -- rewrite Hv. left. split; [done|].
           apply elem_of_cons in Hin as [[= <-]|Hin]; [|done].
           rewrite Hc in Hv. discriminate.
        -- rewrite Hu. by right.
    + destruct Hcur as [[-> Hin]| ->]; [|by right].
      left. split; [done|]. apply elem_of_cons in Hin as [[= _ <-]|Hin]; done.
Qed.

Section RewrittenValue.
Variable E : Env.
Variable count : N.
Variable t0 : node.
Hypothesis unique_refs : NoDup (map e_ref (entries [] t0)).
Variable r : ref.
Variable p : string.
Hypothesis below : r ∈ map e_ref (tail (entries [] t0)).
Hypothesis not_id : p <> "id".

Local Notation "'sfx'" := ("-" +:+ number_to_string count).
Local Notation "'inv'" := (rewriting_inv t0 sfx).

(** One query and its [setAttribute] calls. *)
Lemma rewrite_property_value F c newId q t' :
  (q = p -> selector_safe c = true) ->
  rewrite_property E c newId (map_attrs F t0) q = Ok t' ->
  attr_at r p t'
    = (fun v => if decide (q = p) then
                  if mentions c v then url_reference newId else v
                else v) <$> attr_at r p (map_attrs F t0).
Proof.
  intros Hsafe. unfold rewrite_property.
  destruct (query_referencing E q c (map_attrs F t0)) as [matched|] eqn:Hq; [|done].
  intros [= <-]. rewrite fold_setAttribute, map_attrs_compose, !attr_at_map_attrs.
  apply list_elem_of_fmap in below as (e&Hre&He).
  assert (e ∈ entries [] t0) as He0.
  { destruct (entries [] t0); [by apply elem_of_nil in He|by right]. }
  rewrite Hre, (find_entry_unique _ _ unique_refs He0). simpl.
  destruct (decide (q = p)) as [->|Hqp].
  - unfold query_referencing in Hq. rewrite (Hsafe eq_refl) in Hq.
    injection Hq as <-.
    assert (e_ref e ∈ map e_ref (querySelectorAll (SelAttrContains p c) (map_attrs F t0))
            <-> matches (SelAttrContains p c) (upd F e) = true) as Hm.
    { unfold querySelectorAll. rewrite tail_entries_map_attrs. split.
      - intros (e1&Hr1&Hin)%list_elem_of_fmap.
        apply list_elem_of_filter in Hin as [Hm Hin].
        apply list_elem_of_fmap in Hin as (e2&->&Hin).
        assert (e2 ∈ entries [] t0) as He2.
        { destruct (entries [] t0); [by apply elem_of_nil in Hin|by right]. }
        pose proof (find_entry_unique _ _ unique_refs He2) as H2.
        simpl in Hr1. rewrite <- Hr1, (find_entry_unique _ _ unique_refs He0) in H2.
        by injection H2 as ->.
      - intros Hm. apply list_elem_of_fmap. exists (upd F e). split; [done|].
        apply list_elem_of_filter. split; [done|].
        apply list_elem_of_fmap. by exists e. }
    simpl in Hm. unfold mentions.
    destruct (F (e_ref e) (e_attrs e) !! p) as [x|] eqn:Hx; simpl.
    + destruct (negb (bool_decide (c = "")) && contains c x) eqn:Hmx.
      * rewrite decide_True by (by apply Hm). by rewrite lookup_insert_eq.
      * rewrite decide_False; [done|]. intros Hin%Hm. discriminate.
    + rewrite decide_False; [done|]. intros Hin%Hm. discriminate.
  - destruct (decide (e_ref e ∈ matched)); [rewrite lookup_insert_ne by done|];
      by destruct (F (e_ref e) (e_attrs e) !! p).
Qed.

Lemma value_properties dr c ps : forall dcp F t',
  inv dr dcp F -> Forall (fun q => q <> "id") ps ->
  (p ∈ ps -> selector_safe c = true) ->
  fold_result (rewrite_property E c (c +:+ sfx)) ps (map_attrs F t0) = Ok t' ->
  attr_at r p t'
    = rewritten_value sfx p (map (pair c) ps) <$> attr_at r p (map_attrs F t0).
Proof.
  induction ps as [|q ps IH]; intros dcp F t' Hinv Hps Hsafe; simpl.
  - intros [= <-]. by destruct (attr_at r p (map_attrs F t0)).
  - apply Forall_cons in Hps as [Hq Hps].
    destruct (rewrite_property E c (c +:+ sfx) (map_attrs F t0) q) as [t1|] eqn:H1;
      [|done].
    pose proof (rewrite_property_value F c (c +:+ sfx) q t1
                  (fun Heq => Hsafe ltac:(rewrite Heq; left)) H1) as Hv1.
    destruct (inv_property E count t0 dr dcp F c q t1 Hinv Hq H1) as (F1&->&Hinv1).
    intros H2.
    rewrite (IH _ _ _ Hinv1 Hps (fun Hin => Hsafe ltac:(by right)) H2), Hv1.
    by destruct (attr_at r p (map_attrs F t0)).
Qed.

Lemma value_definition dr dcp F ps d tag t' :
  inv dr dcp F -> Forall (fun q => q <> "id") ps ->
  d ∉ dr -> d ∈ defs_of t0 tag ->
  (p ∈ ps -> selector_safe (id_at d t0) = true) ->
  rewrite_definition E count ps (map_attrs F t0) d = Ok t' ->
  attr_at r p t'
    = rewritten_value sfx p (map (pair (id_at d t0)) ps)
        <$> attr_at r p (map_attrs F t0).
Proof.
  intros Hinv Hps Hd Hdef Hsafe. unfold rewrite_definition.
  rewrite (id_at_current count t0 dr dcp F d Hinv Hd).
  set (c := id_at d t0) in *.
  destruct (fold_result _ ps (map_attrs F t0)) as [t1|] eqn:H1; [|done].
  pose proof (value_properties dr c ps dcp F t1 Hinv Hps Hsafe H1) as Hv1.
  destruct (inv_properties E count t0 dr c ps dcp F t1 Hinv Hps H1) as (F1&->&_).
  intros [= <-]. rewrite <- Hv1. unfold setAttribute.
  rewrite map_attrs_compose, !attr_at_map_attrs.
  destruct (find_entry r (entries [] t0)) as [e|]; [|done]. simpl.
  destruct (decide (r = d)); [by rewrite lookup_insert_ne|done].
Qed.

Lemma value_definitions ps tag : forall ds dr dcp F t',
  inv dr dcp F -> Forall (fun q => q <> "id") ps ->
  NoDup (dr ++ ds) -> (forall d, d ∈ ds -> d ∈ defs_of t0 tag) ->
  (forall d, d ∈ ds -> p ∈ ps -> selector_safe (id_at d t0) = true) ->
  fold_result (rewrite_definition E count ps) ds (map_attrs F t0) = Ok t' ->
  attr_at r p t'
    = rewritten_value sfx p (flat_map (fun d => map (pair (id_at d t0)) ps) ds)
        <$> attr_at r p (map_attrs F t0).
Proof.
  induction ds as [|d ds IH]; intros dr dcp F t' Hinv Hps Hnd Hdefs Hsafe;
    cbn [fold_result flat_map].
  - intros [= <-]. by destruct (attr_at r p (map_attrs F t0)).
  - destruct (rewrite_definition E count ps (map_attrs F t0) d) as [t1|] eqn:H1;
      [|done].
    assert (d ∉ dr) as Hd.
    { apply NoDup_app in Hnd as (_&Hdis&_). intros Hin. apply (Hdis d Hin). left. }
    pose proof (value_definition dr dcp F ps d tag t1 Hinv Hps Hd
                  (Hdefs d ltac:(left)) (Hsafe d ltac:(left)) H1) as Hv1.
    destruct (inv_definition E count t0 unique_refs dr dcp F ps d tag t1 Hinv Hps Hd
                (Hdefs d ltac:(left)) H1) as (F1&->&Hinv1).
    intros H2.
    rewrite (IH _ _ _ _ Hinv1 Hps); [..|exact H2].
    + rewrite Hv1. destruct (attr_at r p (map_attrs F t0)); [|done].
      simpl. by rewrite rewritten_value_app.
    + by rewrite <- app_assoc.
    + intros d' Hd'. apply Hdefs. by right.
    + intros d' Hd'. apply Hsafe. by right.
Qed.

Lemma value_categories : forall cats dr dcp F t',
  inv dr dcp F ->
  Forall (fun cat => Forall (fun q => q <> "id") (snd cat)) cats ->
  NoDup (dr ++ flat_map (fun cat => defs_of t0 (fst cat)) cats) ->
  (forall cat d, cat ∈ cats -> d ∈ defs_of t0 (fst cat) -> p ∈ snd cat ->
     selector_safe (id_at d t0) = true) ->
  fold_result (rewrite_category E count) cats (map_attrs F t0) = Ok t' ->
  attr_at r p t'
    = rewritten_value sfx p
        (flat_map (fun cat => flat_map (fun d => map (pair (id_at d t0)) (snd cat))
                                (defs_of t0 (fst cat))) cats)
        <$> attr_at r p (map_attrs F t0).
Proof.
  induction cats as [|cat cats IH]; intros dr dcp F t' Hinv Hps Hnd Hsafe;
    cbn [fold_result flat_map].
  - intros [= <-]. by destruct (attr_at r p (map_attrs F t0)).
  - apply Forall_cons in Hps as [Hp Hps].
    destruct (rewrite_category E count (map_attrs F t0) cat) as [t1|] eqn:H1; [|done].
    unfold rewrite_category in H1.
    change (map e_ref (querySelectorAll (SelDefsId (fst cat)) (map_attrs F t0)))
      with (defs_of (map_attrs F t0) (fst cat)) in H1.
    rewrite (defs_of_current count t0 unique_refs dr dcp F (fst cat) Hinv) in H1.
    simpl in Hnd. rewrite app_assoc in Hnd.
    assert (NoDup (dr ++ defs_of t0 (fst cat))) as Hnd1
      by (by apply NoDup_app in Hnd as (?&_)).
    pose proof (value_definitions (snd cat) (fst cat) _ dr dcp F t1 Hinv Hp Hnd1
                  (fun d Hd => Hd) (fun d Hd => Hsafe cat d ltac:(left) Hd) H1) as Hv1.
    destruct (inv_definitions E count t0 unique_refs (snd cat) (fst cat) _ dr dcp F t1
                Hinv Hp Hnd1 (fun d Hd => Hd) H1) as (F1&->&Hinv1).
    intros H2.
    rewrite (IH _ _ _ _ Hinv1 Hps Hnd); [..|exact H2].
    + rewrite Hv1. destruct (attr_at r p (map_attrs F t0)); [|done].
      simpl. by rewrite rewritten_value_app.
    + intros cat' d Hcat'. apply Hsafe. by right.
Qed.

(** The loops of lines 232-253, seen from one attribute of one
    descendant. *)
Lemma attribute_after_rewriting t' :
  (forall c, (c, p) ∈ all_pairs t0 -> selector_safe c = true) ->
  makeIdsUnique E count t0 = Ok t' ->
  attr_at r p t' = rewritten_value sfx p (all_pairs t0) <$> attr_at r p t0.
Proof.
  intros Hsafe Hrun. unfold makeIdsUnique in Hrun.
  rewrite <- (map_attrs_id t0) in Hrun at 1.
  rewrite (value_categories iriElementsAndProperties [] [] (fun _ a => a) t'
             (inv_start count t0) table_properties_not_id).
  - by rewrite map_attrs_id.
  - exact (all_defs_NoDup t0 unique_refs iriElementsAndProperties table_tags_NoDup).
  - intros cat d Hcat Hd Hp. apply Hsafe.
    apply list_elem_of_In, in_flat_map. exists cat. split; [by apply list_elem_of_In|].
    apply in_flat_map. exists d. split; [by apply list_elem_of_In|].
    apply list_elem_of_In, list_elem_of_fmap. by exists p.
  - exact Hrun.
Qed.

End RewrittenValue.

(** An attribute that mentions one identifier in category scope, and no
    other, ends as the reference to that identifier with the suffix. *)
Lemma reference_to_own_id E count t0 t' r p c :
  NoDup (map e_ref (entries [] t0)) ->
  makeIdsUnique E count t0 = Ok t' ->
  mentions_only t0 ("-" +:+ number_to_string count) r p c ->
  attr_at r p t' = Some (url_reference (c +:+ "-" +:+ number_to_string count))
  /\ c +:+ "-" +:+ number_to_string count ∈ scoped_ids t'.
Proof.
  intros Hnd Hrun (v&Hr&Hv&Hpair&Hc&Hall).
  assert (p <> "id") as Hp.
  { intros ->. revert Hpair. apply pair_not_referencing.
    apply (bool_decide_unpack _). by vm_compute. }
  split.
  - rewrite (attribute_after_rewriting E count t0 Hnd r p Hr Hp t'
               (fun c' Hc' => proj1 (Hall c' Hc')) Hrun), Hv. simpl. f_equal.
    apply (rewritten_value_only _ p c v); [|exact Hc|left; by split].
    intros c' Hc'. apply (Hall c' Hc').
  - rewrite (scoped_ids_rewritten E count t0 Hnd t' Hrun).
    apply list_elem_of_fmap. exists c. split; [done|].
    apply list_elem_of_In, in_flat_map in Hpair as (cat&Hcat&Hin).
    apply in_flat_map in Hin as (d&Hd&Hin).
    apply list_elem_of_In, list_elem_of_fmap in Hin as (p'&[= -> ->]&_).
    apply (def_id_scoped t0 Hnd cat d); by apply list_elem_of_In.
Qed.

(** C2, as stated, fails.  In [<svg clip-path="url(#ab)"> <defs> <clipPath
    id="a"/> <clipPath id="ab"/> </defs> <rect clip-path="url(#ab)"/>
    </svg>] both attributes reference [ab].  After the rewriting with
    counter 0 the identifiers are [a-0] and [ab-0]; the attribute of the
    root is still [url(#ab)], which is no identifier of the tree, and the
    attribute of the rectangle is [url(#a-0)], the other definition. *)
Lemma root_and_overlapping_references_go_astray :
  let svg := stretch (copy_at 1 Sample.overlapping) in
  exists t,
    makeIdsUnique Sample.env 0 svg = Ok t /\
    scoped_ids t = ["a-0"; "ab-0"] /\
    attr_at 1 "clip-path" svg = Some "url(#ab)" /\
    attr_at 1 "clip-path" t = Some "url(#ab)" /\
    attr_at 5 "clip-path" svg = Some "url(#ab)" /\
    attr_at 5 "clip-path" t = Some "url(#a-0)".
Proof.
  eexists. split; [vm_compute; reflexivity|].
  vm_compute. repeat split; reflexivity.
Qed.

(** C2, amended: two injections of the same resource, the first of which
    succeeds in state [s]; the second takes place in any later state.
    [t_a] and [t_b] are the trees the two injections hold after the
    identifier rewriting.  In each, the identifiers in category scope are
    those of the resource followed by a dash and the counter of that
    injection; no identifier of one tree occurs in the other.  In each
    tree, an attribute of a descendant that mentioned one identifier in
    category scope, of a category listing that attribute, and no other, is
    the reference [url(#i)] to that very identifier as rewritten in the
    same tree; where identifiers overlap, an attribute that mentioned one
    of them is still the reference to a rewritten identifier of the same
    tree. *)
Theorem injections_rewrite_to_disjoint_ids
    E resource base_a base_b k_a s s' evs t_a t_b :
  let svg_a := copy_at base_a resource in
  let svg_b := copy_at base_b resource in
  let count_a := injectCount s in
  let count_b := injectCount (run E evs s') in
  let sfx_a := "-" +:+ number_to_string count_a in
  let sfx_b := "-" +:+ number_to_string count_b in
  continuation E k_a (LNode svg_a) s = (Ok tt, s') ->
  makeIdsUnique E count_a (stretch svg_a) = Ok t_a ->
  makeIdsUnique E count_b (stretch svg_b) = Ok t_b ->
  scoped_ids t_a = map (fun c => c +:+ sfx_a) (scoped_ids resource)
  /\ scoped_ids t_b = map (fun c => c +:+ sfx_b) (scoped_ids resource)
  /\ (forall i, i ∈ scoped_ids t_a -> i ∉ scoped_ids t_b)
  /\ (forall r p c, mentions_only (stretch svg_a) sfx_a r p c ->
        attr_at r p t_a = Some (url_reference (c +:+ sfx_a))
        /\ c +:+ sfx_a ∈ scoped_ids t_a)
  /\ (forall r p c, mentions_only (stretch svg_b) sfx_b r p c ->
        attr_at r p t_b = Some (url_reference (c +:+ sfx_b))
        /\ c +:+ sfx_b ∈ scoped_ids t_b)
  /\ (forall r p, mentions_scoped_id (stretch svg_a) r p ->
        exists i, i ∈ scoped_ids t_a /\ attr_at r p t_a = Some (url_reference i))
  /\ (forall r p, mentions_scoped_id (stretch svg_b) r p ->
        exists i, i ∈ scoped_ids t_b /\ attr_at r p t_b = Some (url_reference i)).
Proof.
  intros svg_a svg_b count_a count_b sfx_a sfx_b Hok Ha Hb.
  assert (count_a <> count_b) as Hne.
  { apply continuation_increments in Hok.
    destruct (run_advances E evs s') as (Hmono&_). subst count_a count_b. lia. }
  pose proof (scoped_ids_rewritten E count_a _ (unique_refs_of_clone base_a resource)
                t_a Ha) as Hids_a.
  pose proof (scoped_ids_rewritten E count_b _ (unique_refs_of_clone base_b resource)
                t_b Hb) as Hids_b.
  rewrite scoped_ids_of_clone in Hids_a, Hids_b.
  split; [exact Hids_a|]. split; [exact Hids_b|].
  split; [|split; [|split; [|split]]].
  - intros i Hi_a Hi_b. rewrite Hids_a in Hi_a. rewrite Hids_b in Hi_b.
    apply list_elem_of_fmap in Hi_a as (c1&->&_).
    apply list_elem_of_fmap in Hi_b as (c2&Heq&_).
    by apply (suffixed_ids_differ c1 c2 count_a count_b Hne).
  - intros r p c Hm.
    exact (reference_to_own_id E count_a _ t_a r p c
             (unique_refs_of_clone base_a resource) Ha Hm).
  - intros r p c Hm.
    exact (reference_to_own_id E count_b _ t_b r p c
             (unique_refs_of_clone base_b resource) Hb Hm).
  - intros r p Hm.
    exact (references_rewritten E count_a _ (unique_refs_of_clone base_a resource)
             t_a r p Ha Hm).
  - intros r p Hm.
    exact (references_rewritten E count_b _ (unique_refs_of_clone base_b resource)
             t_b r p Hb Hm).
Qed.

Lemma injections_rewrite_to_disjoint_ids_witness :
  let E := Sample.env in
  let s := Scenario.arrived Sample.clip in
  let k_a := mkContinuation 1 "always" (Some 7%nat) "a.svg" in
  let svg_a := copy_at 6 Sample.clip in
  let svg_b := copy_at 10 Sample.clip in
  let s' := snd (continuation E k_a (LNode svg_a) s) in
  let t_a := Scenario.rewritten_clip 6 "0" in
  let t_b := Scenario.rewritten_clip 10 "1" in
  let count_a := injectCount s in
  let count_b := injectCount (run E [] s') in
  let sfx_a := "-" +:+ number_to_string count_a in
  let sfx_b := "-" +:+ number_to_string count_b in
  scoped_ids t_a = map (fun c => c +:+ sfx_a) (scoped_ids Sample.clip)
  /\ scoped_ids t_b = map (fun c => c +:+ sfx_b) (scoped_ids Sample.clip)
  /\ (forall i, i ∈ scoped_ids t_a -> i ∉ scoped_ids t_b)
  /\ (forall r p c, mentions_only (stretch svg_a) sfx_a r p c ->
        attr_at r p t_a = Some (url_reference (c +:+ sfx_a))
        /\ c +:+ sfx_a ∈ scoped_ids t_a)
  /\ (forall r p c, mentions_only (stretch svg_b) sfx_b r p c ->
        attr_at r p t_b = Some (url_reference (c +:+ sfx_b))
        /\ c +:+ sfx_b ∈ scoped_ids t_b)
  /\ (forall r p, mentions_scoped_id (stretch svg_a) r p ->
        exists i, i ∈ scoped_ids t_a /\ attr_at r p t_a = Some (url_reference i))
  /\ (forall r p, mentions_scoped_id (stretch svg_b) r p ->
        exists i, i ∈ scoped_ids t_b /\ attr_at r p t_b = Some (url_reference i)).
Proof.
  intros E s k_a svg_a svg_b s' t_a t_b.
  apply (injections_rewrite_to_disjoint_ids E Sample.clip 6 10 k_a s s' [] t_a t_b).
  - vm_compute. reflexivity.
  - vm_compute. reflexivity.
  - vm_compute. reflexivity.
Defined.

(** The reference of the sample document is one the theorem speaks of. *)
Lemma clip_reference_is_mentioned :
  mentions_scoped_id (stretch (copy_at 6 Sample.clip)) 9 "clip-path".
Proof.
  exists ("clipPath", ["clip-path"]), 8%nat, "url(#c1)".
  split; [left|]. split; [left|].
  split; [apply (bool_decide_unpack _); by vm_compute|].
  split; [by vm_compute|]. split; [by vm_compute|].
  split; [apply (bool_decide_unpack _); by vm_compute|].
  split; by vm_compute.
Qed.

(** The reference of the sample document is one the theorem speaks of: it
    mentions [c1], the only identifier in category scope. *)
Lemma clip_reference_mentions_only :
  mentions_only (stretch (copy_at 6 Sample.clip)) "-0" 9 "clip-path" "c1".
Proof.
  exists "url(#c1)".
  split; [apply (bool_decide_unpack _); by vm_compute|].
  split; [by vm_compute|].
  split; [apply (bool_decide_unpack _); by vm_compute|].
  split; [by vm_compute|].
  intros c' Hc'.
  assert (all_pairs (stretch (copy_at 6 Sample.clip)) = [("c1", "clip-path")]) as Hall
    by (by vm_compute).
  rewrite Hall in Hc'. apply list_elem_of_singleton in Hc' as [= ->].
  split; [by vm_compute|by left].
Qed.

(** So are the references of a document with two identifiers: each ends as
    the reference to its own identifier. *)
Lemma distinct_references_keep_their_own_ids :
  let svg := stretch (copy_at 1 Sample.two_clips) in
  mentions_only svg "-0" 5 "clip-path" "k2" /\
  mentions_only svg "-0" 6 "clip-path" "c1" /\
  exists t,
    makeIdsUnique Sample.env 0 svg = Ok t /\
    scoped_ids t = ["c1-0"; "k2-0"] /\
    attr_at 5 "clip-path" t = Some "url(#k2-0)" /\
    attr_at 6 "clip-path" t = Some "url(#c1-0)".
Proof.
  assert (all_pairs (stretch (copy_at 1 Sample.two_clips))
          = [("c1", "clip-path"); ("k2", "clip-path")]) as Hall by (by vm_compute).
  split; [|split].
  - exists "url(#k2)".
    split; [apply (bool_decide_unpack _); by vm_compute|].
    split; [by vm_compute|].
    split; [apply (bool_decide_unpack _); by vm_compute|].
    split; [by vm_compute|].
    intros c' Hc'. rewrite Hall in Hc'.
    apply elem_of_cons in Hc' as [[= ->]|Hc'];
      [|apply list_elem_of_singleton in Hc' as [= ->]].
    + split; [by vm_compute|right; by vm_compute].
    + split; [by vm_compute|by left].
  - exists "url(#c1)".
    split; [apply (bool_decide_unpack _); by vm_compute|].
    split; [by vm_compute|].
    split; [apply (bool_decide_unpack _); by vm_compute|].
    split; [by vm_compute|].
    intros c' Hc'. rewrite Hall in Hc'.
    apply elem_of_cons in Hc' as [[= ->]|Hc'];
      [|apply list_elem_of_singleton in Hc' as [= ->]].
    + split; [by vm_compute|by left].
    + split; [by vm_compute|right; by vm_compute].
  - eexists. split; [vm_compute; reflexivity|]. vm_compute. by repeat split.
Qed.
